(** * SearXNG-Crawl4AI: the fetch-and-reduce pipeline of [crawler.py] and [main.py]

    A shallow embedding of [WebCrawler.crawl_urls], of the two text
    normalisers [markdown_to_text] and [markdown_to_text_regex], and of the
    [search] and [crawl] entry points, with the properties of the
    specification proved (or refuted) on it.

    Conventions.
    - A Python [str] is a [string]; a character of type [ascii] stands for the
      code point of the same number (the Latin-1 range of [str]).  The fixed
      messages of the source are kept as the bytes of their UTF-8 encoding;
      nothing depends on their text.
    - A Python list is a [list]; [append] adds at the end.
    - Calls that leave the process ([initialize], [arun_many], the HTTP
      exchange with SearXNG) are events of a program tree, answered by a
      [world]; everything else is a pure function.
    - Logging is not modelled, except that the arguments of a log call are
      evaluated (an f-string that indexes a list can raise).
    - The exceptions of [Py] are instances of [Exception].  What Python
      raises from outside that class (the cancellation of a task at an
      [await], for one), and no handler of the source catches, is added in
      [BaseExceptions], where [crawl_urls] and [search] are embedded over
      both kinds; on the answers of a world of [Py] the two embeddings
      agree.

    The life cycle of the crawler ([initialize], [close], [startup_event],
    [shutdown_event]) and [setup_logger] of [logger.py] are embedded on
    their own, with the calls they make to Playwright, to the browser and
    to the [logging] library as collaborators. *)

From Stdlib Require Import String Ascii List ZArith NArith Lia Bool Arith Permutation.
Import ListNotations.
Open Scope string_scope.

(* ================================================================== *)
(** ** Python [str] primitives used by the source *)

Module PyStr.

Definition LF : ascii := "010"%char.

(** ["\n"] and the two-newline suffix appended to every usable block. *)
Definition nl : string := String LF "".
Definition nlnl : string := String LF (String LF "").

(** [str.isspace] on one character, which is also what [\s] matches and what
    [str.strip] removes: TAB..CR, FS..US, SPACE, NEL and NBSP below 256. *)
Definition isspace (c : ascii) : bool :=
  let n := N_of_ascii c in
  (((9 <=? n) && (n <=? 13)) || ((28 <=? n) && (n <=? 32))
   || (n =? 133) || (n =? 160))%N.

Fixpoint lstrip (s : string) : string :=
  match s with
  | EmptyString => EmptyString
  | String c s' => if isspace c then lstrip s' else s
  end.

Fixpoint rstrip (s : string) : string :=
  match s with
  | EmptyString => EmptyString
  | String c s' =>
      match rstrip s' with
      | EmptyString => if isspace c then EmptyString else String c EmptyString
      | t => String c t
      end
  end.

(** [s.strip()] *)
Definition strip (s : string) : string := rstrip (lstrip s).

(** [s.split("\n")]: always at least one piece. *)
Fixpoint split_lines (s : string) : list string :=
  match s with
  | EmptyString => [EmptyString]
  | String c s' =>
      if Ascii.eqb c LF then EmptyString :: split_lines s'
      else match split_lines s' with
           | l :: ls => String c l :: ls
           | [] => [String c EmptyString]
           end
  end.

(** [sep.join(parts)] *)
Definition join (sep : string) (parts : list string) : string :=
  String.concat sep parts.

(** Truth value of a [str]: non-empty. *)
Definition truthy (s : string) : bool :=
  match s with EmptyString => false | _ => true end.

(** [c in s] for a single character. *)
Fixpoint contains_char (c : ascii) (s : string) : bool :=
  match s with
  | EmptyString => false
  | String d s' => Ascii.eqb c d || contains_char c s'
  end.

End PyStr.

(* ================================================================== *)
(** ** The fragment of Python's [re] used by [markdown_to_text_regex]

    A backtracking matcher in continuation-passing style: alternatives are
    tried in the order [re] tries them (greedy repetition longest first, lazy
    repetition shortest first, [|] left to right), and the first complete
    match wins. *)

Module Re.
Import PyStr.

Inductive regex : Type :=
| Chr (c : ascii)                               (* a literal character *)
| Cls (p : ascii -> bool)                       (* a character class *)
| Rep (lazy : bool) (least : nat) (p : ascii -> bool)
                                                (* a class under [*], [+], [*?] *)
| Cat (r1 r2 : regex)
| Alt (r1 r2 : regex)
| Grp (n : nat) (r : regex)                     (* capturing group number n *)
| Ref (n : nat)                                 (* backreference \n *)
| Bol.                                          (* ^ under re.MULTILINE *)

(** Captured groups, most recent binding first. *)
Definition captures := list (nat * string).

Fixpoint group (n : nat) (caps : captures) : option string :=
  match caps with
  | [] => None
  | (m, g) :: rest => if Nat.eqb n m then Some g else group n rest
  end.

(** A position in the subject: the character before it (if any) and the
    text after it. *)
Definition cont (R : Type) := option ascii -> string -> captures -> option R.

Fixpoint rep_greedy {R} (p : ascii -> bool) (least : nat)
    (prev : option ascii) (s : string) (caps : captures) (k : cont R)
    {struct s} : option R :=
  match s with
  | String c s' =>
      if p c then
        match rep_greedy p (pred least) (Some c) s' caps k with
        | Some r => Some r
        | None => if Nat.eqb least 0 then k prev s caps else None
        end
      else if Nat.eqb least 0 then k prev s caps else None
  | EmptyString => if Nat.eqb least 0 then k prev s caps else None
  end.

Fixpoint rep_lazy {R} (p : ascii -> bool) (least : nat)
    (prev : option ascii) (s : string) (caps : captures) (k : cont R)
    {struct s} : option R :=
  match least with
  | 0 =>
      match k prev s caps with
      | Some r => Some r
      | None =>
          match s with
          | String c s' => if p c then rep_lazy p 0 (Some c) s' caps k else None
          | EmptyString => None
          end
      end
  | S m =>
      match s with
      | String c s' => if p c then rep_lazy p m (Some c) s' caps k else None
      | EmptyString => None
      end
  end.

(** The text of [s] that lies before its suffix [s']. *)
Definition consumed (s s' : string) : string :=
  substring 0 (String.length s - String.length s') s.

(** Match the literal [g] at the position, as a backreference does. *)
Fixpoint literally (g : string) (prev : option ascii) (s : string)
  : option (option ascii * string) :=
  match g with
  | EmptyString => Some (prev, s)
  | String c g' =>
      match s with
      | String d s' => if Ascii.eqb c d then literally g' (Some d) s' else None
      | EmptyString => None
      end
  end.

Fixpoint match_re {R} (r : regex) (prev : option ascii) (s : string)
    (caps : captures) (k : cont R) : option R :=
  match r with
  | Chr c =>
      match s with
      | String d s' => if Ascii.eqb c d then k (Some d) s' caps else None
      | EmptyString => None
      end
  | Cls p =>
      match s with
      | String d s' => if p d then k (Some d) s' caps else None
      | EmptyString => None
      end
  | Rep lazy least p =>
      if lazy then rep_lazy p least prev s caps k
      else rep_greedy p least prev s caps k
  | Cat r1 r2 =>
      match_re r1 prev s caps (fun prev' s' caps' => match_re r2 prev' s' caps' k)
  | Alt r1 r2 =>
      match match_re r1 prev s caps k with
      | Some x => Some x
      | None => match_re r2 prev s caps k
      end
  | Grp n r1 =>
      match_re r1 prev s caps
        (fun prev' s' caps' => k prev' s' ((n, consumed s s') :: caps'))
  | Ref n =>
      match group n caps with
      | Some g =>
          match literally g prev s with
          | Some (prev', s') => k prev' s' caps
          | None => None
          end
      | None => None
      end
  | Bol =>
      match prev with
      | None => k prev s caps
      | Some c => if Ascii.eqb c LF then k prev s caps else None
      end
  end.

(** A match that starts exactly at the position: its length and groups. *)
Definition match_at (r : regex) (prev : option ascii) (s : string)
  : option (nat * captures) :=
  match_re r prev s []
    (fun _ s' caps => Some (String.length s - String.length s', caps)).

(** Replacement templates: literal text and group references [\n]. *)
Inductive piece : Type :=
| Txt (t : string)
| Group (n : nat).

Fixpoint expand (tpl : list piece) (caps : captures) : string :=
  match tpl with
  | [] => EmptyString
  | Txt t :: rest => t ++ expand rest caps
  | Group n :: rest =>
      match group n caps with
      | Some g => g ++ expand rest caps
      | None => expand rest caps
      end
  end.

(** [re.sub]: scan from the left; at each position not inside the previous
    match try the pattern; replace the leftmost match and go on after it.
    [skip] counts the characters of the current match still to be dropped.
    (An empty match is replaced and the scan moves one character on; none of
    the patterns below can match the empty string.) *)
Fixpoint sub_from (r : regex) (tpl : list piece) (skip : nat)
    (prev : option ascii) (s : string) : string :=
  match s with
  | EmptyString =>
      match skip with
      | 0 => match match_at r prev EmptyString with
             | Some (_, caps) => expand tpl caps
             | None => EmptyString
             end
      | S _ => EmptyString
      end
  | String c s' =>
      match skip with
      | S n => sub_from r tpl n (Some c) s'
      | 0 =>
          match match_at r prev s with
          | Some (len, caps) =>
              expand tpl caps ++
              match len with
              | 0 => String c (sub_from r tpl 0 (Some c) s')
              | S n => sub_from r tpl n (Some c) s'
              end
          | None => String c (sub_from r tpl 0 (Some c) s')
          end
      end
  end.

Definition sub (r : regex) (tpl : list piece) (s : string) : string :=
  sub_from r tpl 0 None s.

(** [re.search(r, s) is not None] *)
Fixpoint found_from (r : regex) (prev : option ascii) (s : string) : bool :=
  match match_at r prev s with
  | Some _ => true
  | None =>
      match s with
      | EmptyString => false
      | String c s' => found_from r (Some c) s'
      end
  end.

Definition found (r : regex) (s : string) : bool := found_from r None s.

End Re.

(* ================================================================== *)
(** ** The two text normalisers of [crawler.py] *)

Module Normalizer.
Import PyStr Re.

Infix "+>" := Cat (at level 61, right associativity).

Definition dot (c : ascii) : bool := negb (Ascii.eqb c LF).     (* . *)
Definition dot_all (c : ascii) : bool := true.                   (* . under re.DOTALL *)
Definition is_char (a : ascii) (c : ascii) : bool := Ascii.eqb a c.
Definition not_char (a : ascii) (c : ascii) : bool := negb (Ascii.eqb a c).
Definition bullet (c : ascii) : bool :=                          (* [\*\-\+] *)
  is_char "*" c || is_char "-" c || is_char "+" c.

(** The eight patterns of [markdown_to_text_regex], in source order. *)

(* r'#+\s*' *)
Definition re_heading : regex := Rep false 1 (is_char "#") +> Rep false 0 isspace.
(* r'\[([^\]]+)\]\([^\)]+\)' *)
Definition re_link : regex :=
  Chr "[" +> Grp 1 (Rep false 1 (not_char "]")) +> Chr "]" +>
  Chr "(" +> Rep false 1 (not_char ")") +> Chr ")".
(* r'(\*\*|__)(.*?)\1' *)
Definition re_strong : regex :=
  Grp 1 (Alt (Chr "*" +> Chr "*") (Chr "_" +> Chr "_")) +>
  Grp 2 (Rep true 0 dot) +> Ref 1.
(* r'(\*|_)(.*?)\1' *)
Definition re_emph : regex :=
  Grp 1 (Alt (Chr "*") (Chr "_")) +> Grp 2 (Rep true 0 dot) +> Ref 1.
(* r'^[\*\-\+]\s*' with re.MULTILINE *)
Definition re_bullet : regex := Bol +> Cls bullet +> Rep false 0 isspace.
(* r'`{3}.*?`{3}' with re.DOTALL *)
Definition re_fence : regex :=
  (Chr "`" +> Chr "`" +> Chr "`") +> Rep true 0 dot_all +>
  (Chr "`" +> Chr "`" +> Chr "`").
(* r'`(.*?)`' *)
Definition re_code : regex := Chr "`" +> Grp 1 (Rep true 0 dot) +> Chr "`".
(* r'^>\s*' with re.MULTILINE *)
Definition re_quote : regex := Bol +> Chr ">" +> Rep false 0 isspace.

(** [WebCrawler.markdown_to_text_regex] *)
Definition markdown_to_text_regex (markdown_str : string) : string :=
  let text := sub re_heading [] markdown_str in
  let text := sub re_link [Group 1] text in
  let text := sub re_strong [Group 2] text in
  let text := sub re_emph [Group 2] text in
  let text := sub re_bullet [] text in
  let text := sub re_fence [] text in
  let text := sub re_code [Group 1] text in
  let text := sub re_quote [] text in
  strip text.

(** The list comprehension and the join that end [markdown_to_text]:
    ["\n".join([line.strip() for line in text.split("\n") if line.strip()])] *)
Definition clean_lines (text : string) : string :=
  join nl (map strip (filter (fun line => truthy (strip line)) (split_lines text))).

Section MarkdownToText.

(** The two library calls of [markdown_to_text] are not part of the
    repository: [markdown.markdown(s, extensions=['fenced_code'])] and
    [BeautifulSoup(html, "html.parser").get_text(separator="\n")]. *)
Variable markdown_markdown : string -> string.
Variable get_text : string -> string.

(** [WebCrawler.markdown_to_text] *)
Definition markdown_to_text (markdown_str : string) : string :=
  let html := markdown_markdown markdown_str in
  let text := get_text html in
  clean_lines text.

(** The composition applied by [crawl_urls] to the joined blocks:
    [markdown_to_text_regex(markdown_to_text(combined_content))]. *)
Definition normalize (combined_content : string) : string :=
  markdown_to_text_regex (markdown_to_text combined_content).

End MarkdownToText.

End Normalizer.

(* ================================================================== *)
(** ** Exceptions, collaborators and program trees *)

Module Py.

(** The exceptions that the modelled code raises or lets through, all of
    them instances of [Exception] (what is not, [asyncio.CancelledError]
    for one, is added in [BaseExceptions]).  The text of [str(e)] is built
    by library code ([HTTPException.__str__] and the like), so a message
    keeps it symbolic. *)
Inductive exn : Type :=
| HTTPException (status_code : Z) (detail : message)
| IndexError                       (* list index out of range *)
| TypeError                        (* None + str *)
| Exception_ (msg : message)       (* raise Exception(...), or a collaborator's failure *)
with message : Type :=
| Text (s : string)
| Str (e : exn)                    (* str(e) *)
| Fmt (prefix : string) (m : message).   (* f"prefix{m}" *)

(** What the rendering engine hands back for one URL, seen through the
    attribute tests of [crawl_urls].  A field is [None] when [hasattr] is
    false for it. *)
Record Markdown : Type := {
  fit_markdown : option (option string)   (* absent | None | a str *)
}.

Record CrawlResult : Type := {
  success : option bool;                  (* absent | its truth value *)
  markdown : option Markdown              (* absent | the object; Python's
                                             None is an object with no
                                             fit_markdown *)
}.

(** One entry of the list returned by [arun_many]: [None] or a result. *)
Definition outcome : Type := option CrawlResult.

(** One record of the SearXNG answer: a dict that may have a ["url"] key. *)
Record SearchResult : Type := { url : option string }.

(** The decoded JSON answer of SearXNG: a dict that may have a ["results"]
    key holding a list of records. *)
Record SearxngResponse : Type := { results : option (list SearchResult) }.

(** Calls that leave the process, indexed by what they return. *)
Inductive call : Type -> Type :=
| Initialize : call unit
    (* await self.initialize() *)
| ArunMany (urls : list string) : call (list outcome)
    (* await self.crawler.arun_many(urls=urls, config=run_config) *)
| SearxngPost (query : string) (disabled_engines enabled_engines : string)
    : call SearxngResponse.
    (* the body of make_searxng_request's try: POST, read, json.loads *)

(** A program: returns, raises, or performs a call and goes on with the
    answer, which is a value or an exception raised by the callee. *)
Inductive prog (A : Type) : Type :=
| Ret (a : A)
| Raise (e : exn)
| Vis {X : Type} (c : call X) (k : exn + X -> prog A).

Arguments Ret {A} a.
Arguments Raise {A} e.
Arguments Vis {A X} c k.

Fixpoint bind {A B} (p : prog A) (f : A -> prog B) : prog B :=
  match p with
  | Ret a => f a
  | Raise e => Raise e
  | Vis c k => Vis c (fun r => bind (k r) f)
  end.

(** [try: p  except Exception as e: h e]; every [exn] is an instance of
    [Exception]. *)
Fixpoint try_except {A} (p : prog A) (h : exn -> prog A) : prog A :=
  match p with
  | Ret a => Ret a
  | Raise e => h e
  | Vis c k => Vis c (fun r => try_except (k r) h)
  end.

(** [await callee(...)]: the callee's exception is raised here. *)
Definition await {X} (c : call X) : prog X :=
  Vis c (fun r => match r with inl e => Raise e | inr x => Ret x end).

Notation "x <- p ;; q" := (bind p (fun x => q))
  (at level 61, p at next level, right associativity).
Notation "p ;;; q" := (bind p (fun _ => q))
  (at level 61, right associativity).

(** The observable record of a run: the calls made, in order. *)
Inductive event : Type :=
| EvInitialize
| EvArunMany (urls : list string)
| EvSearxngPost (query : string) (disabled_engines enabled_engines : string).

Definition event_of {X} (c : call X) : event :=
  match c with
  | Initialize => EvInitialize
  | ArunMany urls => EvArunMany urls
  | SearxngPost q d e => EvSearxngPost q d e
  end.

(** The argument lists of the [arun_many] calls of a trace. *)
Fixpoint engine_calls (tr : list event) : list (list string) :=
  match tr with
  | [] => []
  | EvArunMany urls :: rest => urls :: engine_calls rest
  | _ :: rest => engine_calls rest
  end.

(** The collaborators.  The rendering engine answers by pass number (how
    many [arun_many] calls came before) and argument list. *)
Record world : Type := {
  initialize_reply : exn + unit;
  arun_many_reply : nat -> list string -> exn + list outcome;
  searxng_reply : string -> string -> string -> exn + SearxngResponse
}.

Definition answer (w : world) (tr : list event) {X} (c : call X) : exn + X :=
  match c in call T return exn + T with
  | Initialize => initialize_reply w
  | ArunMany urls => arun_many_reply w (List.length (engine_calls tr)) urls
  | SearxngPost q d e => searxng_reply w q d e
  end.

(** Run a program against a world from a trace.  Total: a program tree is
    finite. *)
Fixpoint run_from {A} (w : world) (tr : list event) (p : prog A)
  : list event * (exn + A) :=
  match p with
  | Ret a => (tr, inr a)
  | Raise e => (tr, inl e)
  | Vis c k => run_from w (tr ++ [event_of c]) (k (answer w tr c))
  end.

Definition run {A} (w : world) (p : prog A) : list event * (exn + A) :=
  run_from w [] p.

End Py.

(* ================================================================== *)
(** ** [WebCrawler.crawl_urls] *)

Module Response.
(** The dict returned by [crawl_urls]. *)
Record t : Type := {
  content : string;
  success_count : nat;
  failed_urls : list string
}.
End Response.

Module Crawler.
Import PyStr Py Normalizer.

(** The three lists that [crawl_urls] fills while it inspects outcomes. *)
Record lists : Type := {
  all_results : list string;
  failed_urls : list string;
  retry_urls : list string
}.

Definition no_lists : lists :=
  {| all_results := []; failed_urls := []; retry_urls := [] |}.

(** The loops mutate the lists and may raise; what was appended before an
    exception stays appended. *)
Definition loop (A : Type) : Type := lists -> lists * (exn + A).

Definition ret {A} (a : A) : loop A := fun st => (st, inr a).
Definition raise {A} (e : exn) : loop A := fun st => (st, inl e).
Definition then_ {A B} (m : loop A) (f : A -> loop B) : loop B :=
  fun st => match m st with
            | (st', inr a) => f a st'
            | (st', inl e) => (st', inl e)
            end.
Definition try_loop {A} (m : loop A) (h : exn -> loop A) : loop A :=
  fun st => match m st with
            | (st', inr a) => (st', inr a)
            | (st', inl e) => h e st'
            end.

Notation "x <~ m ; k" := (then_ m (fun x => k))
  (at level 62, m at next level, right associativity).
Notation "m ;> k" := (then_ m (fun _ => k))
  (at level 62, right associativity).

(** [l[i]] for [i >= 0] *)
Definition index (l : list string) (i : nat) : loop string :=
  match nth_error l i with
  | Some u => ret u
  | None => raise IndexError
  end.

(** A log call whose f-string reads [l[i]]. *)
Definition log_with (l : list string) (i : nat) : loop unit :=
  _u <~ index l i ; ret tt.

Definition append_result (block : string) : loop unit :=
  fun st => ({| all_results := all_results st ++ [block];
                failed_urls := failed_urls st;
                retry_urls := retry_urls st |}, inr tt).
Definition append_retry (u : string) : loop unit :=
  fun st => ({| all_results := all_results st;
                failed_urls := failed_urls st;
                retry_urls := retry_urls st ++ [u] |}, inr tt).
Definition append_failed (u : string) : loop unit :=
  fun st => ({| all_results := all_results st;
                failed_urls := failed_urls st ++ [u];
                retry_urls := retry_urls st |}, inr tt).

(** [result.markdown.fit_markdown + '\n\n'] *)
Definition plus_nlnl (fit : option string) : loop string :=
  match fit with
  | Some s => ret (s ++ nlnl)
  | None => raise TypeError
  end.

(** The body of the [try] of either loop.  [src] is the list indexed by the
    loop ([urls], then [retry_urls]) and [put] the append that records a
    rejected URL ([retry_urls.append], then [failed_urls.append]). *)
Definition inspect (src : list string) (put : string -> loop unit)
    (i : nat) (result : outcome) : loop unit :=
  let reject := log_with src i ;> (u <~ index src i ; put u) in
  match result with
  | None => reject                                  (* result is None *)
  | Some r =>
      match success r with
      | None => reject                              (* not hasattr(result, 'success') *)
      | Some true =>
          match markdown r with
          | None => reject                          (* not hasattr(result, 'markdown') *)
          | Some m =>
              match fit_markdown m with
              | None => reject                      (* not hasattr(result.markdown, 'fit_markdown') *)
              | Some fit =>
                  result_with_source <~ plus_nlnl fit ;
                  append_result result_with_source ;>
                  log_with src i
              end
          end
      | Some false => reject                        (* else: *)
      end
  end.

(** One iteration: the [try] and its [except Exception as e]. *)
Definition iteration (src : list string) (put : string -> loop unit)
    (i : nat) (result : outcome) : loop unit :=
  try_loop (inspect src put i result)
           (fun _e => (u <~ index src i ; put u) ;> log_with src i).

(** [for i, result in enumerate(results): ...] *)
Fixpoint for_enumerate (body : nat -> outcome -> loop unit) (i : nat)
    (results : list outcome) : loop unit :=
  match results with
  | [] => ret tt
  | result :: rest => body i result ;> for_enumerate body (S i) rest
  end.

(** The first loop indexes [urls] and fills [retry_urls]. *)
Definition first_pass (urls : list string) (results : list outcome) : loop unit :=
  for_enumerate (iteration urls append_retry) 0 results.

(** The second loop indexes [retry_urls], which it does not change, and
    fills [failed_urls]. *)
Definition second_pass (retry_results : list outcome) : loop unit :=
  fun st => for_enumerate (iteration (retry_urls st) append_failed) 0 retry_results st.

(** Run a loop inside a program: its exception becomes the program's. *)
Definition exec (m : loop unit) (st : lists) : prog lists :=
  match m st with
  | (st', inr _) => Ret st'
  | (_, inl e) => Raise e
  end.

(** ['\n\n==========\n\n'] *)
Definition separator : string := nlnl ++ "==========" ++ nlnl.

(** "all URL crawls failed", the detail of the HTTPException raised when
    [all_results] is empty. *)
Definition all_failed_detail : string := "所有URL爬取均失败".

Section CrawlUrls.

Variable markdown_markdown : string -> string.
Variable get_text : string -> string.

(** From [if not all_results:] to [return response]. *)
Definition build_response (st : lists) : prog Response.t :=
  match all_results st with
  | [] => Raise (HTTPException 500 (Text all_failed_detail))
  | _ :: _ =>
      let combined_content := join separator (all_results st) in
      let plain_text :=
        markdown_to_text_regex
          (markdown_to_text markdown_markdown get_text combined_content) in
      Ret {| Response.content := plain_text;
             Response.success_count := List.length (all_results st);
             Response.failed_urls := failed_urls st |}
  end.

(** From the first [arun_many] to the end of the retry block. *)
Definition fetch (urls : list string) : prog lists :=
  results <- await (ArunMany urls) ;;
  st <- exec (first_pass urls results) no_lists ;;
  match retry_urls st with
  | [] => Ret st
  | _ :: _ =>
      retry_results <- await (ArunMany (retry_urls st)) ;;
      exec (second_pass retry_results) st
  end.

(** [WebCrawler.crawl_urls(self, urls, instruction)]; [self_crawler] is
    the truth value of [self.crawler] on entry. *)
Definition crawl_urls (self_crawler : bool) (urls : list string)
    (instruction : string) : prog Response.t :=
  try_except
    ((if self_crawler then Ret tt else await Initialize) ;;;
     st <- fetch urls ;;
     build_response st)
    (fun e => Raise (HTTPException 500 (Str e))).

End CrawlUrls.

End Crawler.

(* ================================================================== *)
(** ** [main.py]: the [crawl] and [search] entry points *)

Module Main.
Import PyStr Py Crawler.

(** [SearchRequest]; [limit] is a plain [int], of either sign. *)
Record SearchRequest : Type := {
  query : string;
  limit : Z;
  disabled_engines : string;
  enabled_engines : string
}.

(** [CrawlRequest] *)
Record CrawlRequest : Type := {
  urls : list string;
  instruction : string
}.

(** [l[:n]]: a negative [n] counts from the end. *)
Definition slice_to {A} (l : list A) (n : Z) : list A :=
  let stop := if (n <? 0)%Z then Z.max 0 (Z.of_nat (List.length l) + n) else n in
  firstn (Z.to_nat stop) l.

(** [[result["url"] for result in results if "url" in result]] *)
Fixpoint urls_of (results : list SearchResult) : list string :=
  match results with
  | [] => []
  | result :: rest =>
      match url result with
      | Some u => u :: urls_of rest
      | None => urls_of rest
      end
  end.

(** "no search results found" and "no valid URL found", the details of the
    two 404 answers of [search]; "search request failed: ", the prefix that
    [make_searxng_request] puts before the text of a failure. *)
Definition no_results_detail : string := "未找到搜索结果".
Definition no_valid_urls_detail : string := "未找到有效的URL".
Definition request_failed_prefix : string := "搜索请求失败: ".

(** [WebCrawler.make_searxng_request]: the exchange with SearXNG inside a
    [try] whose handler raises a fresh [Exception].  [limit] is accepted
    and not sent. *)
Definition make_searxng_request (query : string) (limit : Z)
    (disabled_engines enabled_engines : string) : prog SearxngResponse :=
  try_except
    (await (SearxngPost query disabled_engines enabled_engines))
    (fun e => Raise (Exception_ (Fmt request_failed_prefix (Str e)))).

Section EntryPoints.

Variable markdown_markdown : string -> string.
Variable get_text : string -> string.

(** The truth value of [crawler.crawler] of the global [crawler], which
    [startup_event] creates and initialises. *)
Variable self_crawler : bool.

(** [crawl(request)] *)
Definition crawl (request : CrawlRequest) : prog Response.t :=
  crawl_urls markdown_markdown get_text self_crawler
             (urls request) (instruction request).

(** [search(request)]: an [HTTPException] passes through the outer
    handlers unchanged, any other exception becomes a 500. *)
Definition search (request : SearchRequest) : prog Response.t :=
  try_except
    (response <- make_searxng_request (query request) (limit request)
                   (disabled_engines request) (enabled_engines request) ;;
     (* results = response.get("results", []) *)
     let results := match Py.results response with
                    | Some l => l
                    | None => []
                    end in
     match results with
     | [] => Raise (HTTPException 404 (Text no_results_detail))
     | _ :: _ =>
         let urls := urls_of (slice_to results (limit request)) in
         match urls with
         | [] => Raise (HTTPException 404 (Text no_valid_urls_detail))
         | _ :: _ =>
             crawl {| urls := urls; instruction := query request |}
         end
     end)
    (fun e => match e with
              | HTTPException _ _ => Raise e
              | _ => Raise (HTTPException 500 (Str e))
              end).

End EntryPoints.

End Main.

(* ================================================================== *)
(** ** A reference rendering for plain documents

    What the two library calls of [markdown_to_text] return on a document
    in which python-markdown finds nothing but paragraphs of literal text
    (no markdown construct, no HTML, no indented line): every run of
    non-blank lines is wrapped in [<p>...</p>], with a newline between
    the elements, and [get_text] joins the text nodes of that HTML with
    the separator.  It serves to run the pipeline on concrete inputs; no
    theorem about all documents depends on it. *)

Module PlainDocs.
Import PyStr.

Definition blank (line : string) : bool := negb (truthy (strip line)).

(** The runs of non-blank lines; [cur] holds the current run, reversed. *)
Fixpoint paragraphs (cur : list string) (lines : list string) : list (list string) :=
  match lines with
  | [] => match cur with [] => [] | _ :: _ => [rev cur] end
  | l :: rest =>
      if blank l then
        match cur with
        | [] => paragraphs [] rest
        | _ :: _ => rev cur :: paragraphs [] rest
        end
      else paragraphs (l :: cur) rest
  end.

Definition markdown_markdown (text : string) : string :=
  join nl (map (fun p => "<p>" ++ lstrip (join nl p) ++ "</p>")
               (paragraphs [] (split_lines text))).

(** The text nodes of an HTML string without entities or comments. *)
Fixpoint text_nodes (in_tag : bool) (cur : string) (html : string) : list string :=
  match html with
  | EmptyString => if truthy cur then [cur] else []
  | String c rest =>
      if in_tag then text_nodes (negb (Ascii.eqb c ">")) EmptyString rest
      else if Ascii.eqb c "<" then
        if truthy cur then cur :: text_nodes true EmptyString rest
        else text_nodes true EmptyString rest
      else text_nodes false (cur ++ String c EmptyString) rest
  end.

Definition get_text (html : string) : string :=
  join nl (text_nodes false EmptyString html).

End PlainDocs.

(* ================================================================== *)
(** ** Vocabulary of the specification, read off the code *)

Module Spec.
Import PyStr Py Crawler.
Local Open Scope list_scope.

(** The disposition of one outcome (spec 4.1).  [crawl_urls] has no third
    disposition: what is not usable is appended to [retry_urls] by the first
    loop and to [failed_urls] by the second. *)
Inductive disposition : Type :=
| Usable (block : string)
| RetryCandidate.

(** The branch that [inspect] and its handler take when the index is in
    range: a block is appended only for a true [success], a present
    [markdown], a present [fit_markdown] and a [str] in it. *)
Definition classify (result : outcome) : disposition :=
  match result with
  | Some r =>
      match success r, markdown r with
      | Some true, Some m =>
          match fit_markdown m with
          | Some (Some s) => Usable (s ++ nlnl)
          | _ => RetryCandidate
          end
      | _, _ => RetryCandidate
      end
  | None => RetryCandidate
  end.

Definition usable (result : outcome) : bool :=
  match classify result with Usable _ => true | RetryCandidate => false end.

(** The blocks of the usable outcomes, in order. *)
Fixpoint blocks (results : list outcome) : list string :=
  match results with
  | [] => []
  | r :: rest =>
      match classify r with
      | Usable b => b :: blocks rest
      | RetryCandidate => blocks rest
      end
  end.

(** The URLs whose outcome (at the same position) is not usable, in order. *)
Fixpoint rejected (urls : list string) (results : list outcome) : list string :=
  match urls, results with
  | u :: urls', r :: rest =>
      if usable r then rejected urls' rest else u :: rejected urls' rest
  | _, _ => []
  end.

(** The URLs whose outcome (at the same position) is usable, in order. *)
Fixpoint accepted (urls : list string) (results : list outcome) : list string :=
  match urls, results with
  | u :: urls', r :: rest =>
      if usable r then u :: accepted urls' rest else accepted urls' rest
  | _, _ => []
  end.

(** The errors of spec section 7, as the code raises them. *)
Definition AllFetchesFailedError : exn :=
  HTTPException 500 (Text all_failed_detail).
Definition NoResultsError : exn :=
  HTTPException 404 (Text Main.no_results_detail).
Definition NoValidUrlsError : exn :=
  HTTPException 404 (Text Main.no_valid_urls_detail).

(** An append that cannot raise. *)
Definition total_put (put : string -> loop unit) : Prop :=
  forall u st, snd (put u st) = inr tt.

(** Every run of [fetch], whatever the engine answers: one call, or two
    when the first loop ended with a non-empty [retry_urls]. *)
Inductive fetch_run (w : world) (tr : list event) (urls : list string)
  : list event * (exn + lists) -> Prop :=
| engine_failed e :
    arun_many_reply w (List.length (engine_calls tr)) urls = inl e ->
    fetch_run w tr urls (tr ++ [EvArunMany urls], inl e)
| first_overrun rs1 :
    arun_many_reply w (List.length (engine_calls tr)) urls = inr rs1 ->
    List.length urls < List.length rs1 ->
    fetch_run w tr urls (tr ++ [EvArunMany urls], inl IndexError)
| no_retry rs1 :
    arun_many_reply w (List.length (engine_calls tr)) urls = inr rs1 ->
    List.length rs1 <= List.length urls ->
    rejected urls rs1 = [] ->
    fetch_run w tr urls
      (tr ++ [EvArunMany urls],
       inr {| all_results := blocks rs1; failed_urls := []; retry_urls := [] |})
| retry_failed rs1 e :
    arun_many_reply w (List.length (engine_calls tr)) urls = inr rs1 ->
    List.length rs1 <= List.length urls ->
    rejected urls rs1 <> [] ->
    arun_many_reply w (S (List.length (engine_calls tr))) (rejected urls rs1) = inl e ->
    fetch_run w tr urls
      (tr ++ [EvArunMany urls; EvArunMany (rejected urls rs1)], inl e)
| retry_overrun rs1 rs2 :
    arun_many_reply w (List.length (engine_calls tr)) urls = inr rs1 ->
    List.length rs1 <= List.length urls ->
    rejected urls rs1 <> [] ->
    arun_many_reply w (S (List.length (engine_calls tr))) (rejected urls rs1) = inr rs2 ->
    List.length (rejected urls rs1) < List.length rs2 ->
    fetch_run w tr urls
      (tr ++ [EvArunMany urls; EvArunMany (rejected urls rs1)], inl IndexError)
| retried rs1 rs2 :
    arun_many_reply w (List.length (engine_calls tr)) urls = inr rs1 ->
    List.length rs1 <= List.length urls ->
    rejected urls rs1 <> [] ->
    arun_many_reply w (S (List.length (engine_calls tr))) (rejected urls rs1) = inr rs2 ->
    List.length rs2 <= List.length (rejected urls rs1) ->
    fetch_run w tr urls
      (tr ++ [EvArunMany urls; EvArunMany (rejected urls rs1)],
       inr {| all_results := blocks rs1 ++ blocks rs2;
              failed_urls := rejected (rejected urls rs1) rs2;
              retry_urls := rejected urls rs1 |}).

(** The trace with which [crawl_urls] reaches [fetch]. *)
Definition entry_trace (self_crawler : bool) : list event :=
  if self_crawler then [] else [EvInitialize].

(** The engine contract of the specification: one outcome per input URL,
    on every pass. *)
Definition one_outcome_per_url (w : world) : Prop :=
  forall n urls, exists rs,
    arun_many_reply w n urls = inr rs /\ List.length rs = List.length urls.

(** The dict that [crawl_urls] returns from the final lists. *)
Definition response_of (markdown_markdown get_text : string -> string)
    (st : lists) : Response.t :=
  {| Response.content :=
       Normalizer.normalize markdown_markdown get_text
         (join separator (all_results st));
     Response.success_count := List.length (all_results st);
     Response.failed_urls := failed_urls st |}.

(** What the caller of [crawl_urls] gets from the outcome of [fetch]. *)
Definition crawl_result (markdown_markdown get_text : string -> string)
    (r : list event * (exn + lists)) : list event * (exn + Response.t) :=
  match r with
  | (tr, inl e) => (tr, inl (HTTPException 500 (Str e)))
  | (tr, inr st) =>
      match all_results st with
      | [] => (tr, inl (HTTPException 500 (Str AllFetchesFailedError)))
      | _ :: _ => (tr, inr (response_of markdown_markdown get_text st))
      end
  end.

(** The lists after both passes, from the two answers of the engine. *)
Definition merged (urls : list string) (rs1 rs2 : list outcome) : lists :=
  {| all_results := blocks rs1 ++ blocks rs2;
     failed_urls := rejected (rejected urls rs1) rs2;
     retry_urls := rejected urls rs1 |}.

(** The engine answers [rs1] on the first pass and, when there is a second
    pass, [rs2] on it, with no more outcomes than URLs; without a second
    pass [rs2] is empty. *)
Definition passes (w : world) (urls : list string) (rs1 rs2 : list outcome) : Prop :=
  arun_many_reply w 0 urls = inr rs1
  /\ List.length rs1 <= List.length urls
  /\ match rejected urls rs1 with
     | [] => rs2 = []
     | retry =>
         arun_many_reply w 1 retry = inr rs2
         /\ List.length rs2 <= List.length retry
     end.

(** The [arun_many] calls made for a batch: one, or two with a retry. *)
Definition expected_calls (urls : list string) (rs1 : list outcome)
  : list (list string) :=
  match rejected urls rs1 with
  | [] => [urls]
  | retry => [urls; retry]
  end.

(** The content field of a successful outcome is absent: there is no
    [markdown], or no [fit_markdown] in it, or [fit_markdown] is [None]. *)
Definition content_absent (r : CrawlResult) : bool :=
  match markdown r with
  | None => true
  | Some m =>
      match fit_markdown m with
      | None | Some None => true
      | Some (Some _) => false
      end
  end.

(** The exchange with SearXNG that [search] starts with. *)
Definition post_of (req : Main.SearchRequest) : event :=
  EvSearxngPost (Main.query req) (Main.disabled_engines req) (Main.enabled_engines req).

(** [response.get("results", [])] *)
Definition listed (response : SearxngResponse) : list SearchResult :=
  match results response with
  | Some l => l
  | None => []
  end.

(** The patterns of the second stage, and whether one of them matches
    somewhere in a text: the text still holds a markup token. *)
Definition stage2_patterns : list Re.regex :=
  [ Normalizer.re_heading; Normalizer.re_link; Normalizer.re_strong;
    Normalizer.re_emph; Normalizer.re_bullet; Normalizer.re_fence;
    Normalizer.re_code; Normalizer.re_quote ].

Definition has_token (s : string) : bool :=
  existsb (fun r => Re.found r s) stage2_patterns.

(** A sufficient condition on the characters: none of [#], [[], [*], [_]
    and the backtick anywhere, and none of [-], [+], [>] at the start of
    a line. *)
Definition marker (c : ascii) : bool :=
  Normalizer.is_char "#" c || Normalizer.is_char "[" c || Normalizer.is_char "*" c
  || Normalizer.is_char "_" c || Normalizer.is_char "`" c.

Definition line_marker (c : ascii) : bool :=
  Normalizer.is_char "-" c || Normalizer.is_char "+" c || Normalizer.is_char ">" c.

Definition at_line_start (prev : option ascii) : bool :=
  match prev with
  | None => true
  | Some p => Ascii.eqb p LF
  end.

Fixpoint marker_free_from (prev : option ascii) (s : string) : bool :=
  match s with
  | EmptyString => true
  | String c s' =>
      negb (marker c) && negb (at_line_start prev && line_marker c)
      && marker_free_from (Some c) s'
  end.

Definition marker_free (s : string) : bool := marker_free_from None s.

(** A world whose crawler is usable when [crawl_urls] needs it. *)
Definition crawler_ready (self_crawler : bool) (w : world) : Prop :=
  self_crawler = true \/ initialize_reply w = inr tt.

End Spec.

(* ================================================================== *)
(** ** Concrete outcomes, worlds and requests *)

Module Examples.
Import PyStr Py Crawler Spec.
Local Open Scope list_scope.

(** A successful outcome whose [fit_markdown] is [s]. *)
Definition rendered (s : string) : outcome :=
  Some {| success := Some true;
          markdown := Some {| fit_markdown := Some (Some s) |} |}.

(** [success] is false. *)
Definition unsuccessful : outcome :=
  Some {| success := Some false; markdown := None |}.

(** [success] is true and [fit_markdown] is the empty string. *)
Definition empty_content : CrawlResult :=
  {| success := Some true;
     markdown := Some {| fit_markdown := Some (Some EmptyString) |} |}.

(** [success] is true and [fit_markdown] is [None]. *)
Definition none_content : CrawlResult :=
  {| success := Some true;
     markdown := Some {| fit_markdown := Some None |} |}.

Definition url_a : string := "https://a.example".
Definition url_b : string := "https://b.example".
Definition url_c : string := "https://c.example".
Definition url_d : string := "https://d.example".
Definition url_e : string := "https://e.example".

(** A SearXNG that finds nothing. *)
Definition no_search : string -> string -> string -> exn + SearxngResponse :=
  fun _ _ _ => inr {| results := Some [] |}.

(** An engine that answers the first call with [rs1] and later ones with
    [rs2], whatever the URLs. *)
Definition scripted (rs1 rs2 : list outcome) : world :=
  {| initialize_reply := inr tt;
     arun_many_reply := fun n _ => match n with 0 => inr rs1 | S _ => inr rs2 end;
     searxng_reply := no_search |}.

(** An engine that returns one outcome per URL: on the first pass a page
    for every URL but [url_a], on the retry no page at all. *)
Definition per_url : world :=
  {| initialize_reply := inr tt;
     arun_many_reply := fun n urls =>
       inr (map (fun u => match n with
                          | 0 => if String.eqb u url_a then unsuccessful
                                 else rendered ("page " ++ u)
                          | S _ => None
                          end) urls);
     searxng_reply := no_search |}.

(** An engine that returns one outcome per URL and renders nothing but the
    first URL of the first call: the outcome depends on the position in
    the list, not on the URL. *)
Definition first_position_only : world :=
  {| initialize_reply := inr tt;
     arun_many_reply := fun n urls =>
       inr (match n, urls with
            | 0, u :: rest =>
                rendered ("page " ++ u) :: map (fun _ => unsuccessful) rest
            | _, _ => map (fun _ => None) urls
            end);
     searxng_reply := no_search |}.

(** A SearXNG that returns the given records, over an engine that renders
    every URL. *)
Definition searching (records : option (list SearchResult)) : world :=
  {| initialize_reply := inr tt;
     arun_many_reply := fun _ urls => inr (map (fun u => rendered ("page " ++ u)) urls);
     searxng_reply := fun _ _ _ => inr {| results := records |} |}.

Definition request (n : Z) : Main.SearchRequest :=
  {| Main.query := "test"; Main.limit := n;
     Main.disabled_engines := ""; Main.enabled_engines := "" |}.

(** The content of the blocks ["A"] and ["B"] after the join and the
    normaliser: three lines. *)
Definition a_sep_b : string := "A" ++ nl ++ "==========" ++ nl ++ "B".

(** The text nodes of [<p>A</p>], [<p>==========</p>] and [<p>B</p>] and of
    the newlines between the elements, joined by newlines. *)
Definition a_sep_b_text : string :=
  "A" ++ nl ++ nl ++ nl ++ "==========" ++ nl ++ nl ++ nl ++ "B".

(** Three lines, the middle one a pair of backticks with nothing between
    them (no code span for python-markdown, which keeps it as text). *)
Definition empty_code_sample : string := "a" ++ nl ++ "``" ++ nl ++ "c".

(** A plain document with blank lines and spaces at line ends. *)
Definition plain_sample : string :=
  "  hello world  " ++ nl ++ nl ++ nl ++ "second line - as is" ++ nl.

(** The markup-cleanup scenario of the specification. *)
Definition markup_sample : string :=
  "# Title" ++ nl ++ "**bold** and [link](http://x) and `code`".

End Examples.

(* ================================================================== *)
(** ** Further notions used to state what the code keeps *)

Module Notions.
Import PyStr Py Crawler Spec.
Local Open Scope list_scope.

(** [l1] is [l2] with some elements left out, the order kept. *)
Inductive subseq {A : Type} : list A -> list A -> Prop :=
| subseq_nil : subseq [] []
| subseq_skip x l1 l2 : subseq l1 l2 -> subseq l1 (x :: l2)
| subseq_keep x l1 l2 : subseq l1 l2 -> subseq (x :: l1) (x :: l2).

(** Every character of a text satisfies [p]. *)
Fixpoint all_chars (p : ascii -> bool) (s : string) : bool :=
  match s with
  | EmptyString => true
  | String c s' => p c && all_chars p s'
  end.

(** An engine whose first answer is [rs1] and whose retry fails with [e]. *)
Definition retry_fails (rs1 : list outcome) (e : exn) : world :=
  {| initialize_reply := inr tt;
     arun_many_reply := fun n _ => match n with 0 => inr rs1 | S _ => inl e end;
     searxng_reply := Examples.no_search |}.

(** An engine that fails on every call with [e]. *)
Definition engine_down (e : exn) : world :=
  {| initialize_reply := inr tt;
     arun_many_reply := fun _ _ => inl e;
     searxng_reply := Examples.no_search |}.

(** A SearXNG that cannot be reached. *)
Definition unreachable (e : exn) : world :=
  {| initialize_reply := inr tt;
     arun_many_reply := fun _ urls => inr (map (fun _ => Examples.unsuccessful) urls);
     searxng_reply := fun _ _ _ => inl e |}.

(** A connection failure, as an exception of the HTTP client. *)
Definition refused : exn := Exception_ (Text "Connection refused").

End Notions.

(* ================================================================== *)
(** ** Exceptions outside [Exception]

    [Py.exn] holds instances of [Exception], the class that the handlers
    of the source name, and [Py.try_except] catches all of them.  Python
    has exceptions outside that class, which [except Exception] lets
    through: [asyncio.CancelledError], raised at an [await] when the task
    is cancelled while it waits, [KeyboardInterrupt], [SystemExit].  Here
    the coroutines of [crawler.py] and [main.py] are embedded a second
    time, over both kinds, with collaborators that can raise either.  The
    two loops and the normalisers make no call and are the ones of
    [Crawler] and [Normalizer]. *)

Module BaseExceptions.
Import PyStr Py Normalizer Crawler.
Local Open Scope list_scope.

(** What a coroutine can raise. *)
Inductive raised : Type :=
| Exc (e : exn)              (* an instance of Exception *)
| BaseOnly (cls : string).   (* an instance of the class [cls], which is
                                outside Exception *)

Definition CancelledError : raised := BaseOnly "CancelledError".

(** A coroutine: returns, raises, or performs a call and goes on with the
    answer. *)
Inductive coro (A : Type) : Type :=
| Return (a : A)
| Throw (b : raised)
| Call {X : Type} (c : call X) (k : raised + X -> coro A).

Arguments Return {A} a.
Arguments Throw {A} b.
Arguments Call {A X} c k.

Fixpoint bind {A B} (p : coro A) (f : A -> coro B) : coro B :=
  match p with
  | Return a => f a
  | Throw b => Throw b
  | Call c k => Call c (fun r => bind (k r) f)
  end.

(** [try: p  except Exception as e: h e]: what is outside [Exception] is
    not caught. *)
Fixpoint try_except {A} (p : coro A) (h : exn -> coro A) : coro A :=
  match p with
  | Return a => Return a
  | Throw (Exc e) => h e
  | Throw (BaseOnly cls) => Throw (BaseOnly cls)
  | Call c k => Call c (fun r => try_except (k r) h)
  end.

(** [await callee(...)], or a plain call: what the callee raises is raised
    here. *)
Definition await {X} (c : call X) : coro X :=
  Call c (fun r => match r with inl b => Throw b | inr x => Return x end).

Declare Scope coro_scope.
Notation "x <- p ;; q" := (bind p (fun x => q))
  (at level 61, p at next level, right associativity) : coro_scope.
Notation "p ;;; q" := (bind p (fun _ => q))
  (at level 61, right associativity) : coro_scope.
Local Open Scope coro_scope.

(** The collaborators, each of which can raise either kind. *)
Record world : Type := {
  initialize_reply : raised + unit;
  arun_many_reply : nat -> list string -> raised + list outcome;
  searxng_reply : string -> string -> string -> raised + SearxngResponse
}.

Definition answer (w : world) (tr : list event) {X} (c : call X) : raised + X :=
  match c in call T return raised + T with
  | Initialize => initialize_reply w
  | ArunMany urls => arun_many_reply w (List.length (engine_calls tr)) urls
  | SearxngPost q d e => searxng_reply w q d e
  end.

Fixpoint run_from {A} (w : world) (tr : list event) (p : coro A)
  : list event * (raised + A) :=
  match p with
  | Return a => (tr, inr a)
  | Throw b => (tr, inl b)
  | Call c k => run_from w (tr ++ [event_of c]) (k (answer w tr c))
  end.

Definition run {A} (w : world) (p : coro A) : list event * (raised + A) :=
  run_from w [] p.

(** Run a loop inside a coroutine. *)
Definition exec (m : loop unit) (st : lists) : coro lists :=
  match m st with
  | (st', inr _) => Return st'
  | (_, inl e) => Throw (Exc e)
  end.

Section Coroutines.

Variable markdown_markdown : string -> string.
Variable get_text : string -> string.

(** From [if not all_results:] to [return response]. *)
Definition build_response (st : lists) : coro Response.t :=
  match all_results st with
  | [] => Throw (Exc (HTTPException 500 (Text all_failed_detail)))
  | _ :: _ =>
      let combined_content := join separator (all_results st) in
      let plain_text :=
        markdown_to_text_regex
          (markdown_to_text markdown_markdown get_text combined_content) in
      Return {| Response.content := plain_text;
                Response.success_count := List.length (all_results st);
                Response.failed_urls := failed_urls st |}
  end.

(** From the first [arun_many] to the end of the retry block. *)
Definition fetch (urls : list string) : coro lists :=
  results <- await (ArunMany urls) ;;
  st <- exec (first_pass urls results) no_lists ;;
  match retry_urls st with
  | [] => Return st
  | _ :: _ =>
      retry_results <- await (ArunMany (retry_urls st)) ;;
      exec (second_pass retry_results) st
  end.

(** [WebCrawler.crawl_urls(self, urls, instruction)] *)
Definition crawl_urls (self_crawler : bool) (urls : list string)
    (instruction : string) : coro Response.t :=
  try_except
    ((if self_crawler then Return tt else await Initialize) ;;;
     st <- fetch urls ;;
     build_response st)
    (fun e => Throw (Exc (HTTPException 500 (Str e)))).

(** [WebCrawler.make_searxng_request] *)
Definition make_searxng_request (query : string) (limit : Z)
    (disabled_engines enabled_engines : string) : coro SearxngResponse :=
  try_except
    (await (SearxngPost query disabled_engines enabled_engines))
    (fun e => Throw (Exc (Exception_ (Fmt Main.request_failed_prefix (Str e))))).

Variable self_crawler : bool.

(** [crawl(request)] *)
Definition crawl (request : Main.CrawlRequest) : coro Response.t :=
  crawl_urls self_crawler (Main.urls request) (Main.instruction request).

(** [search(request)] *)
Definition search (request : Main.SearchRequest) : coro Response.t :=
  try_except
    (response <- make_searxng_request (Main.query request) (Main.limit request)
                   (Main.disabled_engines request) (Main.enabled_engines request) ;;
     let results := match Py.results response with
                    | Some l => l
                    | None => []
                    end in
     match results with
     | [] => Throw (Exc (HTTPException 404 (Text Main.no_results_detail)))
     | _ :: _ =>
         let urls := Main.urls_of (Main.slice_to results (Main.limit request)) in
         match urls with
         | [] => Throw (Exc (HTTPException 404 (Text Main.no_valid_urls_detail)))
         | _ :: _ =>
             crawl {| Main.urls := urls; Main.instruction := Main.query request |}
         end
     end)
    (fun e => match e with
              | HTTPException _ _ => Throw (Exc e)
              | _ => Throw (Exc (HTTPException 500 (Str e)))
              end).

End Coroutines.

(** An answer of a collaborator of [Py] as a coroutine receives it. *)
Definition of_exception {X} (r : exn + X) : raised + X :=
  match r with
  | inl e => inl (Exc e)
  | inr x => inr x
  end.

(** A world of [Py]: no collaborator raises anything outside
    [Exception]. *)
Definition plain (w : Py.world) : world :=
  {| initialize_reply := of_exception (Py.initialize_reply w);
     arun_many_reply := fun n urls => of_exception (Py.arun_many_reply w n urls);
     searxng_reply := fun q d e => of_exception (Py.searxng_reply w q d e) |}.

(** The same world with the task cancelled while it waits for the call
    number [n] of [arun_many]. *)
Definition cancelled_at (n : nat) (w : Py.world) : world :=
  {| initialize_reply := of_exception (Py.initialize_reply w);
     arun_many_reply := fun k urls =>
       if Nat.eqb k n then inl CancelledError
       else of_exception (Py.arun_many_reply w k urls);
     searxng_reply := fun q d e => of_exception (Py.searxng_reply w q d e) |}.

(** The outcome of a run of [Py] as the caller of the coroutine sees it. *)
Definition seen {A} (r : list event * (exn + A)) : list event * (raised + A) :=
  (fst r, of_exception (snd r)).

(** A program of [Py] and a coroutine that do the same on the answers that
    a world of [Py] can give. *)
Inductive matches {A : Type} : prog A -> coro A -> Prop :=
| matches_ret a : matches (Ret a) (Return a)
| matches_raise e : matches (Raise e) (Throw (Exc e))
| matches_vis {X} (c : call X) k k' :
    (forall r : exn + X, matches (k r) (k' (of_exception r))) ->
    matches (Vis c k) (Call c k').

(** Some call of the world is answered by raising [b]. *)
Definition delivers (w : world) (b : raised) : Prop :=
  initialize_reply w = inl b
  \/ (exists n urls, arun_many_reply w n urls = inl b)
  \/ (exists q d e, searxng_reply w q d e = inl b).

(** What leaves [crawl_urls] when [b] is raised under its outer handler. *)
Definition rewrapped (b : raised) : raised :=
  match b with
  | Exc e => Exc (HTTPException 500 (Str e))
  | BaseOnly cls => BaseOnly cls
  end.

(** A world whose crawler is usable when [crawl_urls] needs it. *)
Definition crawler_ready (self_crawler : bool) (w : world) : Prop :=
  self_crawler = true \/ initialize_reply w = inr tt.

End BaseExceptions.


(* ================================================================== *)
(** ** Properties of positions and captures during a match *)

Module Captured.
Import PyStr Re.
Local Open Scope list_scope.

(** Every captured group satisfies [P]. *)
Definition all_groups (P : string -> Prop) (caps : captures) : Prop :=
  forall n g, In (n, g) caps -> P g.

(** The rest of the subject and the groups hold characters in [p] only. *)
Definition chars_within (p : ascii -> bool) (s : string) (caps : captures) : Prop :=
  Notions.all_chars p s = true
  /\ all_groups (fun g => Notions.all_chars p g = true) caps.

(** The rest of the subject is within the last [total] characters, and a
    group is no longer than what lies before that rest. *)
Definition lengths_within (total : nat) (s : string) (caps : captures) : Prop :=
  String.length s <= total
  /\ all_groups (fun g => String.length g + String.length s <= total) caps.

(** The replacement templates of [markdown_to_text_regex]: nothing, or one
    group. *)
Definition one_group_at_most (tpl : list piece) : Prop :=
  tpl = [] \/ exists n, tpl = [Group n].

End Captured.


(* ================================================================== *)
(** ** The life cycle of the crawler: [WebCrawler.__init__], [initialize]
    and [close] of [crawler.py], [startup_event] and [shutdown_event] of
    [main.py] *)

Module Lifecycle.
Import Py.
Local Open Scope list_scope.

(** The object that [__aenter__] returns; like any object without
    [__bool__] or [__len__] it counts as true. *)
Definition handle : Type := nat.

(** A [WebCrawler] object: its field [self.crawler], [None] or a handle. *)
Record WebCrawler : Type := { crawler : option handle }.

(** Calls that leave the process. *)
Inductive syscall : Type -> Type :=
| PlaywrightInstall : syscall unit
    (* subprocess.run([sys.executable, "-m", "playwright", "install",
                       "chromium"], check=True) *)
| Aenter : syscall handle
    (* await AsyncWebCrawler(config=browser_config).__aenter__() *)
| Aexit (h : handle) : syscall unit.
    (* await self.crawler.__aexit__(None, None, None) *)

(** A procedure ends with a value; on the way it performs calls whose
    answer is a value or an exception.  The procedures below end with the
    state they leave and with [inr tt] or the exception they raise. *)
Inductive proc (A : Type) : Type :=
| Done (a : A)
| Do {X : Type} (c : syscall X) (k : exn + X -> proc A).

Arguments Done {A} a.
Arguments Do {A X} c k.

Fixpoint pmap {A B} (f : A -> B) (p : proc A) : proc B :=
  match p with
  | Done a => Done (f a)
  | Do c k => Do c (fun r => pmap f (k r))
  end.

(** [WebCrawler.__init__]: [self.crawler = None] *)
Definition WebCrawler_init : WebCrawler := {| crawler := None |}.

(** [WebCrawler.initialize]: the field is assigned only when [__aenter__]
    has returned. *)
Definition initialize (self : WebCrawler) : proc (WebCrawler * (exn + unit)) :=
  Do Aenter (fun r => match r with
                      | inl e => Done (self, inl e)
                      | inr h => Done ({| crawler := Some h |}, inr tt)
                      end).

(** [WebCrawler.close]: [__aexit__] is awaited when [self.crawler] is
    set; the field is not assigned. *)
Definition close (self : WebCrawler) : proc (WebCrawler * (exn + unit)) :=
  match crawler self with
  | Some h => Do (Aexit h) (fun r => Done (self, r))
  | None => Done (self, inr tt)
  end.

(** [startup_event], on the global [crawler]: the installation is checked
    first and its exception is raised again; then the global is bound to a
    new object, which is initialised. *)
Definition startup_event (global_crawler : option WebCrawler)
  : proc (option WebCrawler * (exn + unit)) :=
  Do PlaywrightInstall
     (fun r => match r with
               | inl e => Done (global_crawler, inl e)
               | inr _ =>
                   pmap (fun '(self, result) => (Some self, result))
                        (initialize WebCrawler_init)
               end).

(** [shutdown_event]: [if crawler: await crawler.close()] *)
Definition shutdown_event (global_crawler : option WebCrawler)
  : proc (option WebCrawler * (exn + unit)) :=
  match global_crawler with
  | Some self => pmap (fun '(self', result) => (Some self', result)) (close self)
  | None => Done (None, inr tt)
  end.

(** The truth value of [self.crawler], which [crawl_urls] tests. *)
Definition has_crawler (self : WebCrawler) : bool :=
  match crawler self with Some _ => true | None => false end.

(** The calls of a run, and the collaborators that answer them;
    [__aenter__] answers by the number of earlier [__aenter__] calls. *)
Inductive step : Type :=
| Installed
| Entered
| Exited (h : handle).

Definition step_of {X} (c : syscall X) : step :=
  match c with
  | PlaywrightInstall => Installed
  | Aenter => Entered
  | Aexit h => Exited h
  end.

Record system : Type := {
  install_reply : exn + unit;
  aenter_reply : nat -> exn + handle;
  aexit_reply : handle -> exn + unit
}.

Definition entered (tr : list step) : nat :=
  List.length (filter (fun s => match s with Entered => true | _ => false end) tr).

Definition reply (sys : system) (tr : list step) {X} (c : syscall X) : exn + X :=
  match c in syscall T return exn + T with
  | PlaywrightInstall => install_reply sys
  | Aenter => aenter_reply sys (entered tr)
  | Aexit h => aexit_reply sys h
  end.

Fixpoint perform {A} (sys : system) (tr : list step) (p : proc A) : list step * A :=
  match p with
  | Done a => (tr, a)
  | Do c k => perform sys (tr ++ [step_of c]) (k (reply sys tr c))
  end.

(** The handles closed in a trace, in order. *)
Fixpoint exits (tr : list step) : list handle :=
  match tr with
  | [] => []
  | Exited h :: rest => h :: exits rest
  | _ :: rest => exits rest
  end.

(** A system in which everything works, the browser being handle 7. *)
Definition healthy : system :=
  {| install_reply := inr tt;
     aenter_reply := fun _ => inr 7;
     aexit_reply := fun _ => inr tt |}.

(** A system whose browser cannot be started. *)
Definition no_browser (e : exn) : system :=
  {| install_reply := inr tt;
     aenter_reply := fun _ => inl e;
     aexit_reply := fun _ => inr tt |}.

End Lifecycle.

(* ================================================================== *)
(** ** [logger.py]: [setup_logger] *)

Module Logger.
Import PyStr Py.
Local Open Scope list_scope.

(** A [StreamHandler(sys.stdout)] with a [Formatter] for a format. *)
Record Handler : Type := { format : string }.

(** The logger ["sear-crawl4ai"]: its level and its handlers. *)
Record LoggerObj : Type := {
  level : Z;
  handlers : list Handler
}.

(** [DEFAULT_LOG_FORMAT] *)
Definition DEFAULT_LOG_FORMAT : string :=
  "%(asctime)s - %(name)s - %(levelname)s - %(message)s".

(** What [logging.getLogger] creates: level NOTSET, no handler. *)
Definition new_logger : LoggerObj := {| level := 0; handlers := [] |}.

Section SetupLogger.

(** The level that [logger.setLevel(getattr(logging, level.upper(),
    logging.INFO))] sets for a name, or the exception it raises; and the
    exception, if any, that [logging.Formatter] raises for a format.  Both
    belong to the [logging] library. *)
Variable level_for : string -> exn + Z.
Variable formatter_error : string -> option exn.

(** [setup_logger(level, log_format)] on the module's logger; the state
    it leaves, and [inr tt] or the exception it raises. *)
Definition setup_logger (level_name : string) (log_format : option string)
    (logger : LoggerObj) : LoggerObj * (exn + unit) :=
  match level_for level_name with
  | inl e => (logger, inl e)
  | inr numeric_level =>
      let logger := {| level := numeric_level; handlers := handlers logger |} in
      match handlers logger with
      | _ :: _ => (logger, inr tt)                     (* if not logger.handlers: *)
      | [] =>
          (* log_format or DEFAULT_LOG_FORMAT *)
          let fmt := match log_format with
                     | Some f => if truthy f then f else DEFAULT_LOG_FORMAT
                     | None => DEFAULT_LOG_FORMAT
                     end in
          match formatter_error fmt with
          | Some e => (logger, inl e)
          | None =>
              ({| level := numeric_level; handlers := [ {| format := fmt |} ] |},
               inr tt)
          end
      end
  end.

(** A series of calls, failed ones included, each on the state that the
    one before left. *)
Definition setup_all (calls : list (string * option string)) (logger : LoggerObj)
  : LoggerObj :=
  fold_left (fun lg call => fst (setup_logger (fst call) (snd call) lg)) calls logger.

(** The logger as the import of [logger.py] leaves it: the module calls
    [setup_logger()] once, with ["INFO"] and no format. *)
Definition imported : LoggerObj := fst (setup_logger "INFO" None new_logger).

End SetupLogger.

(** A stand-in for the library in worked examples: the five level names
    of the docstring, given in upper case, with their numbers, and the
    number of INFO for anything else. *)
Definition standard_level (name : string) : exn + Z :=
  inr (if String.eqb name "DEBUG" then 10
       else if String.eqb name "WARNING" then 30
       else if String.eqb name "ERROR" then 40
       else if String.eqb name "CRITICAL" then 50
       else 20)%Z.

End Logger.


(* ================================================================== *)
(** ** The two loops *)

Module LoopFacts.
Import PyStr Py Crawler Spec.

Lemma append_retry_total : total_put append_retry.
Proof. intros u st; reflexivity. Qed.

Lemma append_failed_total : total_put append_failed.
Proof. intros u st; reflexivity. Qed.

(** With the index in range an iteration does what [classify] says: it
    appends the block, or records the URL. *)
Lemma iteration_in_range src put i u result st :
  total_put put ->
  nth_error src i = Some u ->
  iteration src put i result st =
    match classify result with
    | Usable b => append_result b st
    | RetryCandidate => put u st
    end.
Proof.
  intros Hput Hi.
  assert (Hrej : try_loop (log_with src i ;> (v <~ index src i ; put v))
                   (fun _ => (v <~ index src i ; put v) ;> log_with src i) st
                 = put u st).
  { unfold try_loop, then_, log_with, index, then_; rewrite Hi; cbn.
    specialize (Hput u st); destruct (put u st) as [st' [e|[]]]; cbn in *;
      [discriminate | reflexivity]. }
  unfold iteration, inspect, classify.
  destruct result as [[[[|]|] [[[[fit|]|]]|]]|]; cbn [success markdown fit_markdown];
    try exact Hrej.
  - unfold try_loop, then_, log_with, index, then_, plus_nlnl; rewrite Hi; reflexivity.
  - unfold try_loop, then_, log_with, index, then_, plus_nlnl; cbn; rewrite Hi; cbn.
    specialize (Hput u st); destruct (put u st) as [st' [e|[]]]; cbn in *;
      [discriminate | reflexivity].
Qed.

(** With the index out of range every path reads [src[i]] and the handler
    reads it again: the iteration raises [IndexError]. *)
Lemma iteration_out_of_range src put i result st :
  nth_error src i = None ->
  snd (iteration src put i result st) = inl IndexError.
Proof.
  intros Hi.
  unfold iteration, inspect.
  destruct result as [[[[|]|] [[[[fit|]|]]|]]|]; cbn [success markdown fit_markdown];
    unfold try_loop, then_, log_with, index, then_, plus_nlnl, append_result;
    rewrite ?Hi; cbn; rewrite ?Hi; reflexivity.
Qed.

Lemma nth_error_skipn_cons {A} (l : list A) i :
  i < List.length l ->
  exists u, nth_error l i = Some u /\ skipn i l = u :: skipn (S i) l.
Proof.
  revert l; induction i as [|i IH]; intros [|a l] Hlt; cbn in *; try lia.
  - exists a; split; reflexivity.
  - destruct (IH l) as [u [H1 H2]]; [lia|]. exists u; split; assumption.
Qed.

(** The first loop, when there are no more outcomes than URLs left. *)
Lemma first_loop_in_range results : forall urls i st,
  List.length results + i <= List.length urls ->
  for_enumerate (iteration urls append_retry) i results st =
    ({| all_results := all_results st ++ blocks results;
        failed_urls := failed_urls st;
        retry_urls := retry_urls st ++ rejected (skipn i urls) results |},
     inr tt).
Proof.
  induction results as [|r rest IH]; intros urls i st Hlen; cbn [for_enumerate].
  - cbn. rewrite !app_nil_r.
    replace (rejected (skipn i urls) []) with (@nil string)
      by (destruct (skipn i urls); reflexivity).
    rewrite app_nil_r. destruct st; reflexivity.
  - cbn [List.length] in Hlen.
    destruct (nth_error_skipn_cons urls i) as [u [Hu Hs]]; [lia|].
    unfold then_ at 1.
    rewrite (iteration_in_range urls append_retry i u r st append_retry_total Hu).
    rewrite Hs. cbn [blocks rejected]. unfold usable.
    destruct (classify r) as [b|]; cbn [append_result append_retry];
      rewrite IH by lia; cbn; rewrite <- !app_assoc; reflexivity.
Qed.

(** The second loop indexes a list [src] that it does not change. *)
Lemma second_loop_in_range results : forall src i st,
  List.length results + i <= List.length src ->
  for_enumerate (iteration src append_failed) i results st =
    ({| all_results := all_results st ++ blocks results;
        failed_urls := failed_urls st ++ rejected (skipn i src) results;
        retry_urls := retry_urls st |},
     inr tt).
Proof.
  induction results as [|r rest IH]; intros src i st Hlen; cbn [for_enumerate].
  - cbn. rewrite !app_nil_r.
    replace (rejected (skipn i src) []) with (@nil string)
      by (destruct (skipn i src); reflexivity).
    rewrite app_nil_r. destruct st; reflexivity.
  - cbn [List.length] in Hlen.
    destruct (nth_error_skipn_cons src i) as [u [Hu Hs]]; [lia|].
    unfold then_ at 1.
    rewrite (iteration_in_range src append_failed i u r st append_failed_total Hu).
    rewrite Hs. cbn [blocks rejected]. unfold usable.
    destruct (classify r) as [b|]; cbn [append_result append_failed];
      rewrite IH by lia; cbn; rewrite <- !app_assoc; reflexivity.
Qed.

(** More outcomes than URLs: either loop raises [IndexError]. *)
Lemma loop_overrun results : forall src put i st,
  total_put put ->
  i <= List.length src < List.length results + i ->
  snd (for_enumerate (iteration src put) i results st) = inl IndexError.
Proof.
  induction results as [|r rest IH]; intros src put i st Hput Hlen;
    cbn [for_enumerate List.length] in *; [lia|].
  unfold then_ at 1.
  destruct (Nat.eq_dec i (List.length src)) as [Heq|Hne].
  - assert (Hi : nth_error src i = None) by (apply nth_error_None; lia).
    pose proof (iteration_out_of_range src put i r st Hi) as Hraise.
    destruct (iteration src put i r st) as [st' [e|[]]]; cbn in *;
      [assumption | discriminate].
  - destruct (nth_error_skipn_cons src i) as [u [Hu _]]; [lia|].
    rewrite (iteration_in_range src put i u r st Hput Hu).
    destruct (classify r) as [b|].
    + cbn [append_result]. apply IH; [assumption | lia].
    + pose proof (Hput u st) as Hok.
      destruct (put u st) as [st' [e|[]]]; cbn in Hok; [discriminate|].
      apply IH; [assumption | lia].
Qed.

End LoopFacts.

(* ================================================================== *)
(** ** Running program trees *)

Module RunFacts.
Import PyStr Py Crawler Spec LoopFacts.
Local Open Scope list_scope.

Lemma run_from_bind {A B} (w : world) (p : prog A) (f : A -> prog B) :
  forall tr,
    run_from w tr (bind p f) =
      match run_from w tr p with
      | (tr', inr a) => run_from w tr' (f a)
      | (tr', inl e) => (tr', inl e)
      end.
Proof.
  induction p as [a|e|X c k IH]; intros tr; cbn; try reflexivity.
  apply IH.
Qed.

Lemma run_from_try_except {A} (w : world) (p : prog A) (h : exn -> prog A) :
  forall tr,
    run_from w tr (try_except p h) =
      match run_from w tr p with
      | (tr', inr a) => (tr', inr a)
      | (tr', inl e) => run_from w tr' (h e)
      end.
Proof.
  induction p as [a|e|X c k IH]; intros tr; cbn; try reflexivity.
  apply IH.
Qed.

Lemma run_from_await_engine (w : world) tr urls :
  run_from w tr (await (ArunMany urls)) =
    (tr ++ [EvArunMany urls],
     arun_many_reply w (List.length (engine_calls tr)) urls).
Proof.
  cbn. destruct (arun_many_reply w _ urls); reflexivity.
Qed.

Lemma run_from_exec (w : world) tr (m : loop unit) st :
  run_from w tr (exec m st) =
    (tr, match m st with (st', inr _) => inr st' | (_, inl e) => inl e end).
Proof.
  unfold exec. destruct (m st) as [st' [e|u]]; reflexivity.
Qed.

Lemma engine_calls_app tr1 tr2 :
  engine_calls (tr1 ++ tr2) = engine_calls tr1 ++ engine_calls tr2.
Proof.
  induction tr1 as [|[|us|q d e] tr1 IH]; cbn; rewrite ?IH; reflexivity.
Qed.

Lemma length_rejected urls results :
  List.length (rejected urls results) <= List.length urls.
Proof.
  revert results; induction urls as [|u urls IH]; intros [|r rs]; cbn; try lia.
  destruct (usable r); cbn; specialize (IH rs); lia.
Qed.

Lemma first_pass_result urls rs1 :
  List.length rs1 <= List.length urls ->
  first_pass urls rs1 no_lists =
    ({| all_results := blocks rs1; failed_urls := [];
        retry_urls := rejected urls rs1 |}, inr tt).
Proof.
  intros Hlen. unfold first_pass.
  rewrite first_loop_in_range by lia. reflexivity.
Qed.

Lemma second_pass_result rs2 st :
  List.length rs2 <= List.length (retry_urls st) ->
  second_pass rs2 st =
    ({| all_results := all_results st ++ blocks rs2;
        failed_urls := failed_urls st ++ rejected (retry_urls st) rs2;
        retry_urls := retry_urls st |}, inr tt).
Proof.
  intros Hlen. unfold second_pass.
  rewrite second_loop_in_range by lia. reflexivity.
Qed.

Lemma fetch_runs (w : world) tr urls :
  fetch_run w tr urls (run_from w tr (fetch urls)).
Proof.
  unfold fetch. rewrite run_from_bind, run_from_await_engine.
  destruct (arun_many_reply w (List.length (engine_calls tr)) urls)
    as [e|rs1] eqn:H1; [now apply engine_failed|].
  rewrite run_from_bind, run_from_exec.
  destruct (le_lt_dec (List.length rs1) (List.length urls)) as [Hle|Hgt].
  - rewrite (first_pass_result urls rs1 Hle). cbn [retry_urls].
    destruct (rejected urls rs1) as [|u retry] eqn:Hrej.
    + cbn. now apply (no_retry w tr urls rs1).
    + rewrite run_from_bind, run_from_await_engine.
      rewrite engine_calls_app, length_app, Nat.add_comm. cbn [engine_calls List.length Nat.add].
      rewrite <- app_assoc. cbn [app]. rewrite <- Hrej.
      assert (Hne : rejected urls rs1 <> []) by (rewrite Hrej; discriminate).
      destruct (arun_many_reply w (S (List.length (engine_calls tr))) (rejected urls rs1))
        as [e|rs2] eqn:H2; [now apply (retry_failed w tr urls rs1 e)|].
      rewrite run_from_exec.
      destruct (le_lt_dec (List.length rs2) (List.length (rejected urls rs1))) as [Hle2|Hgt2].
      * rewrite second_pass_result by (cbn; exact Hle2). cbn.
        now apply (retried w tr urls rs1 rs2).
      * pose proof (loop_overrun rs2 (rejected urls rs1) append_failed 0
                      {| all_results := blocks rs1; failed_urls := [];
                         retry_urls := rejected urls rs1 |}
                      append_failed_total) as Hover.
        unfold second_pass. cbn [retry_urls].
        destruct (for_enumerate _ 0 rs2 _) as [st' [e|[]]]; cbn in Hover.
        -- assert (He : e = IndexError) by (specialize (Hover ltac:(lia)); congruence).
           subst e. now apply (retry_overrun w tr urls rs1 rs2).
        -- assert (inr tt = @inl exn unit IndexError) by (apply Hover; lia). discriminate.
  - pose proof (loop_overrun rs1 urls append_retry 0 no_lists append_retry_total) as Hover.
    unfold first_pass.
    destruct (for_enumerate _ 0 rs1 _) as [st' [e|[]]]; cbn in Hover.
    + assert (He : e = IndexError) by (specialize (Hover ltac:(lia)); congruence).
      subst e. now apply (first_overrun w tr urls rs1).
    + assert (inr tt = @inl exn unit IndexError) by (apply Hover; lia). discriminate.
Qed.

Lemma engine_calls_entry self_crawler : engine_calls (entry_trace self_crawler) = [].
Proof. destruct self_crawler; reflexivity. Qed.

(** [crawl_urls] is [fetch] and [build_response] under the outer handler. *)
Lemma run_from_crawl_urls md gt (w : world) self_crawler urls instruction tr0 :
  crawler_ready self_crawler w ->
  run_from w tr0 (crawl_urls md gt self_crawler urls instruction) =
    crawl_result md gt (run_from w (tr0 ++ entry_trace self_crawler) (fetch urls)).
Proof.
  intros Hready. unfold crawl_urls.
  rewrite run_from_try_except, run_from_bind.
  assert (Hinit : run_from w tr0 (if self_crawler then Ret tt else await Initialize)
                  = (tr0 ++ entry_trace self_crawler, inr tt)).
  { destruct self_crawler; cbn; [rewrite app_nil_r; reflexivity|].
    destruct Hready as [Habs|Hok]; [discriminate|]. rewrite Hok. reflexivity. }
  rewrite Hinit, run_from_bind.
  destruct (run_from w (tr0 ++ entry_trace self_crawler) (fetch urls)) as [tr [e|st]];
    cbn [crawl_result]; [reflexivity|].
  unfold build_response, response_of, Normalizer.normalize.
  destruct (all_results st); reflexivity.
Qed.

Lemma run_crawl_urls md gt (w : world) self_crawler urls instruction :
  crawler_ready self_crawler w ->
  run w (crawl_urls md gt self_crawler urls instruction) =
    crawl_result md gt (run_from w (entry_trace self_crawler) (fetch urls)).
Proof.
  intros Hready. unfold run.
  rewrite (run_from_crawl_urls md gt w self_crawler urls instruction [] Hready).
  reflexivity.
Qed.

(** Of the exceptions of [Py], [crawl_urls] raises nothing but an
    [HTTPException] with status 500. *)
Lemma crawl_urls_raises_500 md gt (w : world) self_crawler urls instruction tr0 e :
  snd (run_from w tr0 (crawl_urls md gt self_crawler urls instruction)) = inl e ->
  exists d, e = HTTPException 500 d.
Proof.
  unfold crawl_urls. rewrite run_from_try_except.
  destruct (run_from w tr0 _) as [tr [e'|resp]]; cbn; intros H.
  - exists (Str e'). congruence.
  - discriminate.
Qed.

(** Without a crawler and with a failing [initialize] nothing is fetched. *)
Lemma run_from_crawl_urls_not_ready md gt (w : world) urls instruction e tr0 :
  initialize_reply w = inl e ->
  run_from w tr0 (crawl_urls md gt false urls instruction) =
    (tr0 ++ [EvInitialize], inl (HTTPException 500 (Str e))).
Proof.
  intros Hinit. unfold crawl_urls.
  rewrite run_from_try_except, run_from_bind. cbn. rewrite Hinit. reflexivity.
Qed.

Lemma run_crawl_urls_not_ready md gt (w : world) urls instruction e :
  initialize_reply w = inl e ->
  run w (crawl_urls md gt false urls instruction) =
    ([EvInitialize], inl (HTTPException 500 (Str e))).
Proof.
  intros Hinit. unfold run.
  rewrite (run_from_crawl_urls_not_ready md gt w urls instruction e [] Hinit).
  reflexivity.
Qed.

End RunFacts.

(* ================================================================== *)
(** ** The retrying batch fetcher *)

Module Fetcher.
Import PyStr Py Crawler Spec LoopFacts RunFacts.
Local Open Scope list_scope.

Lemma fst_crawl_result md gt r : fst (crawl_result md gt r) = fst r.
Proof.
  destruct r as [tr [e|st]]; cbn; [reflexivity|].
  destruct (all_results st); reflexivity.
Qed.

(** [rejected] is the sub-list of the URLs paired with a non-usable
    outcome, in the order of the batch. *)
Lemma rejected_filter urls : forall results,
  rejected urls results =
    map fst (filter (fun p => negb (usable (snd p))) (combine urls results)).
Proof.
  induction urls as [|u urls IH]; intros [|r rs]; cbn; try reflexivity.
  destruct (usable r); cbn; rewrite IH; reflexivity.
Qed.

Lemma blocks_all_usable results :
  forallb usable results = true ->
  List.length (blocks results) = List.length results.
Proof.
  induction results as [|r rs IH]; cbn; [reflexivity|].
  unfold usable at 1. destruct (classify r); cbn; [|discriminate].
  intros H; rewrite IH by exact H; reflexivity.
Qed.

Lemma rejected_all_usable urls : forall results,
  forallb usable results = true -> rejected urls results = [].
Proof.
  induction urls as [|u urls IH]; intros [|r rs]; cbn; try reflexivity.
  destruct (usable r); cbn; [apply IH | discriminate].
Qed.

(** Case analysis on a run of [fetch] entered from [crawl_urls]. *)
Ltac fetch_cases w self_crawler urls :=
  let Hf := fresh "Hf" in
  pose proof (fetch_runs w (entry_trace self_crawler) urls) as Hf;
  destruct Hf as [ e' Hr1
                 | rs1' Hr1 Hover1
                 | rs1' Hr1 Hfit1 Hnone
                 | rs1' e' Hr1 Hfit1 Hsome Hr2
                 | rs1' rs2' Hr1 Hfit1 Hsome Hr2 Hover2
                 | rs1' rs2' Hr1 Hfit1 Hsome Hr2 Hfit2 ];
  rewrite ?engine_calls_entry in *; cbn [List.length] in *.

(** C1. When the first loop leaves a non-empty [retry_urls], [arun_many]
    is called exactly one more time, on exactly the URLs whose first
    outcome was not usable, in batch order; when the batch is non-empty
    and every first outcome is usable, [arun_many] is called exactly
    once, [failed_urls] is empty and [success_count] is the number of
    URLs. *)
Theorem C1_one_retry_call_on_rejected
    md gt (w : world) self_crawler urls instruction rs1 :
  crawler_ready self_crawler w ->
  arun_many_reply w 0 urls = inr rs1 ->
  List.length rs1 <= List.length urls ->
  let out := run w (crawl_urls md gt self_crawler urls instruction) in
  (rejected urls rs1 <> [] ->
     fst (first_pass urls rs1 no_lists)
       = {| all_results := blocks rs1; failed_urls := [];
            retry_urls := rejected urls rs1 |}
     /\ rejected urls rs1
        = map fst (filter (fun p => negb (usable (snd p))) (combine urls rs1))
     /\ engine_calls (fst out) = [urls; rejected urls rs1])
  /\ (urls <> [] -> List.length rs1 = List.length urls ->
      forallb usable rs1 = true ->
      exists resp,
        snd out = inr resp
        /\ engine_calls (fst out) = [urls]
        /\ Response.failed_urls resp = []
        /\ Response.success_count resp = List.length urls).
Proof.
  intros Hready H1 Hlen out. subst out.
  rewrite (run_crawl_urls md gt w self_crawler urls instruction Hready).
  rewrite fst_crawl_result.
  split.
  - intros Hne. split; [|split].
    + rewrite first_pass_result by exact Hlen. reflexivity.
    + apply rejected_filter.
    + fetch_cases w self_crawler urls; cbn [fst]; try congruence;
        try (assert (rs1' = rs1) by congruence; subst; try lia; try contradiction);
        rewrite engine_calls_app, engine_calls_entry; reflexivity.
  - intros Hurls Heq Hall.
    pose proof (rejected_all_usable urls rs1 Hall) as Hrej.
    pose proof (blocks_all_usable rs1 Hall) as Hblocks.
    fetch_cases w self_crawler urls; try congruence;
      try (assert (rs1' = rs1) by congruence; subst; try lia; try contradiction).
    cbn [crawl_result all_results].
    destruct (blocks rs1) as [|b bs] eqn:Hb.
    + cbn in Hblocks. destruct urls; [contradiction | cbn in Heq; lia].
    + eexists; split; [reflexivity|]. cbn [fst].
      rewrite engine_calls_app, engine_calls_entry. cbn in Hblocks |- *.
      repeat split; lia.
Qed.

(** The run of [fetch] when both answers fit their argument lists. *)
Lemma fetch_passes (w : world) self_crawler urls rs1 rs2 :
  passes w urls rs1 rs2 ->
  snd (run_from w (entry_trace self_crawler) (fetch urls)) = inr (merged urls rs1 rs2)
  /\ engine_calls (fst (run_from w (entry_trace self_crawler) (fetch urls)))
     = expected_calls urls rs1.
Proof.
  intros (H1 & Hlen1 & H2). unfold merged, expected_calls.
  fetch_cases w self_crawler urls; cbn [fst snd]; try congruence;
    assert (rs1' = rs1) by congruence; subst rs1'; try lia;
    rewrite engine_calls_app, engine_calls_entry; cbn [engine_calls app].
  - rewrite Hnone in *. subst rs2. cbn. rewrite app_nil_r. split; reflexivity.
  - destruct (rejected urls rs1) as [|u retry]; [contradiction|].
    destruct H2 as [H2 _]. congruence.
  - destruct (rejected urls rs1) as [|u retry]; [contradiction|].
    destruct H2 as [H2 Hlen2]. assert (rs2' = rs2) by congruence. subst.
    cbn [List.length] in Hover2. lia.
  - destruct (rejected urls rs1) as [|u retry] eqn:Hrej; [contradiction|].
    destruct H2 as [H2 Hlen2]. assert (rs2' = rs2) by congruence. subst.
    split; reflexivity.
Qed.

Lemma crawl_urls_of_passes md gt (w : world) self_crawler urls instruction rs1 rs2 :
  crawler_ready self_crawler w ->
  passes w urls rs1 rs2 ->
  snd (run w (crawl_urls md gt self_crawler urls instruction)) =
    match blocks rs1 ++ blocks rs2 with
    | [] => inl (HTTPException 500 (Str AllFetchesFailedError))
    | _ :: _ => inr (response_of md gt (merged urls rs1 rs2))
    end
  /\ engine_calls (fst (run w (crawl_urls md gt self_crawler urls instruction)))
     = expected_calls urls rs1.
Proof.
  intros Hready Hp.
  rewrite (run_crawl_urls md gt w self_crawler urls instruction Hready).
  rewrite fst_crawl_result.
  destruct (fetch_passes w self_crawler urls rs1 rs2 Hp) as [Hst Hcalls].
  split; [|exact Hcalls].
  destruct (run_from w (entry_trace self_crawler) (fetch urls)) as [tr r].
  cbn [snd] in Hst. subst r. cbn [crawl_result merged all_results].
  destruct (blocks rs1 ++ blocks rs2); reflexivity.
Qed.

Lemma iteration_retry_keeps_failed urls i r st :
  failed_urls (fst (iteration urls append_retry i r st)) = failed_urls st.
Proof.
  unfold iteration, inspect.
  destruct r as [[[[|]|] [[[[fit|]|]]|]]|]; cbn [success markdown fit_markdown];
    unfold try_loop, then_, log_with, index, then_, plus_nlnl, append_result, append_retry;
    destruct (nth_error urls i); reflexivity.
Qed.

Lemma first_loop_keeps_failed urls results : forall i st,
  failed_urls (fst (for_enumerate (iteration urls append_retry) i results st))
  = failed_urls st.
Proof.
  induction results as [|r rest IH]; intros i st; cbn [for_enumerate]; [reflexivity|].
  unfold then_ at 1.
  pose proof (iteration_retry_keeps_failed urls i r st) as Hk.
  destruct (iteration urls append_retry i r st) as [st' [e|[]]]; cbn [fst] in *.
  - exact Hk.
  - rewrite IH. exact Hk.
Qed.

(** C2. [crawl_urls] calls [arun_many] at most twice for a batch.  The
    first loop never writes [failed_urls]: an outcome that is not usable
    puts its URL into [retry_urls].  The [failed_urls] of a response are
    exactly the URLs of the second call whose second outcome is not usable
    either. *)
Theorem C2_at_most_two_passes
    md gt (w : world) self_crawler urls instruction :
  let out := run w (crawl_urls md gt self_crawler urls instruction) in
  List.length (engine_calls (fst out)) <= 2
  /\ (forall results st,
        failed_urls (fst (first_pass urls results st)) = failed_urls st)
  /\ (forall results,
        List.length results <= List.length urls ->
        retry_urls (fst (first_pass urls results no_lists)) = rejected urls results)
  /\ (forall resp,
        snd out = inr resp ->
        exists rs1 rs2,
          passes w urls rs1 rs2
          /\ engine_calls (fst out) = expected_calls urls rs1
          /\ Response.failed_urls resp = rejected (rejected urls rs1) rs2).
Proof.
  intros out.
  assert (Hpass1 : forall results st,
             failed_urls (fst (first_pass urls results st)) = failed_urls st)
    by (intros; apply first_loop_keeps_failed).
  assert (Hretry : forall results,
             List.length results <= List.length urls ->
             retry_urls (fst (first_pass urls results no_lists)) = rejected urls results)
    by (intros results Hlen; rewrite first_pass_result by exact Hlen; reflexivity).
  assert (Hcases : crawler_ready self_crawler w
                   \/ exists e, self_crawler = false /\ initialize_reply w = inl e).
  { destruct self_crawler; [left; left; reflexivity|].
    destruct (initialize_reply w) as [e|[]] eqn:Hi.
    - right; exists e; split; reflexivity.
    - left; right; exact Hi. }
  destruct Hcases as [Hready | (e & Hself & Hinit)].
  - subst out.
    rewrite (run_crawl_urls md gt w self_crawler urls instruction Hready).
    rewrite fst_crawl_result.
    fetch_cases w self_crawler urls; cbn [fst snd crawl_result];
      rewrite engine_calls_app, engine_calls_entry; cbn [engine_calls app List.length];
      (split; [lia|]); (split; [exact Hpass1|]); (split; [exact Hretry|]);
      intros resp Hresp; try discriminate.
    + exists rs1', []. unfold passes, expected_calls. rewrite Hnone.
      repeat split; try assumption.
      cbn [all_results] in Hresp. destruct (blocks rs1'); [discriminate|].
      injection Hresp as <-. reflexivity.
    + exists rs1', rs2'. unfold passes, expected_calls.
      destruct (rejected urls rs1') as [|u retry] eqn:Hrej; [contradiction|].
      repeat split; try assumption.
      cbn [all_results] in Hresp. destruct (blocks rs1' ++ blocks rs2'); [discriminate|].
      injection Hresp as <-. reflexivity.
  - subst out self_crawler.
    rewrite (run_crawl_urls_not_ready md gt w urls instruction e Hinit).
    cbn. repeat split; try lia; try assumption. intros resp Hresp; discriminate.
Qed.

Lemma perm_accepted_rejected urls : forall results,
  List.length results = List.length urls ->
  Permutation urls (accepted urls results ++ rejected urls results).
Proof.
  induction urls as [|u urls IH]; intros [|r rs] Hlen; cbn in *; try discriminate.
  - constructor.
  - destruct (usable r); cbn.
    + constructor. apply IH. lia.
    + apply Permutation_cons_app. apply IH. lia.
Qed.

Lemma length_accepted_blocks results : forall urls,
  List.length results <= List.length urls ->
  List.length (accepted urls results) = List.length (blocks results).
Proof.
  induction results as [|r rs IH]; intros [|u urls] Hlen; cbn in *; try lia.
  unfold usable. destruct (classify r); cbn; rewrite IH by lia; reflexivity.
Qed.

Lemma passes_of_contract (w : world) urls :
  one_outcome_per_url w ->
  exists rs1 rs2,
    passes w urls rs1 rs2
    /\ List.length rs1 = List.length urls
    /\ List.length rs2 = List.length (rejected urls rs1).
Proof.
  intros Hc. destruct (Hc 0 urls) as (rs1 & H1 & Hlen1).
  destruct (rejected urls rs1) as [|u retry] eqn:Hrej.
  - exists rs1, []. unfold passes. rewrite Hrej. repeat split; try assumption; lia.
  - destruct (Hc 1 (u :: retry)) as (rs2 & H2 & Hlen2).
    exists rs1, rs2. unfold passes. rewrite Hrej. repeat split; try assumption; lia.
Qed.

Lemma NoDup_app_apart {A} (l1 l2 : list A) x :
  NoDup (l1 ++ l2) -> In x l1 -> ~ In x l2.
Proof.
  induction l1 as [|a l1 IH]; cbn; intros Hnd Hin; [contradiction|].
  inversion Hnd as [|? ? Hnotin Hnd']; subst.
  destruct Hin as [->|Hin].
  - intros Hin2. apply Hnotin. apply in_or_app. right. exact Hin2.
  - apply IH; assumption.
Qed.

(** C3, as the code has it.  When the engine returns one outcome per URL
    on each pass, the URLs of the batch are, occurrence by occurrence, the
    URLs that contributed a block together with [failed_urls]: the batch
    is a permutation of the two lists put together, and the number of
    blocks plus the number of failed URLs is the number of URLs.  When no
    URL is listed twice, every URL of the batch is in exactly one of the
    two lists; a URL that is listed twice can be in both, once for each
    occurrence.  [crawl_urls] returns these lists unless there is no block
    at all, in which case it raises. *)
Theorem C3_every_url_in_exactly_one
    md gt (w : world) self_crawler urls instruction :
  crawler_ready self_crawler w ->
  one_outcome_per_url w ->
  exists rs1 rs2,
    passes w urls rs1 rs2
    /\ List.length rs1 = List.length urls
    /\ List.length rs2 = List.length (rejected urls rs1)
    /\ let st := merged urls rs1 rs2 in
       let contributing := accepted urls rs1 ++ accepted (rejected urls rs1) rs2 in
       let out := run w (crawl_urls md gt self_crawler urls instruction) in
       snd (run_from w (entry_trace self_crawler) (fetch urls)) = inr st
       /\ List.length contributing = List.length (all_results st)
       /\ Permutation urls (contributing ++ failed_urls st)
       /\ List.length (all_results st) + List.length (failed_urls st)
          = List.length urls
       /\ snd out = match all_results st with
                    | [] => inl (HTTPException 500 (Str AllFetchesFailedError))
                    | _ :: _ => inr (response_of md gt st)
                    end
       /\ (forall resp, snd out = inr resp ->
             Response.success_count resp + List.length (Response.failed_urls resp)
             = List.length urls)
       /\ (NoDup urls ->
           forall u, In u urls ->
             (In u contributing /\ ~ In u (failed_urls st))
             \/ (~ In u contributing /\ In u (failed_urls st))).
Proof.
  intros Hready Hc.
  destruct (passes_of_contract w urls Hc) as (rs1 & rs2 & Hp & Hlen1 & Hlen2).
  exists rs1, rs2. split; [exact Hp|]. split; [exact Hlen1|]. split; [exact Hlen2|].
  cbn zeta.
  destruct (fetch_passes w self_crawler urls rs1 rs2 Hp) as [Hst _].
  destruct (crawl_urls_of_passes md gt w self_crawler urls instruction rs1 rs2 Hready Hp)
    as [Hout _].
  pose proof (perm_accepted_rejected urls rs1 Hlen1) as P1.
  pose proof (perm_accepted_rejected (rejected urls rs1) rs2 Hlen2) as P2.
  pose proof (length_accepted_blocks rs1 urls ltac:(lia)) as L1.
  pose proof (length_accepted_blocks rs2 (rejected urls rs1) ltac:(lia)) as L2.
  assert (Hperm : Permutation urls
            ((accepted urls rs1 ++ accepted (rejected urls rs1) rs2)
             ++ rejected (rejected urls rs1) rs2)).
  { rewrite <- app_assoc. etransitivity; [exact P1|].
    apply Permutation_app_head. exact P2. }
  assert (Hcount : List.length (blocks rs1 ++ blocks rs2)
                   + List.length (rejected (rejected urls rs1) rs2)
                   = List.length urls).
  { apply Permutation_length in Hperm. rewrite !length_app in *. lia. }
  cbn [merged all_results failed_urls].
  split; [exact Hst|]. split; [rewrite !length_app; lia|].
  split; [exact Hperm|]. split; [exact Hcount|]. split; [exact Hout|].
  split.
  - intros resp Hresp. rewrite Hout in Hresp.
    destruct (blocks rs1 ++ blocks rs2) as [|b bs] eqn:Hb; [discriminate|].
    injection Hresp as <-. cbn [response_of merged Response.success_count
                                 Response.failed_urls all_results failed_urls].
    rewrite Hb. exact Hcount.
  - intros Hnd u Hin.
    pose proof (Permutation_NoDup Hperm Hnd) as Hnd'.
    pose proof (Permutation_in u Hperm Hin) as Hin'.
    apply in_app_or in Hin'. destruct Hin' as [Hc1 | Hf].
    + left. split; [exact Hc1|]. exact (NoDup_app_apart _ _ u Hnd' Hc1).
    + right. split; [|exact Hf].
      intros Hc1. exact (NoDup_app_apart _ _ u Hnd' Hc1 Hf).
Qed.

Lemma blocks_flat_map results :
  blocks results =
    flat_map (fun r => match classify r with
                       | Usable b => [b]
                       | RetryCandidate => []
                       end) results.
Proof.
  induction results as [|r rs IH]; cbn; [reflexivity|].
  destruct (classify r); cbn; rewrite IH; reflexivity.
Qed.

(** C6. The blocks that reach the reducer are the usable blocks of the
    first pass followed by those of the second pass, each group in the
    order of the outcomes of its pass, so the response is a function of
    the batch and of the two answers of the engine alone. *)
Theorem C6_blocks_in_pass_order
    md gt (w : world) self_crawler urls instruction rs1 rs2 :
  crawler_ready self_crawler w ->
  passes w urls rs1 rs2 ->
  let out := run w (crawl_urls md gt self_crawler urls instruction) in
  let block_of := fun r => match classify r with
                           | Usable b => [b]
                           | RetryCandidate => []
                           end in
  (exists st,
     snd (run_from w (entry_trace self_crawler) (fetch urls)) = inr st
     /\ all_results st = flat_map block_of rs1 ++ flat_map block_of rs2)
  /\ snd out =
       match flat_map block_of rs1 ++ flat_map block_of rs2 with
       | [] => inl (HTTPException 500 (Str AllFetchesFailedError))
       | _ :: _ =>
           inr {| Response.content :=
                    Normalizer.normalize md gt
                      (join separator (flat_map block_of rs1 ++ flat_map block_of rs2));
                  Response.success_count :=
                    List.length (flat_map block_of rs1 ++ flat_map block_of rs2);
                  Response.failed_urls := rejected (rejected urls rs1) rs2 |}
       end
  /\ (forall (w' : world) self_crawler' instruction',
        crawler_ready self_crawler' w' ->
        passes w' urls rs1 rs2 ->
        snd (run w' (crawl_urls md gt self_crawler' urls instruction')) = snd out).
Proof.
  intros Hready Hp out block_of. subst out block_of.
  rewrite <- !blocks_flat_map.
  destruct (fetch_passes w self_crawler urls rs1 rs2 Hp) as [Hst _].
  destruct (crawl_urls_of_passes md gt w self_crawler urls instruction rs1 rs2 Hready Hp)
    as [Hout _].
  split; [|split].
  - exists (merged urls rs1 rs2). split; [exact Hst | reflexivity].
  - rewrite Hout. reflexivity.
  - intros w' self' instr' Hready' Hp'.
    destruct (crawl_urls_of_passes md gt w' self' urls instr' rs1 rs2 Hready' Hp')
      as [Hout' _].
    rewrite Hout, Hout'. reflexivity.
Qed.

End Fetcher.

(* ================================================================== *)
(** ** Worked runs of the fetcher *)

Module FetcherRuns.
Import PyStr Py Crawler Spec LoopFacts RunFacts Fetcher Examples.
Local Open Scope list_scope.

(** Scenario B of the specification: the first URL fails twice. *)
Example scenario_b :
  run (scripted [unsuccessful; rendered "B"] [None])
      (crawl_urls PlainDocs.markdown_markdown PlainDocs.get_text true
                  [url_a; url_b] "q")
  = ([EvArunMany [url_a; url_b]; EvArunMany [url_a]],
     inr {| Response.content := "B";
            Response.success_count := 1;
            Response.failed_urls := [url_a] |}).
Proof. vm_compute. reflexivity. Qed.

(** More outcomes than URLs: the loop indexes past the end of [urls]. *)
Example too_many_outcomes :
  run (scripted [rendered "A"; rendered "B"] [])
      (crawl_urls PlainDocs.markdown_markdown PlainDocs.get_text true [url_a] "q")
  = ([EvArunMany [url_a]], inl (HTTPException 500 (Str IndexError))).
Proof. vm_compute. reflexivity. Qed.

Lemma C1_witness :
  let w := scripted [unsuccessful; rendered "B"] [None] in
  let w' := scripted [rendered "A"; rendered "B"] [] in
  engine_calls (fst (run w (crawl_urls PlainDocs.markdown_markdown PlainDocs.get_text
                                       true [url_a; url_b] "q")))
    = [[url_a; url_b]; [url_a]]
  /\ exists resp,
       snd (run w' (crawl_urls PlainDocs.markdown_markdown PlainDocs.get_text
                               false [url_a; url_b] "q")) = inr resp
       /\ Response.failed_urls resp = []
       /\ Response.success_count resp = 2.
Proof.
  intros w w'. split.
  - refine (proj2 (proj2 (proj1
      (C1_one_retry_call_on_rejected PlainDocs.markdown_markdown PlainDocs.get_text
         w true [url_a; url_b] "q" [unsuccessful; rendered "B"]
         (or_introl eq_refl) eq_refl _) _))).
    + cbn; lia.
    + cbn; discriminate.
  - destruct (proj2
      (C1_one_retry_call_on_rejected PlainDocs.markdown_markdown PlainDocs.get_text
         w' false [url_a; url_b] "q" [rendered "A"; rendered "B"]
         (or_intror eq_refl) eq_refl (le_n 2))
      ltac:(discriminate) eq_refl eq_refl) as (resp & Hresp & _ & Hfailed & Hcount).
    exists resp. repeat split; assumption.
Defined.

Lemma C2_witness :
  let w := scripted [unsuccessful; rendered "B"] [None] in
  let out := run w (crawl_urls PlainDocs.markdown_markdown PlainDocs.get_text true
                               [url_a; url_b] "q") in
  List.length (engine_calls (fst out)) <= 2
  /\ exists rs1 rs2,
       passes w [url_a; url_b] rs1 rs2
       /\ engine_calls (fst out) = expected_calls [url_a; url_b] rs1
       /\ [url_a] = rejected (rejected [url_a; url_b] rs1) rs2.
Proof.
  intros w out.
  pose proof (C2_at_most_two_passes PlainDocs.markdown_markdown PlainDocs.get_text
                w true [url_a; url_b] "q") as H.
  split; [exact (proj1 H)|].
  exact (proj2 (proj2 (proj2 H))
           {| Response.content := "B"; Response.success_count := 1;
              Response.failed_urls := [url_a] |}
           ltac:(vm_compute; reflexivity)).
Defined.

Lemma per_url_contract : one_outcome_per_url per_url.
Proof.
  intros n urls. eexists. split; [reflexivity|]. apply length_map.
Qed.

Lemma C3_witness :
  let urls := [url_a; url_b; url_c] in
  exists rs1 rs2,
    passes per_url urls rs1 rs2
    /\ List.length rs1 = List.length urls
    /\ List.length rs2 = List.length (rejected urls rs1)
    /\ Permutation urls
         ((accepted urls rs1 ++ accepted (rejected urls rs1) rs2)
          ++ failed_urls (merged urls rs1 rs2))
    /\ List.length (all_results (merged urls rs1 rs2))
       + List.length (failed_urls (merged urls rs1 rs2)) = List.length urls
    /\ (forall u, In u urls ->
          (In u (accepted urls rs1 ++ accepted (rejected urls rs1) rs2)
           /\ ~ In u (failed_urls (merged urls rs1 rs2)))
          \/ (~ In u (accepted urls rs1 ++ accepted (rejected urls rs1) rs2)
              /\ In u (failed_urls (merged urls rs1 rs2)))).
Proof.
  intros urls.
  destruct (C3_every_url_in_exactly_one PlainDocs.markdown_markdown PlainDocs.get_text
              per_url false urls "q" (or_intror eq_refl) per_url_contract)
    as (rs1 & rs2 & Hp & H1 & H2 & _ & _ & Hperm & Hcount & _ & _ & Hone).
  exists rs1, rs2.
  refine (conj Hp (conj H1 (conj H2 (conj Hperm (conj Hcount (Hone _)))))).
  unfold urls, url_a, url_b, url_c.
  repeat constructor; cbn; intuition discriminate.
Defined.

Lemma first_position_only_contract : one_outcome_per_url first_position_only.
Proof.
  intros n urls. eexists. split; [reflexivity|].
  destruct n, urls; cbn; rewrite ?length_map; reflexivity.
Qed.

(** C3 fails for a batch that lists a URL twice.  The engine returns one
    outcome per URL on each pass; the first occurrence of the URL is
    rendered, the second is not, and neither is the retry.  The URL has
    contributed a block and is in [failed_urls] as well, while the count
    still adds up. *)
Lemma C3_listed_twice_is_in_both :
  one_outcome_per_url first_position_only
  /\ passes first_position_only [url_a; url_a]
            [rendered ("page " ++ url_a); unsuccessful] [None]
  /\ run first_position_only
         (crawl_urls PlainDocs.markdown_markdown PlainDocs.get_text true
                     [url_a; url_a] "q")
     = ([EvArunMany [url_a; url_a]; EvArunMany [url_a]],
        inr {| Response.content := "page https://a.example";
               Response.success_count := 1;
               Response.failed_urls := [url_a] |})
  /\ In url_a (accepted [url_a; url_a] [rendered ("page " ++ url_a); unsuccessful]
               ++ accepted (rejected [url_a; url_a]
                                     [rendered ("page " ++ url_a); unsuccessful])
                           [None])
  /\ In url_a (failed_urls (merged [url_a; url_a]
                                   [rendered ("page " ++ url_a); unsuccessful]
                                   [None]))
  /\ 1 + List.length [url_a] = List.length [url_a; url_a].
Proof.
  split; [exact first_position_only_contract|].
  split; [unfold passes; cbn; repeat split; lia|].
  split; [vm_compute; reflexivity|].
  split; [left; reflexivity|].
  split; [left; reflexivity | reflexivity].
Qed.

(** Five URLs: the first and the third are rendered at once, the second
    and the fifth on the retry, the fourth never. *)
Lemma five_urls_passes :
  passes (scripted [rendered "A"; unsuccessful; rendered "C"; None; unsuccessful]
                   [rendered "B"; unsuccessful; rendered "E"])
         [url_a; url_b; url_c; url_d; url_e]
         [rendered "A"; unsuccessful; rendered "C"; None; unsuccessful]
         [rendered "B"; unsuccessful; rendered "E"].
Proof.
  unfold passes. cbn. repeat split; lia.
Qed.

Lemma C6_witness :
  let rs1 := [rendered "A"; unsuccessful; rendered "C"; None; unsuccessful] in
  let rs2 := [rendered "B"; unsuccessful; rendered "E"] in
  let urls := [url_a; url_b; url_c; url_d; url_e] in
  (exists st,
     snd (run_from (scripted rs1 rs2) [] (fetch urls)) = inr st
     /\ all_results st = ["A" ++ nlnl; "C" ++ nlnl; "B" ++ nlnl; "E" ++ nlnl]%string)
  /\ snd (run (scripted rs1 rs2)
              (crawl_urls PlainDocs.markdown_markdown PlainDocs.get_text true urls "q"))
     = inr {| Response.content :=
                ("A" ++ nl ++ "==========" ++ nl ++ "C" ++ nl ++ "==========" ++ nl
                 ++ "B" ++ nl ++ "==========" ++ nl ++ "E")%string;
              Response.success_count := 4;
              Response.failed_urls := [url_d] |}.
Proof.
  intros rs1 rs2 urls.
  pose proof (C6_blocks_in_pass_order PlainDocs.markdown_markdown PlainDocs.get_text
                (scripted rs1 rs2) true urls "q" rs1 rs2
                (or_introl eq_refl) five_urls_passes) as [Hfetch [Hout _]].
  split.
  - destruct Hfetch as (st & Hst & Hall). exists st. split; [exact Hst|].
    rewrite Hall. reflexivity.
  - rewrite Hout. vm_compute. reflexivity.
Defined.

End FetcherRuns.

(* ================================================================== *)
(** ** The outcome classifier and the reducer *)

Module Classifier.
Import PyStr Py Crawler Spec LoopFacts Examples.
Local Open Scope list_scope.

(** C4, as the code has it.  In the first loop a successful outcome whose
    content is absent (no [markdown], no [fit_markdown], or a [None] in
    it) puts its URL into [retry_urls] and adds no block.  A content that
    is a string, the empty string included, is usable: the string plus
    two newlines is appended to [all_results] and the URL is not
    retried. *)
Theorem C4_absent_content_is_retried urls i u r st :
  nth_error urls i = Some u ->
  success r = Some true ->
  (content_absent r = true ->
     iteration urls append_retry i (Some r) st = append_retry u st
     /\ classify (Some r) = RetryCandidate)
  /\ (forall s,
        markdown r = Some {| fit_markdown := Some (Some s) |} ->
        iteration urls append_retry i (Some r) st = append_result (s ++ nlnl) st
        /\ classify (Some r) = Usable (s ++ nlnl)).
Proof.
  intros Hi Hs.
  rewrite (iteration_in_range urls append_retry i u (Some r) st append_retry_total Hi).
  unfold classify, content_absent. rewrite Hs.
  destruct (markdown r) as [[[[s'|]|]]|]; cbn [fit_markdown]; split;
    try (intros; discriminate); try (intros _; split; reflexivity);
    intros s Hm; injection Hm as ->; split; reflexivity.
Qed.

Lemma C4_witness :
  (iteration [url_a] append_retry 0 (Some none_content) no_lists
     = append_retry url_a no_lists
   /\ classify (Some none_content) = RetryCandidate)
  /\ (iteration [url_a] append_retry 0 (rendered "text") no_lists
        = append_result ("text" ++ nlnl) no_lists
      /\ classify (rendered "text") = Usable ("text" ++ nlnl)).
Proof.
  split.
  - exact (proj1 (C4_absent_content_is_retried [url_a] 0 url_a none_content no_lists
                    eq_refl eq_refl) eq_refl).
  - exact (proj2 (C4_absent_content_is_retried [url_a] 0 url_a
                    {| success := Some true;
                       markdown := Some {| fit_markdown := Some (Some "text") |} |}
                    no_lists eq_refl eq_refl) "text" eq_refl).
Defined.

(** C4 fails for the empty string: a successful outcome whose content is
    present and empty is not retried; the first loop takes it as usable
    and appends the block of two newlines. *)
Lemma C4_empty_content_is_usable :
  success empty_content = Some true
  /\ markdown empty_content = Some {| fit_markdown := Some (Some EmptyString) |}
  /\ first_pass [url_a] [Some empty_content] no_lists
     = ({| all_results := [nlnl]; failed_urls := []; retry_urls := [] |}, inr tt)
  /\ classify (Some empty_content) <> RetryCandidate
  /\ classify (Some empty_content) <> classify (Some none_content).
Proof.
  repeat split; try reflexivity; cbn; discriminate.
Qed.

End Classifier.

Module Reducer.
Import PyStr Py Normalizer Crawler Spec RunFacts Examples.
Local Open Scope list_scope.

(** C5. With no usable block the reducer raises the all-fetches-failed
    error whatever [failed_urls] holds, and the caller of [crawl_urls]
    gets it wrapped by the outer handler.  With at least one block it
    returns the two normalisation stages applied to the blocks joined by
    the separator, which is the line of ten [=] between two blank lines;
    [success_count] is the number of blocks and [failed_urls] is returned
    as it is.  This is what [crawl_urls] makes of the lists that its fetch
    part ends with. *)
Theorem C5_reduce md gt :
  let line := String LF (String LF ("==========" ++ String LF (String LF ""))) in
  (forall failed retry,
     build_response md gt
       {| all_results := []; failed_urls := failed; retry_urls := retry |}
     = Raise (HTTPException 500 (Text "所有URL爬取均失败"))
     /\ try_except
          (build_response md gt
             {| all_results := []; failed_urls := failed; retry_urls := retry |})
          (fun e => Raise (HTTPException 500 (Str e)))
        = Raise (HTTPException 500 (Str AllFetchesFailedError)))
  /\ (forall b bs failed retry,
        build_response md gt
          {| all_results := b :: bs; failed_urls := failed; retry_urls := retry |}
        = Ret {| Response.content :=
                   markdown_to_text_regex
                     (markdown_to_text md gt (join line (b :: bs)));
                 Response.success_count := S (List.length bs);
                 Response.failed_urls := failed |})
  /\ (forall b1 b2 failed retry,
        build_response md gt
          {| all_results := [b1; b2]; failed_urls := failed; retry_urls := retry |}
        = Ret {| Response.content :=
                   markdown_to_text_regex
                     (clean_lines (gt (md (b1 ++ line ++ b2)%string)));
                 Response.success_count := 2;
                 Response.failed_urls := failed |})
  /\ (forall (w : world) self_crawler urls instruction tr st,
        crawler_ready self_crawler w ->
        run_from w (entry_trace self_crawler) (fetch urls) = (tr, inr st) ->
        run w (crawl_urls md gt self_crawler urls instruction)
        = (tr, match all_results st with
               | [] => inl (HTTPException 500 (Str AllFetchesFailedError))
               | b :: bs =>
                   inr {| Response.content :=
                            markdown_to_text_regex
                              (markdown_to_text md gt (join line (b :: bs)));
                          Response.success_count := S (List.length bs);
                          Response.failed_urls := failed_urls st |}
               end)).
Proof.
  intros line. split; [|split; [|split]].
  - intros failed retry. split; reflexivity.
  - intros b bs failed retry. reflexivity.
  - intros b1 b2 failed retry. reflexivity.
  - intros w self_crawler urls instruction tr st Hready Hfetch.
    rewrite (run_crawl_urls md gt w self_crawler urls instruction Hready), Hfetch.
    cbn [crawl_result]. unfold response_of.
    destruct (all_results st); reflexivity.
Qed.

Lemma C5_witness :
  run (scripted [unsuccessful] [None])
      (crawl_urls PlainDocs.markdown_markdown PlainDocs.get_text true [url_a] "q")
  = ([EvArunMany [url_a]; EvArunMany [url_a]],
     inl (HTTPException 500 (Str AllFetchesFailedError)))
  /\ run (scripted [rendered "A"; unsuccessful; rendered "B"] [None])
         (crawl_urls PlainDocs.markdown_markdown PlainDocs.get_text true
                     [url_a; url_b; url_c] "q")
     = ([EvArunMany [url_a; url_b; url_c]; EvArunMany [url_b]],
        inr {| Response.content := a_sep_b;
               Response.success_count := 2;
               Response.failed_urls := [url_b] |})
  /\ build_response PlainDocs.markdown_markdown PlainDocs.get_text
       {| all_results := ["A" ++ nlnl; "B" ++ nlnl]%string;
          failed_urls := [url_b]; retry_urls := [url_b] |}
     = Ret {| Response.content := a_sep_b;
              Response.success_count := 2;
              Response.failed_urls := [url_b] |}.
Proof.
  pose proof (C5_reduce PlainDocs.markdown_markdown PlainDocs.get_text)
    as (_ & Hsome & _ & Hrun).
  split; [|split].
  - exact (Hrun (scripted [unsuccessful] [None]) true [url_a] "q"%string
             [EvArunMany [url_a]; EvArunMany [url_a]]
             {| all_results := []; failed_urls := [url_a]; retry_urls := [url_a] |}
             (or_introl eq_refl) eq_refl).
  - rewrite (Hrun (scripted [rendered "A"; unsuccessful; rendered "B"] [None]) true
               [url_a; url_b; url_c] "q"%string
               [EvArunMany [url_a; url_b; url_c]; EvArunMany [url_b]]
               {| all_results := ["A" ++ nlnl; "B" ++ nlnl]%string;
                  failed_urls := [url_b]; retry_urls := [url_b] |}
               (or_introl eq_refl) eq_refl).
    vm_compute. reflexivity.
  - rewrite Hsome. vm_compute. reflexivity.
Defined.

(** The separator is the line of ten [=] between two blank lines. *)
Example separator_text :
  separator = String LF (String LF ("==========" ++ String LF (String LF ""))).
Proof. reflexivity. Qed.

(** C10. [crawl_urls] never reads [instruction]: two calls that differ
    only in it are the same program, so they make the same calls and
    return the same response in every world; the same holds for [crawl]. *)
Theorem C10_instruction_is_ignored md gt self_crawler urls instruction1 instruction2 :
  crawl_urls md gt self_crawler urls instruction1
  = crawl_urls md gt self_crawler urls instruction2
  /\ (forall w : world,
        run w (Main.crawl md gt self_crawler
                 {| Main.urls := urls; Main.instruction := instruction1 |})
        = run w (Main.crawl md gt self_crawler
                   {| Main.urls := urls; Main.instruction := instruction2 |})).
Proof.
  split; [reflexivity | intros w; reflexivity].
Qed.

End Reducer.

(* ================================================================== *)
(** ** The query orchestrator *)

Module Orchestrator.
Import PyStr Py Crawler Spec LoopFacts RunFacts Examples.
Local Open Scope list_scope.

Lemma length_urls_of results :
  List.length (Main.urls_of results) <= List.length results.
Proof.
  induction results as [|[[u|]] rest IH]; cbn; lia.
Qed.

Lemma in_urls_of results u :
  In u (Main.urls_of results) <-> In {| url := Some u |} results.
Proof.
  induction results as [|[[v|]] rest IH]; cbn.
  - tauto.
  - rewrite IH. split; intros [H|H]; auto; left; congruence.
  - rewrite IH. split; [auto | intros [H|H]; [discriminate | exact H]].
Qed.

Lemma length_slice_to {A} (l : list A) (n : Z) :
  (0 <= n)%Z -> (Z.of_nat (List.length (Main.slice_to l n)) <= n)%Z.
Proof.
  intros Hn. unfold Main.slice_to.
  destruct (n <? 0)%Z eqn:Hneg; [apply Z.ltb_lt in Hneg; lia|].
  pose proof (firstn_le_length (Z.to_nat n) l) as H1.
  assert (H2 : List.length (firstn (Z.to_nat n) l) <= Z.to_nat n).
  { rewrite length_firstn. lia. }
  lia.
Qed.

(** What [search] does once SearXNG has answered. *)
Lemma run_search md gt self_crawler (w : world) req response :
  searxng_reply w (Main.query req) (Main.disabled_engines req)
                (Main.enabled_engines req) = inr response ->
  run w (Main.search md gt self_crawler req) =
    match listed response with
    | [] => ([post_of req], inl NoResultsError)
    | _ :: _ =>
        match Main.urls_of (Main.slice_to (listed response) (Main.limit req)) with
        | [] => ([post_of req], inl NoValidUrlsError)
        | u :: us =>
            run_from w [post_of req]
              (Main.crawl md gt self_crawler
                 {| Main.urls := u :: us; Main.instruction := Main.query req |})
        end
    end.
Proof.
  intros Hreply. unfold run, Main.search, Main.make_searxng_request.
  rewrite run_from_try_except, run_from_bind, run_from_try_except.
  cbn [await run_from answer event_of app]. rewrite Hreply. cbn [run_from].
  unfold listed.
  destruct (results response) as [[|r rs]|]; try reflexivity.
  set (found := Main.urls_of _). destruct found as [|u us]; [reflexivity|].
  unfold Main.crawl. cbn [Main.urls Main.instruction].
  destruct (run_from w _ (crawl_urls md gt self_crawler (u :: us) (Main.query req)))
    as [tr [e|resp]] eqn:Hrun; [|reflexivity].
  pose proof (crawl_urls_raises_500 md gt w self_crawler (u :: us) (Main.query req)
                [post_of req] e) as H500.
  unfold post_of in H500. rewrite Hrun in H500.
  destruct (H500 eq_refl) as [d ->]. reflexivity.
Qed.

(** The engine is never handed more URLs than [fetch] was given. *)
Lemma fetch_calls_bounded (w : world) tr urls us :
  engine_calls tr = [] ->
  In us (engine_calls (fst (run_from w tr (fetch urls)))) ->
  List.length us <= List.length urls.
Proof.
  intros Htr.
  pose proof (fetch_runs w tr urls) as Hf.
  destruct Hf; cbn [fst]; rewrite engine_calls_app, Htr; cbn [engine_calls app];
    intros Hin; cbn in Hin;
    repeat (destruct Hin as [<-|Hin]; [try lia; apply length_rejected|]);
    contradiction.
Qed.

(** C8, as the code has it.  After an answer of SearXNG, [search] raises
    the no-results error when the result list is missing or empty and
    makes no other call; it keeps the URLs of the records that have one,
    among the first [limit] records, and raises the no-valid-URL error
    when none is left; otherwise it passes exactly these URLs to [crawl].
    For a non-negative [limit] they are at most [limit], and so is every
    list handed to the engine. *)
Theorem C8_search_outcomes md gt self_crawler (w : world) req response :
  searxng_reply w (Main.query req) (Main.disabled_engines req)
                (Main.enabled_engines req) = inr response ->
  let out := run w (Main.search md gt self_crawler req) in
  let urls := Main.urls_of (Main.slice_to (listed response) (Main.limit req)) in
  (listed response = [] -> out = ([post_of req], inl NoResultsError))
  /\ (listed response <> [] -> urls = [] ->
      out = ([post_of req], inl NoValidUrlsError))
  /\ (forall u, In u urls <->
                In {| url := Some u |}
                   (Main.slice_to (listed response) (Main.limit req)))
  /\ (listed response <> [] -> urls <> [] ->
      out = run_from w [post_of req]
              (Main.crawl md gt self_crawler
                 {| Main.urls := urls; Main.instruction := Main.query req |}))
  /\ ((0 <= Main.limit req)%Z ->
      (Z.of_nat (List.length urls) <= Main.limit req)%Z
      /\ forall us, In us (engine_calls (fst out)) ->
                    (Z.of_nat (List.length us) <= Main.limit req)%Z).
Proof.
  intros Hreply out urls. subst out.
  rewrite (run_search md gt self_crawler w req response Hreply).
  fold urls.
  assert (Hbound : (0 <= Main.limit req)%Z ->
                   (Z.of_nat (List.length urls) <= Main.limit req)%Z).
  { intros Hn. subst urls.
    pose proof (length_urls_of (Main.slice_to (listed response) (Main.limit req))).
    pose proof (length_slice_to (listed response) (Main.limit req) Hn). lia. }
  split; [|split; [|split; [|split]]].
  - intros ->. reflexivity.
  - intros Hne ->. destruct (listed response); [contradiction | reflexivity].
  - intros u. apply in_urls_of.
  - intros Hne Hurls. destruct (listed response); [contradiction|].
    destruct urls; [contradiction | reflexivity].
  - intros Hn. split; [exact (Hbound Hn)|].
    intros us. specialize (Hbound Hn).
    destruct (listed response) as [|r rs]; [cbn; contradiction|].
    destruct urls as [|u0 urls0] eqn:Hu; [cbn; contradiction|].
    unfold Main.crawl. cbn [Main.urls Main.instruction].
    assert (Hcases : crawler_ready self_crawler w
                     \/ exists e, self_crawler = false /\ initialize_reply w = inl e).
    { destruct self_crawler; [left; left; reflexivity|].
      destruct (initialize_reply w) as [e|[]] eqn:Hi.
      - right; exists e; split; reflexivity.
      - left; right; exact Hi. }
    destruct Hcases as [Hready | (e & -> & Hinit)].
    + rewrite (run_from_crawl_urls md gt w self_crawler (u0 :: urls0) (Main.query req)
                 [post_of req] Hready).
      rewrite Fetcher.fst_crawl_result. intros Hin.
      apply fetch_calls_bounded in Hin.
      * lia.
      * rewrite engine_calls_app, engine_calls_entry. reflexivity.
    + rewrite (run_from_crawl_urls_not_ready md gt w (u0 :: urls0) (Main.query req)
                 e [post_of req] Hinit).
      cbn. contradiction.
Qed.

(** C8 fails for a negative [limit]: [results[:-1]] drops the last record
    only, so with two records one URL reaches the engine, which is more
    than [limit]. *)
Lemma C8_negative_limit_hands_more :
  let w := searching (Some [ {| url := Some url_a |}; {| url := Some url_b |} ]) in
  let out := run w (Main.search PlainDocs.markdown_markdown PlainDocs.get_text
                      true (request (-1))) in
  engine_calls (fst out) = [[url_a]]
  /\ ~ (Z.of_nat (List.length [url_a]) <= Main.limit (request (-1)))%Z.
Proof.
  split.
  - vm_compute. reflexivity.
  - cbn. lia.
Qed.

Lemma C8_witness :
  let none := searching (Some []) in
  let no_url := searching (Some [ {| url := None |} ]) in
  let some := searching (Some [ {| url := Some url_a |}; {| url := None |};
                                {| url := Some url_b |} ]) in
  let search := Main.search PlainDocs.markdown_markdown PlainDocs.get_text true in
  run none (search (request 2)) = ([post_of (request 2)], inl NoResultsError)
  /\ run no_url (search (request 2)) = ([post_of (request 2)], inl NoValidUrlsError)
  /\ (forall us, In us (engine_calls (fst (run some (search (request 2))))) ->
                 (Z.of_nat (List.length us) <= 2)%Z).
Proof.
  intros none no_url some search. split; [|split].
  - exact (proj1 (C8_search_outcomes PlainDocs.markdown_markdown PlainDocs.get_text
                    true none (request 2) {| results := Some [] |} eq_refl) eq_refl).
  - exact (proj1 (proj2
             (C8_search_outcomes PlainDocs.markdown_markdown PlainDocs.get_text
                true no_url (request 2) {| results := Some [ {| url := None |} ] |}
                eq_refl))
             ltac:(discriminate) eq_refl).
  - exact (proj2 (proj2 (proj2 (proj2 (proj2
             (C8_search_outcomes PlainDocs.markdown_markdown PlainDocs.get_text
                true some (request 2)
                {| results := Some [ {| url := Some url_a |}; {| url := None |};
                                     {| url := Some url_b |} ] |}
                eq_refl))))
             ltac:(cbn; lia))).
Defined.

(** Scenario A of the specification: three URLs, all rendered at once. *)
Example scenario_a :
  let w := searching (Some [ {| url := Some url_a |}; {| url := Some url_b |};
                             {| url := Some url_c |} ]) in
  exists resp,
    run w (Main.search PlainDocs.markdown_markdown PlainDocs.get_text true (request 3))
    = ([post_of (request 3); EvArunMany [url_a; url_b; url_c]], inr resp)
    /\ Response.success_count resp = 3
    /\ Response.failed_urls resp = [].
Proof.
  eexists. split; [vm_compute; reflexivity|]. split; reflexivity.
Qed.

End Orchestrator.

(* ================================================================== *)
(** ** The content normaliser *)

Module NormalizerFacts.
Import PyStr Re Normalizer Spec Examples.
Local Open Scope list_scope.

(** The markup-cleanup scenario of the specification, second stage. *)
Example markup_cleanup :
  markdown_to_text_regex markup_sample
  = ("Title" ++ nl ++ "bold and link and code")%string.
Proof. vm_compute. reflexivity. Qed.

(** [re.sub] returns the subject unchanged when the pattern matches
    nowhere. *)
Lemma sub_from_no_match r tpl : forall s prev,
  found_from r prev s = false -> sub_from r tpl 0 prev s = s.
Proof.
  induction s as [|c s IH]; intros prev H; cbn in *.
  - destruct (match_at r prev EmptyString); [discriminate | reflexivity].
  - destruct (match_at r prev (String c s)); [discriminate|].
    rewrite IH by exact H. reflexivity.
Qed.

Lemma sub_no_match r tpl s : found r s = false -> sub r tpl s = s.
Proof. apply sub_from_no_match. Qed.

Lemma rstrip_idempotent s : rstrip (rstrip s) = rstrip s.
Proof.
  induction s as [|c s IH]; cbn; [reflexivity|].
  destruct (rstrip s) as [|d t] eqn:Hr.
  - destruct (isspace c) eqn:Hc; cbn; [reflexivity | rewrite Hc; reflexivity].
  - cbn [rstrip] in *. rewrite IH. reflexivity.
Qed.

(** A text that does not start with whitespace keeps its first character
    under [rstrip]. *)
Lemma lstrip_rstrip_fixed c s :
  isspace c = false -> lstrip (rstrip (String c s)) = rstrip (String c s).
Proof.
  intros Hc. cbn [rstrip].
  destruct (rstrip s); [rewrite Hc|]; cbn; rewrite Hc; reflexivity.
Qed.

Lemma lstrip_head s :
  lstrip s = EmptyString \/ exists c t, lstrip s = String c t /\ isspace c = false.
Proof.
  induction s as [|c s IH]; cbn; [left; reflexivity|].
  destruct (isspace c) eqn:Hc; [exact IH|].
  right; exists c, s; split; [reflexivity | exact Hc].
Qed.

Lemma strip_idempotent s : strip (strip s) = strip s.
Proof.
  unfold strip.
  destruct (lstrip_head s) as [-> | (c & t & -> & Hc)]; [reflexivity|].
  rewrite (lstrip_rstrip_fixed c t Hc). apply rstrip_idempotent.
Qed.

(** Without a token the second stage only strips. *)
Lemma regex_stage_without_token s :
  has_token s = false -> markdown_to_text_regex s = strip s.
Proof.
  unfold has_token, stage2_patterns. cbn [existsb].
  intros H. repeat (apply orb_false_elim in H; destruct H as [? H]).
  unfold markdown_to_text_regex.
  rewrite (sub_no_match re_heading [] s) by assumption.
  rewrite (sub_no_match re_link [Group 1] s) by assumption.
  rewrite (sub_no_match re_strong [Group 2] s) by assumption.
  rewrite (sub_no_match re_emph [Group 2] s) by assumption.
  rewrite (sub_no_match re_bullet [] s) by assumption.
  rewrite (sub_no_match re_fence [] s) by assumption.
  rewrite (sub_no_match re_code [Group 1] s) by assumption.
  rewrite (sub_no_match re_quote [] s) by assumption.
  reflexivity.
Qed.

(** A pattern that cannot start at a character that is no marker matches
    nowhere in a marker-free text. *)
Lemma marker_free_not_found r :
  (forall prev, match_at r prev EmptyString = None) ->
  (forall prev c s,
     marker c = false -> at_line_start prev && line_marker c = false ->
     match_at r prev (String c s) = None) ->
  forall s prev, marker_free_from prev s = true -> found_from r prev s = false.
Proof.
  intros Hend Hstep.
  induction s as [|c s IH]; intros prev H; cbn [found_from marker_free_from] in *.
  - rewrite Hend. reflexivity.
  - apply andb_prop in H; destruct H as [H Hrest].
    apply andb_prop in H; destruct H as [Hm Hl].
    apply negb_true_iff in Hm, Hl.
    rewrite (Hstep prev c s Hm Hl). apply IH. exact Hrest.
Qed.

(** Split the two character conditions into one equation per character. *)
Ltac marker_facts Hm Hl :=
  unfold marker, line_marker, is_char in Hm, Hl;
  repeat (apply orb_false_elim in Hm; destruct Hm as [Hm ?]).

Ltac no_start :=
  intros prev c s Hm Hl; marker_facts Hm Hl;
  unfold match_at; cbn -[Ascii.eqb];
  unfold is_char, bullet, is_char in *;
  repeat match goal with
         | H : Ascii.eqb _ _ = false |- _ => rewrite H
         end;
  try reflexivity.

Lemma heading_needs_marker : forall s prev,
  marker_free_from prev s = true -> found_from re_heading prev s = false.
Proof.
  apply marker_free_not_found; [intros prev; reflexivity | no_start].
Qed.

Lemma link_needs_marker : forall s prev,
  marker_free_from prev s = true -> found_from re_link prev s = false.
Proof.
  apply marker_free_not_found; [intros prev; reflexivity | no_start].
Qed.

Lemma strong_needs_marker : forall s prev,
  marker_free_from prev s = true -> found_from re_strong prev s = false.
Proof.
  apply marker_free_not_found; [intros prev; reflexivity | no_start].
Qed.

Lemma emph_needs_marker : forall s prev,
  marker_free_from prev s = true -> found_from re_emph prev s = false.
Proof.
  apply marker_free_not_found; [intros prev; reflexivity | no_start].
Qed.

Lemma fence_needs_marker : forall s prev,
  marker_free_from prev s = true -> found_from re_fence prev s = false.
Proof.
  apply marker_free_not_found; [intros prev; reflexivity | no_start].
Qed.

Lemma code_needs_marker : forall s prev,
  marker_free_from prev s = true -> found_from re_code prev s = false.
Proof.
  apply marker_free_not_found; [intros prev; reflexivity | no_start].
Qed.

Ltac no_line_start :=
  intros prev c s Hm Hl; unfold match_at; cbn -[Ascii.eqb];
  unfold at_line_start in Hl;
  destruct prev as [p|]; [destruct (Ascii.eqb p LF); [|reflexivity]|];
  cbn [andb] in Hl;
  unfold marker, line_marker, is_char in Hm, Hl;
  repeat (apply orb_false_elim in Hm; destruct Hm as [Hm ?]);
  repeat (apply orb_false_elim in Hl; destruct Hl as [Hl ?]);
  unfold bullet, is_char;
  repeat match goal with
         | H : Ascii.eqb _ _ = false |- _ => rewrite H
         end;
  reflexivity.

Ltac no_line_end :=
  intros prev; unfold match_at; cbn -[Ascii.eqb];
  destruct prev as [p|]; [destruct (Ascii.eqb p LF)|]; reflexivity.

Lemma bullet_needs_marker : forall s prev,
  marker_free_from prev s = true -> found_from re_bullet prev s = false.
Proof.
  apply marker_free_not_found; [no_line_end | no_line_start].
Qed.

Lemma quote_needs_marker : forall s prev,
  marker_free_from prev s = true -> found_from re_quote prev s = false.
Proof.
  apply marker_free_not_found; [no_line_end | no_line_start].
Qed.

(** A marker-free text holds no token of the second stage. *)
Lemma marker_free_has_no_token s :
  marker_free s = true -> has_token s = false.
Proof.
  intros H. unfold has_token, stage2_patterns, found. cbn [existsb].
  rewrite heading_needs_marker, link_needs_marker, strong_needs_marker,
    emph_needs_marker, bullet_needs_marker, fence_needs_marker,
    code_needs_marker, quote_needs_marker by exact H.
  reflexivity.
Qed.

End NormalizerFacts.

Module NormalizerProps.
Import PyStr Py Re Normalizer Crawler Spec Examples NormalizerFacts.
Local Open Scope list_scope.

Lemma regex_output_stripped z :
  strip (markdown_to_text_regex z) = markdown_to_text_regex z.
Proof. unfold markdown_to_text_regex. apply strip_idempotent. Qed.

(** C9, as the code has it.  Let [y] be the result of one normalisation,
    with no pattern of the second stage matching in it (so in particular
    when it is free of marker characters).  If moreover the line cleanup
    of the first stage leaves [y] as it is (no blank line, no line with
    white space at either end) and the markup conversion keeps the lines
    of [y], then normalising [y] gives [y] again. *)
Theorem C9_idempotent_once_stripped md gt x :
  let y := normalize md gt x in
  clean_lines y = y ->
  clean_lines (gt (md y)) = clean_lines y ->
  (has_token y = false -> normalize md gt (normalize md gt x) = normalize md gt x)
  /\ (marker_free y = true -> normalize md gt (normalize md gt x) = normalize md gt x).
Proof.
  intros y Hclean Hkeeps.
  assert (Hstage1 : markdown_to_text md gt y = y).
  { unfold markdown_to_text. rewrite Hkeeps. exact Hclean. }
  assert (Hfix : has_token y = false -> normalize md gt y = y).
  { intros Htok. unfold normalize at 1. rewrite Hstage1.
    rewrite (regex_stage_without_token y Htok).
    subst y. unfold normalize. apply regex_output_stripped. }
  split.
  - exact Hfix.
  - intros Hfree. apply Hfix. apply marker_free_has_no_token. exact Hfree.
Qed.

Lemma C9_witness :
  normalize PlainDocs.markdown_markdown PlainDocs.get_text plain_sample
    = ("hello world" ++ nl ++ "second line - as is")%string
  /\ normalize PlainDocs.markdown_markdown PlainDocs.get_text
       (normalize PlainDocs.markdown_markdown PlainDocs.get_text plain_sample)
     = normalize PlainDocs.markdown_markdown PlainDocs.get_text plain_sample.
Proof.
  split; [vm_compute; reflexivity|].
  apply (C9_idempotent_once_stripped PlainDocs.markdown_markdown PlainDocs.get_text
           plain_sample).
  - vm_compute. reflexivity.
  - vm_compute. reflexivity.
  - vm_compute. reflexivity.
Defined.

(** C9 fails when the second stage leaves a blank line behind: in
    [empty_code_sample] the pair of backticks is removed by the last but
    one pattern, the result has no markup token left, and a second pass
    drops the blank line. *)
Lemma C9_blank_line_is_not_stable :
  let normalize' := normalize PlainDocs.markdown_markdown PlainDocs.get_text in
  let y := normalize' empty_code_sample in
  y = ("a" ++ nl ++ nl ++ "c")%string
  /\ has_token y = false
  /\ marker_free y = true
  /\ normalize' y = ("a" ++ nl ++ "c")%string
  /\ normalize' (normalize' empty_code_sample) <> normalize' empty_code_sample.
Proof.
  cbv zeta. repeat split; try (vm_compute; reflexivity).
  vm_compute. discriminate.
Qed.

(** C7, as the code has it.  For the blocks ["A"] and ["B"], given that
    the text extracted from the rendered HTML holds the three paragraphs
    (the two blocks and the line of [=] between them), the content is
    ["A"], the line of ten [=], and ["B"], on three lines: the second
    stage takes the [=] neither for emphasis nor for a heading marker and
    leaves the separator line in place; only the blank lines around it go. *)
Theorem C7_separator_survives md gt failed retry :
  gt (md (join separator ["A"; "B"]%string)) = a_sep_b_text ->
  build_response md gt
    {| all_results := ["A"; "B"]%string; failed_urls := failed; retry_urls := retry |}
  = Ret {| Response.content := a_sep_b;
           Response.success_count := 2;
           Response.failed_urls := failed |}
  /\ contains_char "=" a_sep_b = true
  /\ has_token a_sep_b = false
  /\ markdown_to_text_regex a_sep_b = a_sep_b.
Proof.
  intros Htext. split; [|split; [|split]]; try (vm_compute; reflexivity).
  unfold build_response. cbn [all_results failed_urls].
  unfold markdown_to_text. rewrite Htext.
  vm_compute. reflexivity.
Qed.

Lemma C7_witness :
  build_response PlainDocs.markdown_markdown PlainDocs.get_text
    {| all_results := ["A"; "B"]%string; failed_urls := [url_c]; retry_urls := [url_c] |}
  = Ret {| Response.content := a_sep_b;
           Response.success_count := 2;
           Response.failed_urls := [url_c] |}.
Proof.
  refine (proj1 (C7_separator_survives PlainDocs.markdown_markdown PlainDocs.get_text
                   [url_c] [url_c] _)).
  vm_compute. reflexivity.
Defined.

(** C7 fails: the [=] of the separator are in the content. *)
Lemma C7_separator_in_content :
  exists resp,
    build_response PlainDocs.markdown_markdown PlainDocs.get_text
      {| all_results := ["A"; "B"]%string; failed_urls := []; retry_urls := [] |}
    = Ret resp
    /\ Response.content resp = a_sep_b
    /\ contains_char "=" (Response.content resp) = true.
Proof.
  eexists. split; [vm_compute; reflexivity|]. split; vm_compute; reflexivity.
Qed.

(** The same through [crawl_urls], where every block ends with two
    newlines. *)
Example two_pages :
  run (scripted [rendered "A"; rendered "B"] [])
      (crawl_urls PlainDocs.markdown_markdown PlainDocs.get_text true
                  [url_a; url_b] "q")
  = ([EvArunMany [url_a; url_b]],
     inr {| Response.content := a_sep_b;
            Response.success_count := 2;
            Response.failed_urls := [] |}).
Proof. vm_compute. reflexivity. Qed.

End NormalizerProps.

(* ================================================================== *)
(** ** More on [crawl_urls]: what every run keeps *)

Module CrawlFacts.
Import PyStr Py Crawler Spec Notions LoopFacts RunFacts Fetcher Examples.
Local Open Scope list_scope.

Lemma subseq_nil_l {A} (l : list A) : subseq [] l.
Proof. induction l; constructor; assumption. Qed.

Lemma subseq_refl {A} (l : list A) : subseq l l.
Proof. induction l; constructor; assumption. Qed.

Lemma subseq_trans {A} (l1 l2 l3 : list A) :
  subseq l1 l2 -> subseq l2 l3 -> subseq l1 l3.
Proof.
  intros H12 H23. revert l1 H12.
  induction H23 as [|x l2 l3 H IH|x l2 l3 H IH]; intros l1 H12.
  - exact H12.
  - constructor. apply IH. exact H12.
  - inversion H12; subst.
    + constructor. apply IH. assumption.
    + apply subseq_keep. apply IH. assumption.
Qed.

Lemma subseq_length {A} (l1 l2 : list A) :
  subseq l1 l2 -> List.length l1 <= List.length l2.
Proof. induction 1; cbn; lia. Qed.

Lemma subseq_in {A} (l1 l2 : list A) x : subseq l1 l2 -> In x l1 -> In x l2.
Proof.
  induction 1; cbn; intros Hin; auto.
  destruct Hin as [->|Hin]; auto.
Qed.

Lemma rejected_subseq urls : forall results, subseq (rejected urls results) urls.
Proof.
  induction urls as [|u urls IH]; intros [|r rs]; cbn; try apply subseq_nil_l.
  destruct (usable r); constructor; apply IH.
Qed.

(** Within the outcomes that have a URL, blocks and rejected URLs add up. *)
Lemma blocks_plus_rejected results : forall urls,
  List.length results <= List.length urls ->
  List.length (blocks results) + List.length (rejected urls results)
  = List.length results.
Proof.
  induction results as [|r rs IH]; intros [|u urls] Hlen; cbn in *; try lia.
  unfold usable. destruct (classify r); cbn; rewrite <- (IH urls) by lia; lia.
Qed.


(** Either the crawler is usable or its initialisation fails. *)
Lemma ready_or_not self_crawler (w : world) :
  crawler_ready self_crawler w
  \/ exists e, self_crawler = false /\ initialize_reply w = inl e.
Proof.
  destruct self_crawler; [left; left; reflexivity|].
  destruct (initialize_reply w) as [e|[]] eqn:Hi.
  - right; exists e; split; reflexivity.
  - left; right; exact Hi.
Qed.

(** Every run of [fetch] that ends with lists. *)
Lemma fetch_lists (w : world) tr0 urls tr st :
  engine_calls tr0 = [] ->
  run_from w tr0 (fetch urls) = (tr, inr st) ->
  exists rs1 rs2,
    passes w urls rs1 rs2
    /\ st = merged urls rs1 rs2
    /\ engine_calls tr = expected_calls urls rs1.
Proof.
  intros Htr0 Hrun.
  pose proof (fetch_runs w tr0 urls) as Hf.
  rewrite Hrun in Hf.
  inversion Hf as [ e' Hr1
                  | rs1' Hr1 Hover1
                  | rs1' Hr1 Hfit1 Hnone
                  | rs1' e' Hr1 Hfit1 Hsome Hr2
                  | rs1' rs2' Hr1 Hfit1 Hsome Hr2 Hover2
                  | rs1' rs2' Hr1 Hfit1 Hsome Hr2 Hfit2 ]; subst;
    rewrite ?Htr0 in *; cbn [List.length] in *.
  - exists rs1', []. unfold passes, merged, expected_calls. rewrite Hnone.
    rewrite engine_calls_app, Htr0. cbn. rewrite app_nil_r.
    repeat split; assumption.
  - exists rs1', rs2'. unfold passes, merged, expected_calls.
    rewrite engine_calls_app, Htr0. cbn [engine_calls app].
    destruct (rejected urls rs1') as [|u retry] eqn:Hrej; [contradiction|].
    repeat split; assumption.
Qed.

(** Every response of [crawl_urls] comes from the lists of a run of
    [fetch] with at least one block. *)
Lemma response_lists_from md gt (w : world) self_crawler urls instruction tr0 resp :
  engine_calls tr0 = [] ->
  snd (run_from w tr0 (crawl_urls md gt self_crawler urls instruction)) = inr resp ->
  exists rs1 rs2 b bs,
    passes w urls rs1 rs2
    /\ blocks rs1 ++ blocks rs2 = b :: bs
    /\ resp = response_of md gt (merged urls rs1 rs2)
    /\ engine_calls
         (fst (run_from w tr0 (crawl_urls md gt self_crawler urls instruction)))
       = expected_calls urls rs1.
Proof.
  intros Htr0.
  destruct (ready_or_not self_crawler w) as [Hready | (e & -> & Hinit)].
  - rewrite (run_from_crawl_urls md gt w self_crawler urls instruction tr0 Hready).
    rewrite fst_crawl_result.
    destruct (run_from w (tr0 ++ entry_trace self_crawler) (fetch urls))
      as [tr [e|st]] eqn:Hrun;
      cbn [crawl_result snd fst]; [discriminate|].
    assert (Htr : engine_calls (tr0 ++ entry_trace self_crawler) = [])
      by (rewrite engine_calls_app, Htr0, engine_calls_entry; reflexivity).
    destruct (fetch_lists w _ urls tr st Htr Hrun) as (rs1 & rs2 & Hp & -> & Hcalls).
    cbn [merged all_results].
    destruct (blocks rs1 ++ blocks rs2) as [|b bs] eqn:Hb; cbn [snd]; [discriminate|].
    intros Hresp. injection Hresp as <-.
    exists rs1, rs2, b, bs. unfold merged. rewrite Hb.
    split; [exact Hp|]. split; [reflexivity|]. split; [reflexivity | exact Hcalls].
  - rewrite (run_from_crawl_urls_not_ready md gt w urls instruction e tr0 Hinit).
    cbn. discriminate.
Qed.

Lemma response_lists md gt (w : world) self_crawler urls instruction resp :
  snd (run w (crawl_urls md gt self_crawler urls instruction)) = inr resp ->
  exists rs1 rs2 b bs,
    passes w urls rs1 rs2
    /\ blocks rs1 ++ blocks rs2 = b :: bs
    /\ resp = response_of md gt (merged urls rs1 rs2)
    /\ engine_calls (fst (run w (crawl_urls md gt self_crawler urls instruction)))
       = expected_calls urls rs1.
Proof.
  apply (response_lists_from md gt w self_crawler urls instruction []). reflexivity.
Qed.

Lemma passes_lengths (w : world) urls rs1 rs2 :
  passes w urls rs1 rs2 ->
  List.length rs1 <= List.length urls
  /\ List.length rs2 <= List.length (rejected urls rs1).
Proof.
  intros (_ & Hlen1 & H2). split; [exact Hlen1|].
  destruct (rejected urls rs1) as [|u retry]; [subst; cbn; lia|].
  cbv zeta in H2. destruct H2 as [_ H2]. exact H2.
Qed.

(** The lists after both passes: blocks and failed URLs are no more than
    the outcomes of the first answer, and the failed URLs are URLs of the
    batch in batch order. *)
Lemma merged_accounting (w : world) urls rs1 rs2 :
  passes w urls rs1 rs2 ->
  List.length (blocks rs1 ++ blocks rs2)
  + List.length (rejected (rejected urls rs1) rs2) <= List.length rs1
  /\ List.length rs1 <= List.length urls
  /\ subseq (rejected (rejected urls rs1) rs2) urls.
Proof.
  intros Hp.
  destruct (passes_lengths w urls rs1 rs2 Hp) as [Hlen1 Hlen2].
  pose proof (blocks_plus_rejected rs1 urls Hlen1) as H1.
  pose proof (blocks_plus_rejected rs2 (rejected urls rs1) Hlen2) as H2.
  split; [rewrite length_app; lia|]. split; [exact Hlen1|].
  eapply subseq_trans; apply rejected_subseq.
Qed.

(** X1. Every response of [crawl_urls], in every world: at least one page was
    rendered, pages and failed URLs together are no more than the batch,
    and [failed_urls] lists URLs of the batch in batch order. *)
Theorem response_accounting md gt (w : world) self_crawler urls instruction resp :
  snd (run w (crawl_urls md gt self_crawler urls instruction)) = inr resp ->
  1 <= Response.success_count resp
  /\ Response.success_count resp + List.length (Response.failed_urls resp)
     <= List.length urls
  /\ subseq (Response.failed_urls resp) urls.
Proof.
  intros Hresp.
  destruct (response_lists md gt w self_crawler urls instruction resp Hresp)
    as (rs1 & rs2 & b & bs & Hp & Hb & -> & _).
  destruct (passes_lengths w urls rs1 rs2 Hp) as [Hlen1 Hlen2].
  pose proof (blocks_plus_rejected rs1 urls Hlen1) as H1.
  pose proof (blocks_plus_rejected rs2 (rejected urls rs1) Hlen2) as H2.
  cbn [response_of merged Response.success_count Response.failed_urls
       all_results failed_urls].
  split; [rewrite Hb; cbn; lia|]. split.
  - rewrite length_app. lia.
  - eapply subseq_trans; apply rejected_subseq.
Qed.

Lemma response_accounting_witness :
  let resp := {| Response.content := "B"; Response.success_count := 1;
                 Response.failed_urls := [url_a] |} in
  1 <= Response.success_count resp
  /\ Response.success_count resp + List.length (Response.failed_urls resp) <= 2
  /\ subseq (Response.failed_urls resp) [url_a; url_b].
Proof.
  intros resp.
  exact (response_accounting PlainDocs.markdown_markdown PlainDocs.get_text
           (scripted [unsuccessful; rendered "B"] [None]) true [url_a; url_b] "q"
           resp ltac:(vm_compute; reflexivity)).
Defined.

(** X2. The content of every response is free of white space at both ends. *)
Theorem response_content_is_stripped
    md gt (w : world) self_crawler urls instruction resp :
  snd (run w (crawl_urls md gt self_crawler urls instruction)) = inr resp ->
  strip (Response.content resp) = Response.content resp.
Proof.
  intros Hresp.
  destruct (response_lists md gt w self_crawler urls instruction resp Hresp)
    as (rs1 & rs2 & b & bs & _ & _ & -> & _).
  cbn [response_of Response.content]. unfold Normalizer.normalize.
  apply NormalizerProps.regex_output_stripped.
Qed.

Lemma response_content_is_stripped_witness :
  strip "B" = "B"%string.
Proof.
  exact (response_content_is_stripped PlainDocs.markdown_markdown PlainDocs.get_text
           (scripted [unsuccessful; rendered "B"] [None]) true [url_a; url_b] "q"
           {| Response.content := "B"; Response.success_count := 1;
              Response.failed_urls := [url_a] |}
           ltac:(vm_compute; reflexivity)).
Defined.

(** X4. An answer of the engine with more outcomes than URLs makes the loop
    read past the end of its URL list: [crawl_urls] fails with the
    [IndexError] wrapped in a 500, on the first pass after one call and on
    the retry after two, whatever was rendered. *)
Theorem more_outcomes_than_urls
    md gt (w : world) self_crawler urls instruction rs1 :
  crawler_ready self_crawler w ->
  arun_many_reply w 0 urls = inr rs1 ->
  let out := run w (crawl_urls md gt self_crawler urls instruction) in
  (List.length urls < List.length rs1 ->
     out = (entry_trace self_crawler ++ [EvArunMany urls],
            inl (HTTPException 500 (Str IndexError))))
  /\ (forall rs2,
        List.length rs1 <= List.length urls ->
        rejected urls rs1 <> [] ->
        arun_many_reply w 1 (rejected urls rs1) = inr rs2 ->
        List.length (rejected urls rs1) < List.length rs2 ->
        out = (entry_trace self_crawler
                 ++ [EvArunMany urls; EvArunMany (rejected urls rs1)],
               inl (HTTPException 500 (Str IndexError)))).
Proof.
  intros Hready H1 out. subst out.
  rewrite (run_crawl_urls md gt w self_crawler urls instruction Hready).
  split.
  - intros Hover.
    fetch_cases w self_crawler urls; try congruence;
      assert (rs1' = rs1) by congruence; subst rs1'; try lia; reflexivity.
  - intros rs2 Hfit Hne H2 Hover.
    fetch_cases w self_crawler urls; try congruence;
      assert (rs1' = rs1) by congruence; subst rs1'; try lia; try contradiction;
      try congruence.
    + reflexivity.
    + assert (rs2' = rs2) by congruence. subst rs2'. lia.
Qed.

Lemma more_outcomes_than_urls_witness :
  run (scripted [rendered "A"; rendered "B"] [])
      (crawl_urls PlainDocs.markdown_markdown PlainDocs.get_text true [url_a] "q")
  = ([EvArunMany [url_a]], inl (HTTPException 500 (Str IndexError)))
  /\ run (scripted [unsuccessful; rendered "B"] [None; rendered "A"])
         (crawl_urls PlainDocs.markdown_markdown PlainDocs.get_text true
                     [url_a; url_b] "q")
     = ([EvArunMany [url_a; url_b]; EvArunMany [url_a]],
        inl (HTTPException 500 (Str IndexError))).
Proof.
  split.
  - exact (proj1 (more_outcomes_than_urls PlainDocs.markdown_markdown
                    PlainDocs.get_text (scripted [rendered "A"; rendered "B"] [])
                    true [url_a] "q" [rendered "A"; rendered "B"]
                    (or_introl eq_refl) eq_refl)
             ltac:(cbn; lia)).
  - exact (proj2 (more_outcomes_than_urls PlainDocs.markdown_markdown
                    PlainDocs.get_text
                    (scripted [unsuccessful; rendered "B"] [None; rendered "A"])
                    true [url_a; url_b] "q" [unsuccessful; rendered "B"]
                    (or_introl eq_refl) eq_refl)
             [None; rendered "A"] ltac:(cbn; lia) ltac:(cbn; discriminate)
             eq_refl ltac:(cbn; lia)).
Defined.



End CrawlFacts.

(* ================================================================== *)
(** ** More on [search] and [make_searxng_request] *)

Module SearchFacts.
Import PyStr Py Crawler Spec Notions LoopFacts RunFacts Fetcher Examples CrawlFacts.
Local Open Scope list_scope.

Lemma in_firstn {A} (x : A) n : forall l, In x (firstn n l) -> In x l.
Proof.
  induction n as [|n IH]; intros [|a l]; cbn; try tauto.
  intros [H|H]; [left; exact H | right; apply IH; exact H].
Qed.

Lemma slice_to_nothing {A} (l : list A) (n : Z) :
  (n = 0 \/ n <= - Z.of_nat (List.length l))%Z -> Main.slice_to l n = [].
Proof.
  intros Hn. unfold Main.slice_to.
  destruct (n <? 0)%Z eqn:Hneg.
  - apply Z.ltb_lt in Hneg.
    replace (Z.to_nat (Z.max 0 (Z.of_nat (List.length l) + n))) with 0 by lia.
    reflexivity.
  - apply Z.ltb_ge in Hneg. replace n with 0%Z by lia. reflexivity.
Qed.

Lemma slice_to_everything {A} (l : list A) (n : Z) :
  (Z.of_nat (List.length l) <= n)%Z -> Main.slice_to l n = l.
Proof.
  intros Hn. unfold Main.slice_to.
  destruct (n <? 0)%Z eqn:Hneg; [apply Z.ltb_lt in Hneg; lia|].
  apply firstn_all2. lia.
Qed.

(** [search] when the exchange with SearXNG fails. *)
Lemma run_search_unreachable md gt self_crawler (w : world) req e :
  searxng_reply w (Main.query req) (Main.disabled_engines req)
                (Main.enabled_engines req) = inl e ->
  run w (Main.search md gt self_crawler req)
  = ([post_of req],
     inl (HTTPException 500
            (Str (Exception_ (Fmt Main.request_failed_prefix (Str e)))))).
Proof.
  intros Hreply. unfold run, Main.search, Main.make_searxng_request.
  rewrite run_from_try_except, run_from_bind, run_from_try_except.
  cbn. rewrite Hreply. reflexivity.
Qed.

(** X8. [make_searxng_request] makes one exchange, hands the decoded answer
    back as it is whatever [limit] says, and turns any failure of the
    exchange into a fresh [Exception] that quotes it; [search] reports
    that as a 500 without initialising or calling the engine. *)
Theorem searxng_failure_is_a_500 md gt self_crawler (w : world) req :
  let reply := searxng_reply w (Main.query req) (Main.disabled_engines req)
                             (Main.enabled_engines req) in
  let request := Main.make_searxng_request (Main.query req) (Main.limit req)
                   (Main.disabled_engines req) (Main.enabled_engines req) in
  (forall response, reply = inr response ->
     run w request = ([post_of req], inr response))
  /\ (forall e, reply = inl e ->
        run w request
        = ([post_of req],
           inl (Exception_ (Fmt Main.request_failed_prefix (Str e))))
        /\ run w (Main.search md gt self_crawler req)
           = ([post_of req],
              inl (HTTPException 500
                     (Str (Exception_ (Fmt Main.request_failed_prefix (Str e))))))).
Proof.
  cbv zeta. split.
  - intros response Hreply. unfold run, Main.make_searxng_request.
    rewrite run_from_try_except. cbn. rewrite Hreply. reflexivity.
  - intros e Hreply. split.
    + unfold run, Main.make_searxng_request.
      rewrite run_from_try_except. cbn. rewrite Hreply. reflexivity.
    + apply run_search_unreachable. exact Hreply.
Qed.

Lemma searxng_failure_is_a_500_witness :
  run (searching (Some []))
      (Main.make_searxng_request "test" 2 "" "")
  = ([post_of (request 2)], inr {| results := Some [] |})
  /\ run (unreachable refused)
         (Main.search PlainDocs.markdown_markdown PlainDocs.get_text true (request 2))
     = ([post_of (request 2)],
        inl (HTTPException 500
               (Str (Exception_ (Fmt Main.request_failed_prefix (Str refused)))))).
Proof.
  split.
  - exact (proj1 (searxng_failure_is_a_500 PlainDocs.markdown_markdown
                    PlainDocs.get_text true (searching (Some [])) (request 2))
             {| results := Some [] |} eq_refl).
  - exact (proj2 (proj2 (searxng_failure_is_a_500 PlainDocs.markdown_markdown
                           PlainDocs.get_text true (unreachable refused) (request 2))
                    refused eq_refl)).
Defined.

(** X10. A [limit] of zero, or one at or below minus the number of records,
    leaves no record to look at: although SearXNG found results, [search]
    fails with the no-valid-URL error and crawls nothing. *)
Theorem limit_out_of_range_finds_nothing md gt self_crawler (w : world) req response :
  searxng_reply w (Main.query req) (Main.disabled_engines req)
                (Main.enabled_engines req) = inr response ->
  listed response <> [] ->
  (Main.limit req = 0
   \/ Main.limit req <= - Z.of_nat (List.length (listed response)))%Z ->
  run w (Main.search md gt self_crawler req)
  = ([post_of req], inl NoValidUrlsError).
Proof.
  intros Hreply Hne Hlimit.
  rewrite (Orchestrator.run_search md gt self_crawler w req response Hreply).
  rewrite (slice_to_nothing (listed response) (Main.limit req) Hlimit).
  destruct (listed response); [contradiction | reflexivity].
Qed.

Lemma limit_out_of_range_finds_nothing_witness :
  let w := searching (Some [ {| url := Some url_a |}; {| url := Some url_b |} ]) in
  let search := Main.search PlainDocs.markdown_markdown PlainDocs.get_text true in
  run w (search (request 0)) = ([post_of (request 0)], inl NoValidUrlsError)
  /\ run w (search (request (-2))) = ([post_of (request (-2))], inl NoValidUrlsError).
Proof.
  intros w search. split.
  - exact (limit_out_of_range_finds_nothing PlainDocs.markdown_markdown
             PlainDocs.get_text true w (request 0)
             {| results := Some [ {| url := Some url_a |}; {| url := Some url_b |} ] |}
             eq_refl ltac:(discriminate) (or_introl eq_refl)).
  - refine (limit_out_of_range_finds_nothing PlainDocs.markdown_markdown
              PlainDocs.get_text true w (request (-2))
              {| results := Some [ {| url := Some url_a |}; {| url := Some url_b |} ] |}
              eq_refl _ (or_intror _)).
    + discriminate.
    + cbn. lia.
Defined.

(** X11. A [limit] at or above the number of records truncates nothing: the
    URLs of all records that have one are crawled, in the order of the
    answer. *)
Theorem large_limit_keeps_every_url md gt self_crawler (w : world) req response :
  searxng_reply w (Main.query req) (Main.disabled_engines req)
                (Main.enabled_engines req) = inr response ->
  (Z.of_nat (List.length (listed response)) <= Main.limit req)%Z ->
  Main.urls_of (listed response) <> [] ->
  run w (Main.search md gt self_crawler req)
  = run_from w [post_of req]
      (crawl_urls md gt self_crawler (Main.urls_of (listed response)) (Main.query req)).
Proof.
  intros Hreply Hlimit Hurls.
  rewrite (Orchestrator.run_search md gt self_crawler w req response Hreply).
  rewrite (slice_to_everything (listed response) (Main.limit req) Hlimit).
  destruct (listed response) as [|r rs]; [cbn in Hurls; contradiction|].
  destruct (Main.urls_of (r :: rs)); [contradiction | reflexivity].
Qed.

Lemma large_limit_keeps_every_url_witness :
  let w := searching (Some [ {| url := Some url_a |}; {| url := None |};
                             {| url := Some url_b |} ]) in
  run w (Main.search PlainDocs.markdown_markdown PlainDocs.get_text true (request 10))
  = run_from w [post_of (request 10)]
      (crawl_urls PlainDocs.markdown_markdown PlainDocs.get_text true
                  [url_a; url_b] "test").
Proof.
  intros w.
  exact (large_limit_keeps_every_url PlainDocs.markdown_markdown PlainDocs.get_text
           true w (request 10)
           {| results := Some [ {| url := Some url_a |}; {| url := None |};
                                {| url := Some url_b |} ] |}
           eq_refl ltac:(cbn; lia) ltac:(cbn; discriminate)).
Defined.

Lemma slice_to_negative {A} (l : list A) (n : Z) :
  (n < 0)%Z ->
  Main.slice_to l n = firstn (List.length l - Z.to_nat (- n)) l.
Proof.
  intros Hn. unfold Main.slice_to.
  destruct (n <? 0)%Z eqn:Hneg; [|apply Z.ltb_ge in Hneg; lia].
  f_equal. lia.
Qed.

(** X23. A negative [limit] does not bound the number of URLs: it makes
    [search] ignore that many records at the end of the answer and crawl
    the URLs of the records before them. *)
Theorem negative_limit_drops_the_tail md gt self_crawler (w : world) req response :
  searxng_reply w (Main.query req) (Main.disabled_engines req)
                (Main.enabled_engines req) = inr response ->
  (Main.limit req < 0)%Z ->
  let kept := firstn (List.length (listed response) - Z.to_nat (- Main.limit req))
                     (listed response) in
  Main.urls_of kept <> [] ->
  run w (Main.search md gt self_crawler req)
  = run_from w [post_of req]
      (crawl_urls md gt self_crawler (Main.urls_of kept) (Main.query req)).
Proof.
  intros Hreply Hlimit kept Hurls. subst kept.
  rewrite (Orchestrator.run_search md gt self_crawler w req response Hreply).
  rewrite (slice_to_negative (listed response) (Main.limit req) Hlimit).
  destruct (listed response) as [|r rs] eqn:Hl.
  - rewrite firstn_nil in Hurls. cbn in Hurls. contradiction.
  - destruct (Main.urls_of _); [contradiction | reflexivity].
Qed.

Lemma negative_limit_drops_the_tail_witness :
  let w := searching (Some [ {| url := Some url_a |}; {| url := Some url_b |};
                             {| url := Some url_c |} ]) in
  run w (Main.search PlainDocs.markdown_markdown PlainDocs.get_text true (request (-1)))
  = run_from w [post_of (request (-1))]
      (crawl_urls PlainDocs.markdown_markdown PlainDocs.get_text true
                  [url_a; url_b] "test").
Proof.
  intros w.
  refine (negative_limit_drops_the_tail PlainDocs.markdown_markdown PlainDocs.get_text
            true w (request (-1))
            {| results := Some [ {| url := Some url_a |}; {| url := Some url_b |};
                                 {| url := Some url_c |} ] |}
            eq_refl _ _).
  - cbn. lia.
  - cbn. discriminate.
Defined.

(** X12. Every response of [search] under a non-negative [limit]: pages and
    failed URLs together are no more than [limit], and every failed URL
    is the URL of one of the records that SearXNG returned. *)
Theorem search_response_within_limit md gt self_crawler (w : world) req response resp :
  searxng_reply w (Main.query req) (Main.disabled_engines req)
                (Main.enabled_engines req) = inr response ->
  (0 <= Main.limit req)%Z ->
  snd (run w (Main.search md gt self_crawler req)) = inr resp ->
  (Z.of_nat (Response.success_count resp + List.length (Response.failed_urls resp))
   <= Main.limit req)%Z
  /\ 1 <= Response.success_count resp
  /\ (forall u, In u (Response.failed_urls resp) ->
                In {| url := Some u |} (listed response)).
Proof.
  intros Hreply Hlimit.
  rewrite (Orchestrator.run_search md gt self_crawler w req response Hreply).
  destruct (listed response) as [|r rs] eqn:Hl; [discriminate|].
  destruct (Main.urls_of (Main.slice_to (r :: rs) (Main.limit req)))
    as [|u us] eqn:Hu; [discriminate|].
  unfold Main.crawl. cbn [Main.urls Main.instruction]. intros Hresp.
  destruct (response_lists_from md gt w self_crawler (u :: us) (Main.query req)
              [post_of req] resp eq_refl Hresp)
    as (rs1 & rs2 & b & bs & Hp & Hb & -> & _).
  destruct (merged_accounting w (u :: us) rs1 rs2 Hp) as (Hsum & Hlen1 & Hsub).
  cbn [response_of merged Response.success_count Response.failed_urls
       all_results failed_urls].
  pose proof (Orchestrator.length_urls_of (Main.slice_to (r :: rs) (Main.limit req)))
    as Hk.
  pose proof (Orchestrator.length_slice_to (r :: rs) (Main.limit req) Hlimit) as Hs.
  rewrite Hu in Hk.
  split; [lia|]. split; [rewrite Hb; cbn; lia|].
  intros v Hv.
  pose proof (subseq_in _ _ v Hsub Hv) as Hin. rewrite <- Hu in Hin.
  apply Orchestrator.in_urls_of in Hin.
  unfold Main.slice_to in Hin. eapply in_firstn. exact Hin.
Qed.

Lemma search_response_within_limit_witness :
  (Z.of_nat (3 + 0) <= 3)%Z /\ 1 <= 3.
Proof.
  destruct (search_response_within_limit PlainDocs.markdown_markdown
              PlainDocs.get_text true
              (searching (Some [ {| url := Some url_a |}; {| url := Some url_b |};
                                 {| url := Some url_c |} ]))
              (request 3)
              {| results := Some [ {| url := Some url_a |}; {| url := Some url_b |};
                                   {| url := Some url_c |} ] |}
              {| Response.content :=
                   Normalizer.normalize PlainDocs.markdown_markdown PlainDocs.get_text
                     (join separator
                        [ ("page " ++ url_a ++ nlnl)%string;
                          ("page " ++ url_b ++ nlnl)%string;
                          ("page " ++ url_c ++ nlnl)%string ]);
                 Response.success_count := 3;
                 Response.failed_urls := [] |}
              eq_refl ltac:(cbn; lia) ltac:(vm_compute; reflexivity))
    as (H1 & H2 & _).
  exact (conj H1 H2).
Defined.

End SearchFacts.

(* ================================================================== *)
(** ** What leaves [crawl_urls] and [search] when something is raised *)

Module BaseExceptionFacts.
Import PyStr Py Crawler Spec Notions LoopFacts RunFacts Examples BaseExceptions.
Local Open Scope list_scope.

Lemma coro_run_from_bind {A B} (w : world) (p : coro A) (f : A -> coro B) :
  forall tr,
    run_from w tr (bind p f) =
      match run_from w tr p with
      | (tr', inr a) => run_from w tr' (f a)
      | (tr', inl b) => (tr', inl b)
      end.
Proof.
  induction p as [a|b|X c k IH]; intros tr; cbn; try reflexivity.
  apply IH.
Qed.

Lemma coro_run_from_try_except {A} (w : world) (p : coro A) (h : exn -> coro A) :
  forall tr,
    run_from w tr (try_except p h) =
      match run_from w tr p with
      | (tr', inr a) => (tr', inr a)
      | (tr', inl (Exc e)) => run_from w tr' (h e)
      | (tr', inl (BaseOnly cls)) => (tr', inl (BaseOnly cls))
      end.
Proof.
  induction p as [a|[e|cls]|X c k IH]; intros tr; cbn; try reflexivity.
  apply IH.
Qed.

(** *** On the answers of a world of [Py] the coroutines are the programs
    of [Py] *)

Lemma matches_bind {A B} (p : prog A) (q : coro A) (f : A -> prog B) (g : A -> coro B) :
  matches p q -> (forall a, matches (f a) (g a)) ->
  matches (Py.bind p f) (bind q g).
Proof.
  intros Hpq Hfg. induction Hpq as [a|e|X c k k' _ IH]; cbn.
  - apply Hfg.
  - constructor.
  - constructor. exact IH.
Qed.

Lemma matches_try_except {A} (p : prog A) (q : coro A)
    (h : exn -> prog A) (h' : exn -> coro A) :
  matches p q -> (forall e, matches (h e) (h' e)) ->
  matches (Py.try_except p h) (try_except q h').
Proof.
  intros Hpq Hh. induction Hpq as [a|e|X c k k' _ IH]; cbn.
  - constructor.
  - apply Hh.
  - constructor. exact IH.
Qed.

Lemma matches_await {X} (c : call X) : matches (Py.await c) (await c).
Proof.
  constructor. intros [e|x]; constructor.
Qed.

Lemma matches_exec m st : matches (Crawler.exec m st) (exec m st).
Proof.
  unfold Crawler.exec, exec. destruct (m st) as [st' [e|u]]; constructor.
Qed.

Lemma matches_build_response md gt st :
  matches (Crawler.build_response md gt st) (build_response md gt st).
Proof.
  unfold Crawler.build_response, build_response.
  destruct (all_results st); constructor.
Qed.

Lemma matches_fetch urls : matches (Crawler.fetch urls) (fetch urls).
Proof.
  unfold Crawler.fetch, fetch.
  apply matches_bind; [apply matches_await|]. intros results.
  apply matches_bind; [apply matches_exec|]. intros st.
  destruct (retry_urls st); [constructor|].
  apply matches_bind; [apply matches_await|]. intros retry_results.
  apply matches_exec.
Qed.

Lemma matches_crawl_urls md gt self_crawler urls instruction :
  matches (Crawler.crawl_urls md gt self_crawler urls instruction)
          (crawl_urls md gt self_crawler urls instruction).
Proof.
  unfold Crawler.crawl_urls, crawl_urls.
  apply matches_try_except; [|intros e; constructor].
  apply matches_bind.
  - destruct self_crawler; [constructor | apply matches_await].
  - intros _. apply matches_bind; [apply matches_fetch|].
    intros st. apply matches_build_response.
Qed.

Lemma matches_search md gt self_crawler req :
  matches (Main.search md gt self_crawler req) (search md gt self_crawler req).
Proof.
  unfold Main.search, search.
  apply matches_try_except; [|intros e; destruct e; constructor].
  apply matches_bind.
  - unfold Main.make_searxng_request, make_searxng_request.
    apply matches_try_except; [apply matches_await | intros e; constructor].
  - intros response.
    destruct (results response) as [[|r rs]|]; try constructor.
    destruct (Main.urls_of _); [constructor|].
    apply matches_crawl_urls.
Qed.

Lemma answer_plain (w : Py.world) tr {X} (c : call X) :
  answer (plain w) tr c = of_exception (Py.answer w tr c).
Proof. destruct c; reflexivity. Qed.

Lemma matches_run {A} (w : Py.world) (p : prog A) (q : coro A) :
  matches p q ->
  forall tr, run_from (plain w) tr q = seen (Py.run_from w tr p).
Proof.
  intros Hpq. induction Hpq as [a|e|X c k k' _ IH]; intros tr; cbn;
    try reflexivity.
  rewrite answer_plain. apply IH.
Qed.

(** In a world of [Py], [crawl_urls] and [search] make the calls and end
    as their embeddings over [Py] do. *)
Lemma agree_on_plain_worlds md gt self_crawler (w : Py.world) :
  (forall urls instruction,
     run (plain w) (crawl_urls md gt self_crawler urls instruction)
     = seen (Py.run w (Crawler.crawl_urls md gt self_crawler urls instruction)))
  /\ (forall req,
        run (plain w) (search md gt self_crawler req)
        = seen (Py.run w (Main.search md gt self_crawler req))).
Proof.
  split; intros; apply matches_run;
    [apply matches_crawl_urls | apply matches_search].
Qed.

Lemma plain_delivers_exceptions_only (w : Py.world) cls :
  ~ delivers (plain w) (BaseOnly cls).
Proof.
  intros [Hi | [(n & urls & Hr) | (q & d & e & Hs)]]; cbn in *.
  - destruct (Py.initialize_reply w); discriminate.
  - destruct (Py.arun_many_reply w n urls); discriminate.
  - destruct (Py.searxng_reply w q d e); discriminate.
Qed.

(** *** Runs in any world *)

Lemma coro_run_from_exec (w : world) tr (m : loop unit) st :
  run_from w tr (exec m st) =
    (tr, match m st with (st', inr _) => inr st' | (_, inl e) => inl (Exc e) end).
Proof.
  unfold exec. destruct (m st) as [st' [e|u]]; reflexivity.
Qed.

Lemma coro_run_from_await_engine (w : world) tr urls :
  run_from w tr (await (ArunMany urls)) =
    (tr ++ [EvArunMany urls],
     arun_many_reply w (List.length (engine_calls tr)) urls).
Proof.
  cbn. destruct (arun_many_reply w _ urls); reflexivity.
Qed.

(** The run of [fetch], call by call. *)
Lemma coro_run_from_fetch (w : world) tr urls :
  run_from w tr (fetch urls) =
    match arun_many_reply w (List.length (engine_calls tr)) urls with
    | inl b => (tr ++ [EvArunMany urls], inl b)
    | inr rs1 =>
        match first_pass urls rs1 no_lists with
        | (_, inl e) => (tr ++ [EvArunMany urls], inl (Exc e))
        | (st, inr _) =>
            match retry_urls st with
            | [] => (tr ++ [EvArunMany urls], inr st)
            | _ :: _ =>
                (tr ++ [EvArunMany urls; EvArunMany (retry_urls st)],
                 match arun_many_reply w (S (List.length (engine_calls tr)))
                                       (retry_urls st) with
                 | inl b => inl b
                 | inr rs2 =>
                     match second_pass rs2 st with
                     | (_, inl e) => inl (Exc e)
                     | (st', inr _) => inr st'
                     end
                 end)
            end
        end
    end.
Proof.
  unfold fetch. rewrite coro_run_from_bind, coro_run_from_await_engine.
  destruct (arun_many_reply w (List.length (engine_calls tr)) urls) as [b|rs1];
    [reflexivity|].
  rewrite coro_run_from_bind, coro_run_from_exec.
  destruct (first_pass urls rs1 no_lists) as [st [e|[]]]; [reflexivity|].
  destruct (retry_urls st) as [|u retry] eqn:Hretry; [reflexivity|].
  rewrite coro_run_from_bind, coro_run_from_await_engine.
  rewrite engine_calls_app, length_app, Nat.add_comm.
  cbn [engine_calls List.length Nat.add].
  rewrite <- app_assoc. cbn [app].
  destruct (arun_many_reply w (S (List.length (engine_calls tr))) (u :: retry))
    as [b|rs2]; [reflexivity|].
  rewrite coro_run_from_exec.
  destruct (second_pass rs2 st) as [st' [e|[]]]; reflexivity.
Qed.

(** The run of [crawl_urls]: [initialize] when there is no crawler, then
    [fetch] and [build_response], under the outer handler. *)
Lemma coro_run_from_crawl_urls md gt (w : world) self_crawler urls instruction tr0 :
  run_from w tr0 (crawl_urls md gt self_crawler urls instruction) =
    match (if self_crawler then inr tt else initialize_reply w) with
    | inl b => (tr0 ++ entry_trace self_crawler, inl (rewrapped b))
    | inr _ =>
        match run_from w (tr0 ++ entry_trace self_crawler) (fetch urls) with
        | (tr, inl b) => (tr, inl (rewrapped b))
        | (tr, inr st) =>
            match all_results st with
            | [] => (tr, inl (Exc (HTTPException 500 (Str AllFetchesFailedError))))
            | _ :: _ => (tr, inr (response_of md gt st))
            end
        end
    end.
Proof.
  unfold crawl_urls.
  rewrite coro_run_from_try_except, coro_run_from_bind.
  assert (Hinit : run_from w tr0 (if self_crawler then Return tt else await Initialize)
                  = (tr0 ++ entry_trace self_crawler,
                     if self_crawler then inr tt else initialize_reply w)).
  { destruct self_crawler; cbn; [rewrite app_nil_r; reflexivity|].
    destruct (initialize_reply w) as [b|[]]; reflexivity. }
  rewrite Hinit.
  destruct (if self_crawler then inr tt else initialize_reply w) as [[e|cls]|[]];
    try reflexivity.
  rewrite coro_run_from_bind.
  destruct (run_from w (tr0 ++ entry_trace self_crawler) (fetch urls))
    as [tr [[e|cls]|st]]; try reflexivity.
  unfold build_response, response_of, Normalizer.normalize.
  destruct (all_results st); reflexivity.
Qed.

(** What leaves [fetch] from outside [Exception] was raised by one of its
    two calls. *)
Lemma fetch_lets_through (w : world) tr urls cls :
  snd (run_from w tr (fetch urls)) = inl (BaseOnly cls) ->
  delivers w (BaseOnly cls).
Proof.
  rewrite coro_run_from_fetch.
  destruct (arun_many_reply w _ urls) as [b|rs1] eqn:H1.
  - cbn. intros Hb. injection Hb as ->. right. left. eauto.
  - destruct (first_pass urls rs1 no_lists) as [st [e|[]]]; [discriminate|].
    destruct (retry_urls st) as [|u retry]; [discriminate|].
    cbn [snd]. destruct (arun_many_reply w _ (u :: retry)) as [b|rs2] eqn:H2.
    + intros Hb. injection Hb as ->. right. left. eauto.
    + destruct (second_pass rs2 st) as [st' [e|[]]]; discriminate.
Qed.

Lemma fetch_calls_first (w : world) tr urls :
  exists rest, fst (run_from w tr (fetch urls)) = tr ++ EvArunMany urls :: rest.
Proof.
  rewrite coro_run_from_fetch.
  destruct (arun_many_reply w _ urls) as [b|rs1]; [eexists; reflexivity|].
  destruct (first_pass urls rs1 no_lists) as [st [e|[]]]; [eexists; reflexivity|].
  destruct (retry_urls st) as [|u retry]; eexists; reflexivity.
Qed.

(** What [crawl_urls] raises: a 500 that quotes what its handler caught,
    or what one of its calls raised from outside [Exception]. *)
Lemma crawl_urls_raises md gt (w : world) self_crawler urls instruction tr0 b :
  snd (run_from w tr0 (crawl_urls md gt self_crawler urls instruction)) = inl b ->
  (exists e, b = Exc (HTTPException 500 (Str e)))
  \/ (exists cls, b = BaseOnly cls /\ delivers w b).
Proof.
  rewrite coro_run_from_crawl_urls.
  assert (Hfetch : forall tr,
            snd (match run_from w tr (fetch urls) with
                 | (tr', inl b') => (tr', @inl raised Response.t (rewrapped b'))
                 | (tr', inr st) =>
                     match all_results st with
                     | [] => (tr', inl (Exc (HTTPException 500
                                               (Str AllFetchesFailedError))))
                     | _ :: _ => (tr', inr (response_of md gt st))
                     end
                 end) = inl b ->
            (exists e, b = Exc (HTTPException 500 (Str e)))
            \/ (exists cls, b = BaseOnly cls /\ delivers w b)).
  { intros tr.
    pose proof (fetch_lets_through w tr urls) as Hc.
    destruct (run_from w tr (fetch urls)) as [tr' [[e|cls]|st]];
      cbn [snd rewrapped] in *.
    - intros Hb. injection Hb as <-. left. eexists. reflexivity.
    - intros Hb. injection Hb as <-. right. exists cls.
      split; [reflexivity | apply Hc; reflexivity].
    - destruct (all_results st); cbn [snd]; [|discriminate].
      intros Hb. injection Hb as <-. left. eexists. reflexivity. }
  destruct self_crawler; [apply Hfetch|].
  destruct (initialize_reply w) as [[e|cls]|[]] eqn:Hinit; cbn [snd rewrapped].
  - intros Hb. injection Hb as <-. left. eexists. reflexivity.
  - intros Hb. injection Hb as <-. right. exists cls.
    split; [reflexivity | left; exact Hinit].
  - apply Hfetch.
Qed.

Lemma crawl_urls_calls_first md gt (w : world) self_crawler urls instruction tr0 :
  exists ev rest,
    fst (run_from w tr0 (crawl_urls md gt self_crawler urls instruction))
    = tr0 ++ ev :: rest.
Proof.
  rewrite coro_run_from_crawl_urls.
  assert (Hfetch : forall tr, exists ev rest,
             fst (match run_from w (tr0 ++ tr) (fetch urls) with
                  | (tr', inl b) => (tr', @inl raised Response.t (rewrapped b))
                  | (tr', inr st) =>
                      match all_results st with
                      | [] => (tr', inl (Exc (HTTPException 500
                                                (Str AllFetchesFailedError))))
                      | _ :: _ => (tr', inr (response_of md gt st))
                      end
                  end) = tr0 ++ ev :: rest).
  { intros tr. destruct (fetch_calls_first w (tr0 ++ tr) urls) as [rest Hrest].
    assert (Hfst : forall r : list event * (raised + Response.t),
               fst r = fst (run_from w (tr0 ++ tr) (fetch urls)) ->
               exists ev rest', fst r = tr0 ++ ev :: rest').
    { intros r ->. rewrite Hrest, <- app_assoc.
      destruct tr as [|ev tr]; cbn [app]; eexists; eexists; reflexivity. }
    apply Hfst.
    destruct (run_from w (tr0 ++ tr) (fetch urls)) as [tr' [b|st]]; [reflexivity|].
    destruct (all_results st); reflexivity. }
  destruct self_crawler; cbn [entry_trace].
  - apply Hfetch.
  - destruct (initialize_reply w) as [b|[]].
    + cbn [fst]. eexists; eexists; reflexivity.
    + apply Hfetch.
Qed.

(** X3. What leaves [crawl_urls] as an exception is an [HTTPException]
    with status 500 whose detail is the text of what the outer handler
    caught, the all-failed [HTTPException] included; or else it is
    outside [Exception] (the cancellation of the task while it waits for
    [initialize] or [arun_many], say), was raised by one of the calls and
    passes the handler as it is.  When every call raises instances of
    [Exception] only, [crawl_urls] can only end in the 500. *)
Theorem crawl_urls_rewraps_exceptions_only
    md gt (w : world) self_crawler urls instruction b :
  snd (run w (crawl_urls md gt self_crawler urls instruction)) = inl b ->
  ((exists e, b = Exc (HTTPException 500 (Str e)))
   \/ (exists cls, b = BaseOnly cls /\ delivers w b))
  /\ (forall w0, w = plain w0 ->
        exists e, b = Exc (HTTPException 500 (Str e))).
Proof.
  intros Hb.
  pose proof (crawl_urls_raises md gt w self_crawler urls instruction [] b Hb) as H.
  split; [exact H|].
  intros w0 ->. destruct H as [H | (cls & -> & Hc)]; [exact H|].
  destruct (plain_delivers_exceptions_only w0 cls Hc).
Qed.

Lemma crawl_urls_rewraps_exceptions_only_witness :
  (exists e, Exc (HTTPException 500 (Str IndexError)) = Exc (HTTPException 500 (Str e)))
  /\ ((exists e, CancelledError = Exc (HTTPException 500 (Str e)))
      \/ (exists cls,
            CancelledError = BaseOnly cls
            /\ delivers (cancelled_at 1 (scripted [unsuccessful; rendered "B"] [None]))
                        CancelledError)).
Proof.
  split.
  - exact (proj2 (crawl_urls_rewraps_exceptions_only
                    PlainDocs.markdown_markdown PlainDocs.get_text
                    (plain (scripted [rendered "A"; rendered "B"] []))
                    true [url_a] "q" (Exc (HTTPException 500 (Str IndexError)))
                    ltac:(vm_compute; reflexivity))
             (scripted [rendered "A"; rendered "B"] []) eq_refl).
  - exact (proj1 (crawl_urls_rewraps_exceptions_only
                    PlainDocs.markdown_markdown PlainDocs.get_text
                    (cancelled_at 1 (scripted [unsuccessful; rendered "B"] [None]))
                    true [url_a; url_b] "q" CancelledError
                    ltac:(vm_compute; reflexivity))).
Defined.

(** X6. An empty batch never yields a response, whatever the calls answer
    or raise.  The engine is still called, with the empty list; when it
    answers with the empty list, the error is the all-failed one,
    wrapped. *)
Theorem empty_batch_never_succeeds md gt (w : world) self_crawler instruction :
  let out := run w (crawl_urls md gt self_crawler [] instruction) in
  (forall resp, snd out <> inr resp)
  /\ (crawler_ready self_crawler w ->
      arun_many_reply w 0 [] = inr [] ->
      out = (entry_trace self_crawler ++ [EvArunMany []],
             inl (Exc (HTTPException 500 (Str AllFetchesFailedError))))).
Proof.
  intros out. subst out. unfold run.
  rewrite coro_run_from_crawl_urls, coro_run_from_fetch.
  cbn [app]. rewrite engine_calls_entry. cbn [List.length].
  assert (Hloop : forall rs1,
            match first_pass [] rs1 no_lists with
            | (_, inl e) => True
            | (st, inr _) => rs1 = [] /\ st = no_lists
            end).
  { intros [|r rs]; [cbn; split; reflexivity|].
    pose proof (loop_overrun (r :: rs) [] append_retry 0 no_lists append_retry_total
                  ltac:(cbn; lia)) as Hover.
    unfold first_pass.
    destruct (for_enumerate _ 0 (r :: rs) no_lists) as [st [e|[]]]; cbn in Hover;
      [exact I | discriminate]. }
  split.
  - intros resp.
    destruct (if self_crawler then inr tt else initialize_reply w) as [b|[]];
      [discriminate|].
    destruct (arun_many_reply w 0 []) as [b|rs1]; [discriminate|].
    specialize (Hloop rs1).
    destruct (first_pass [] rs1 no_lists) as [st [e|[]]]; [discriminate|].
    destruct Hloop as [-> ->]. cbn. discriminate.
  - intros Hready H1.
    assert (Hinit : (if self_crawler then inr tt else initialize_reply w) = inr tt).
    { destruct self_crawler; [reflexivity|].
      destruct Hready as [Habs|Hok]; [discriminate | exact Hok]. }
    rewrite Hinit, H1. reflexivity.
Qed.

Lemma empty_batch_never_succeeds_witness :
  run (plain (scripted [] []))
      (crawl_urls PlainDocs.markdown_markdown PlainDocs.get_text false [] "q")
  = ([EvInitialize; EvArunMany []],
     inl (Exc (HTTPException 500 (Str AllFetchesFailedError)))).
Proof.
  exact (proj2 (empty_batch_never_succeeds PlainDocs.markdown_markdown
                  PlainDocs.get_text (plain (scripted [] [])) false "q")
           (or_intror eq_refl) eq_refl).
Defined.

(** X7. A failure of the engine itself is not recovered.  When
    [arun_many] raises on the first call, or on the retry call,
    [crawl_urls] makes no further call; an instance of [Exception] reaches
    the caller wrapped in a 500, anything else (the cancellation of the
    task during the call, say) as it is.  Either way the pages rendered by
    the first pass are lost with a failing retry. *)
Theorem engine_failure_is_fatal
    md gt (w : world) self_crawler urls instruction b :
  crawler_ready self_crawler w ->
  let out := run w (crawl_urls md gt self_crawler urls instruction) in
  let failure := match b with
                 | Exc e => Exc (HTTPException 500 (Str e))
                 | BaseOnly cls => BaseOnly cls
                 end in
  (arun_many_reply w 0 urls = inl b ->
     out = (entry_trace self_crawler ++ [EvArunMany urls], inl failure))
  /\ (forall rs1,
        arun_many_reply w 0 urls = inr rs1 ->
        List.length rs1 <= List.length urls ->
        rejected urls rs1 <> [] ->
        arun_many_reply w 1 (rejected urls rs1) = inl b ->
        out = (entry_trace self_crawler
                 ++ [EvArunMany urls; EvArunMany (rejected urls rs1)],
               inl failure)).
Proof.
  intros Hready out failure. subst out failure. unfold run.
  rewrite coro_run_from_crawl_urls, coro_run_from_fetch.
  cbn [app]. rewrite engine_calls_entry. cbn [List.length].
  assert (Hinit : (if self_crawler then inr tt else initialize_reply w) = inr tt).
  { destruct self_crawler; [reflexivity|].
    destruct Hready as [Habs|Hok]; [discriminate | exact Hok]. }
  rewrite Hinit. split.
  - intros H1. rewrite H1. destruct b; reflexivity.
  - intros rs1 H1 Hfit Hne H2.
    rewrite H1, (first_pass_result urls rs1 Hfit). cbn [retry_urls].
    destruct (rejected urls rs1) as [|u retry] eqn:Hrej; [contradiction|].
    rewrite H2. destruct b; reflexivity.
Qed.

Lemma engine_failure_is_fatal_witness :
  run (plain (engine_down refused))
      (crawl_urls PlainDocs.markdown_markdown PlainDocs.get_text true
                  [url_a; url_b] "q")
  = ([EvArunMany [url_a; url_b]], inl (Exc (HTTPException 500 (Str refused))))
  /\ run (cancelled_at 1 (scripted [unsuccessful; rendered "B"] [None]))
         (crawl_urls PlainDocs.markdown_markdown PlainDocs.get_text true
                     [url_a; url_b] "q")
     = ([EvArunMany [url_a; url_b]; EvArunMany [url_a]], inl CancelledError).
Proof.
  split.
  - exact (proj1 (engine_failure_is_fatal PlainDocs.markdown_markdown
                    PlainDocs.get_text (plain (engine_down refused)) true
                    [url_a; url_b] "q" (Exc refused) (or_introl eq_refl))
             eq_refl).
  - refine (proj2 (engine_failure_is_fatal PlainDocs.markdown_markdown
                     PlainDocs.get_text
                     (cancelled_at 1 (scripted [unsuccessful; rendered "B"] [None]))
                     true [url_a; url_b] "q" CancelledError (or_introl eq_refl))
              [unsuccessful; rendered "B"] eq_refl _ _ eq_refl).
    + cbn. lia.
    + cbn. discriminate.
Defined.

(** What [search] does once SearXNG has answered, and when the exchange
    fails. *)
Lemma coro_run_search md gt self_crawler (w : world) req :
  run w (search md gt self_crawler req) =
    match searxng_reply w (Main.query req) (Main.disabled_engines req)
                        (Main.enabled_engines req) with
    | inl (Exc e) =>
        ([post_of req],
         inl (Exc (HTTPException 500
                     (Str (Exception_ (Fmt Main.request_failed_prefix (Str e)))))))
    | inl (BaseOnly cls) => ([post_of req], inl (BaseOnly cls))
    | inr response =>
        match listed response with
        | [] => ([post_of req], inl (Exc NoResultsError))
        | _ :: _ =>
            match Main.urls_of (Main.slice_to (listed response) (Main.limit req)) with
            | [] => ([post_of req], inl (Exc NoValidUrlsError))
            | u :: us =>
                run_from w [post_of req]
                  (crawl md gt self_crawler
                     {| Main.urls := u :: us; Main.instruction := Main.query req |})
            end
        end
    end.
Proof.
  unfold run, search, make_searxng_request.
  rewrite coro_run_from_try_except, coro_run_from_bind, coro_run_from_try_except.
  cbn [await run_from answer event_of app].
  destruct (searxng_reply w (Main.query req) (Main.disabled_engines req)
                          (Main.enabled_engines req)) as [[e|cls]|response];
    cbn [run_from]; try reflexivity.
  unfold listed.
  destruct (results response) as [[|r rs]|]; try reflexivity.
  set (found := Main.urls_of _). destruct found as [|u us]; [reflexivity|].
  unfold crawl. cbn [Main.urls Main.instruction].
  destruct (run_from w _ (crawl_urls md gt self_crawler (u :: us) (Main.query req)))
    as [tr [b|resp]] eqn:Hrun; [|reflexivity].
  pose proof (crawl_urls_raises md gt w self_crawler (u :: us) (Main.query req)
                [post_of req] b) as Hb.
  unfold post_of in Hb. rewrite Hrun in Hb.
  destruct (Hb eq_refl) as [[e ->] | (cls & -> & _)]; reflexivity.
Qed.

(** X9. [search] always starts with the exchange with SearXNG.  What it
    raises is one of the two 404 errors, raised before any other call; or
    an [HTTPException] with status 500; or something outside [Exception]
    that one of the calls raised (the cancellation of the task while
    [crawl] waits for the crawler, say), which passes both handlers of
    [search] as it is. *)
Theorem search_fails_with_404_500_or_uncaught md gt self_crawler (w : world) req :
  let out := run w (search md gt self_crawler req) in
  (exists rest, fst out = post_of req :: rest)
  /\ (forall b, snd out = inl b ->
        (exists d, b = Exc (HTTPException 500 d))
        \/ ((b = Exc NoResultsError \/ b = Exc NoValidUrlsError)
            /\ fst out = [post_of req])
        \/ (exists cls, b = BaseOnly cls /\ delivers w b)).
Proof.
  intros out. subst out. rewrite coro_run_search.
  destruct (searxng_reply w (Main.query req) (Main.disabled_engines req)
                          (Main.enabled_engines req)) as [[ex|cls]|response] eqn:Hs.
  { cbn [fst snd]. split; [exists []; reflexivity|].
    intros b Hb. injection Hb as <-. left. eexists. reflexivity. }
  { cbn [fst snd]. split; [exists []; reflexivity|].
    intros b Hb. injection Hb as <-. right. right. exists cls.
    split; [reflexivity|]. right. right. eauto. }
  destruct (listed response) as [|r rs].
  { cbn [fst snd]. split; [exists []; reflexivity|].
    intros b Hb. injection Hb as <-. right. left. split; [left|]; reflexivity. }
  destruct (Main.urls_of _) as [|u us].
  { cbn [fst snd]. split; [exists []; reflexivity|].
    intros b Hb. injection Hb as <-. right. left. split; [right|]; reflexivity. }
  unfold crawl. cbn [Main.urls Main.instruction].
  destruct (crawl_urls_calls_first md gt w self_crawler (u :: us) (Main.query req)
              [post_of req]) as (ev & rest & Htrace).
  split.
  - rewrite Htrace. eexists. reflexivity.
  - intros b Hb.
    destruct (crawl_urls_raises md gt w self_crawler (u :: us) (Main.query req)
                [post_of req] b Hb) as [[e ->] | (cls & -> & Hc)].
    + left. eexists. reflexivity.
    + right. right. exists cls. split; [reflexivity | exact Hc].
Qed.

Lemma search_fails_with_404_500_or_uncaught_witness :
  ((exists d, Exc NoResultsError = Exc (HTTPException 500 d))
   \/ ((Exc NoResultsError = Exc NoResultsError
        \/ Exc NoResultsError = Exc NoValidUrlsError)
       /\ fst (run (plain (searching None))
                   (search PlainDocs.markdown_markdown PlainDocs.get_text
                      true (request 2)))
          = [post_of (request 2)])
   \/ (exists cls,
         Exc NoResultsError = BaseOnly cls
         /\ delivers (plain (searching None)) (Exc NoResultsError)))
  /\ ((exists d, CancelledError = Exc (HTTPException 500 d))
      \/ ((CancelledError = Exc NoResultsError
           \/ CancelledError = Exc NoValidUrlsError)
          /\ fst (run (cancelled_at 0 (searching (Some [ {| url := Some url_a |} ])))
                      (search PlainDocs.markdown_markdown PlainDocs.get_text
                         true (request 2)))
             = [post_of (request 2)])
      \/ (exists cls,
            CancelledError = BaseOnly cls
            /\ delivers (cancelled_at 0 (searching (Some [ {| url := Some url_a |} ])))
                        CancelledError)).
Proof.
  split.
  - exact (proj2 (search_fails_with_404_500_or_uncaught PlainDocs.markdown_markdown
                    PlainDocs.get_text true (plain (searching None))
                    (request 2))
             (Exc NoResultsError) eq_refl).
  - exact (proj2 (search_fails_with_404_500_or_uncaught PlainDocs.markdown_markdown
                    PlainDocs.get_text true
                    (cancelled_at 0 (searching (Some [ {| url := Some url_a |} ])))
                    (request 2))
             CancelledError ltac:(vm_compute; reflexivity)).
Defined.

(** A search cancelled while the engine renders the pages. *)
Example cancelled_search :
  run (cancelled_at 0 (searching (Some [ {| url := Some url_a |} ])))
      (search PlainDocs.markdown_markdown PlainDocs.get_text true (request 2))
  = ([post_of (request 2); EvArunMany [url_a]], inl CancelledError).
Proof. vm_compute. reflexivity. Qed.

End BaseExceptionFacts.

(* ================================================================== *)
(** ** More on the normalisers: what a match can capture *)

Module MatchFacts.
Import PyStr Re Normalizer Spec Notions Captured.
Local Open Scope list_scope.

(** A property of positions and captures that is kept when the matcher
    moves one character on and when it closes a group is kept by every
    match. *)
Section Invariant.

Variable Inv : string -> captures -> Prop.

Hypothesis Inv_step : forall c s caps, Inv (String c s) caps -> Inv s caps.

Hypothesis Inv_group : forall n s s' caps caps',
  Inv s caps -> Inv s' caps' -> Inv s' ((n, consumed s s') :: caps').

Lemma rep_greedy_inv {R} (p : ascii -> bool) (Q : R -> Prop) (k : cont R) caps :
  (forall prev' s', Inv s' caps -> forall x, k prev' s' caps = Some x -> Q x) ->
  forall s least prev,
    Inv s caps -> forall x, rep_greedy p least prev s caps k = Some x -> Q x.
Proof.
  intros Hk. induction s as [|c s IH]; intros least prev HI x; cbn.
  - destruct (Nat.eqb least 0); [apply Hk; exact HI | discriminate].
  - destruct (p c).
    + destruct (rep_greedy p (pred least) (Some c) s caps k) as [y|] eqn:Hrec.
      * intros Hx. injection Hx as <-.
        apply (IH (pred least) (Some c)); [eapply Inv_step; exact HI | exact Hrec].
      * destruct (Nat.eqb least 0); [apply Hk; exact HI | discriminate].
    + destruct (Nat.eqb least 0); [apply Hk; exact HI | discriminate].
Qed.

Lemma rep_lazy_inv {R} (p : ascii -> bool) (Q : R -> Prop) (k : cont R) caps :
  (forall prev' s', Inv s' caps -> forall x, k prev' s' caps = Some x -> Q x) ->
  forall s least prev,
    Inv s caps -> forall x, rep_lazy p least prev s caps k = Some x -> Q x.
Proof.
  intros Hk. induction s as [|c s IH]; intros least prev HI x.
  - destruct least; cbn; [|discriminate].
    destruct (k prev EmptyString caps) as [y|] eqn:Hy; [|discriminate].
    intros Hx. injection Hx as <-. eapply Hk; [exact HI | exact Hy].
  - destruct least; cbn.
    + destruct (k prev (String c s) caps) as [y|] eqn:Hy.
      * intros Hx. injection Hx as <-. eapply Hk; [exact HI | exact Hy].
      * destruct (p c); [|discriminate].
        apply IH. eapply Inv_step; exact HI.
    + destruct (p c); [|discriminate].
      apply IH. eapply Inv_step; exact HI.
Qed.

Lemma literally_inv caps : forall g prev s prev' s',
  Inv s caps -> literally g prev s = Some (prev', s') -> Inv s' caps.
Proof.
  induction g as [|c g IH]; intros prev s prev' s' HI; cbn.
  - intros H. injection H as <- <-. exact HI.
  - destruct s as [|d s]; [discriminate|].
    destruct (Ascii.eqb c d); [|discriminate].
    apply IH. eapply Inv_step; exact HI.
Qed.

Lemma match_re_inv {R} (Q : R -> Prop) : forall r prev s caps (k : cont R),
  Inv s caps ->
  (forall prev' s' caps', Inv s' caps' ->
     forall x, k prev' s' caps' = Some x -> Q x) ->
  forall x, match_re r prev s caps k = Some x -> Q x.
Proof.
  induction r as [c|p|lazy least p|r1 IH1 r2 IH2|r1 IH1 r2 IH2|n r1 IH1|n|];
    intros prev s caps k HI Hk x; cbn [match_re].
  - destruct s as [|d s]; [discriminate|].
    destruct (Ascii.eqb c d); [|discriminate].
    apply Hk. eapply Inv_step; exact HI.
  - destruct s as [|d s]; [discriminate|].
    destruct (p d); [|discriminate].
    apply Hk. eapply Inv_step; exact HI.
  - destruct lazy.
    + apply rep_lazy_inv; [intros; eapply Hk; eassumption | exact HI].
    + apply rep_greedy_inv; [intros; eapply Hk; eassumption | exact HI].
  - apply IH1; [exact HI|].
    intros prev' s' caps' HI' y. apply IH2; [exact HI' | exact Hk].
  - destruct (match_re r1 prev s caps k) as [y|] eqn:H1.
    + intros Hx. injection Hx as <-. eapply IH1; [exact HI | exact Hk | exact H1].
    + apply IH2; [exact HI | exact Hk].
  - apply IH1; [exact HI|].
    intros prev' s' caps' HI' y. apply Hk. apply (Inv_group n s s' caps caps' HI HI').
  - destruct (group n caps) as [g|]; [|discriminate].
    destruct (literally g prev s) as [[prev' s']|] eqn:Hl; [|discriminate].
    apply Hk. eapply literally_inv; [exact HI | exact Hl].
  - destruct prev as [c|].
    + destruct (Ascii.eqb c LF); [apply Hk; exact HI | discriminate].
    + apply Hk. exact HI.
Qed.

(** A match found at a position ends at a position where the property
    holds of its groups. *)
Lemma match_at_inv r prev s len caps :
  Inv s [] ->
  match_at r prev s = Some (len, caps) ->
  exists s', Inv s' caps /\ len = String.length s - String.length s'.
Proof.
  intros HI. unfold match_at.
  apply (match_re_inv
           (fun x => exists s', Inv s' (snd x)
                                /\ fst x = String.length s - String.length s')
           r prev s [] _ HI).
  intros prev' s' caps' HI' x Hx. injection Hx as <-. exists s'. split; [exact HI' | reflexivity].
Qed.

End Invariant.

Lemma all_chars_app p s t :
  all_chars p (s ++ t) = all_chars p s && all_chars p t.
Proof.
  induction s as [|c s IH]; cbn; [reflexivity|].
  rewrite IH. apply andb_assoc.
Qed.

Lemma all_chars_substring p : forall s n m,
  all_chars p s = true -> all_chars p (substring n m s) = true.
Proof.
  induction s as [|c s IH]; intros n m H; cbn in *.
  - destruct n, m; reflexivity.
  - apply andb_prop in H. destruct H as [Hc Hs].
    destruct n as [|n].
    + destruct m as [|m]; cbn; [reflexivity|].
      rewrite Hc. apply IH. exact Hs.
    + apply IH. exact Hs.
Qed.

Lemma chars_within_step p c s caps :
  chars_within p (String c s) caps -> chars_within p s caps.
Proof.
  intros [H Hg]. split; [|exact Hg].
  cbn in H. apply andb_prop in H. tauto.
Qed.

Lemma chars_within_group p n s s' caps caps' :
  chars_within p s caps -> chars_within p s' caps' ->
  chars_within p s' ((n, consumed s s') :: caps').
Proof.
  intros [Hs _] [Hs' Hg']. split; [exact Hs'|].
  intros m g [Heq|Hin].
  - injection Heq as _ <-. apply all_chars_substring. exact Hs.
  - exact (Hg' m g Hin).
Qed.

Lemma length_substring_0 : forall s n,
  String.length (substring 0 n s) = Nat.min n (String.length s).
Proof.
  induction s as [|c s IH]; intros [|n]; cbn; try reflexivity.
  rewrite IH. reflexivity.
Qed.

Lemma lengths_within_step total c s caps :
  lengths_within total (String c s) caps -> lengths_within total s caps.
Proof.
  intros [H Hg]. split; [cbn in H; lia|].
  intros n g Hin. specialize (Hg n g Hin). cbn in Hg. lia.
Qed.

Lemma lengths_within_group total n s s' caps caps' :
  lengths_within total s caps -> lengths_within total s' caps' ->
  lengths_within total s' ((n, consumed s s') :: caps').
Proof.
  intros [Hs _] [Hs' Hg']. split; [exact Hs'|].
  intros m g [Heq|Hin].
  - injection Heq as _ <-. unfold consumed. rewrite length_substring_0. lia.
  - exact (Hg' m g Hin).
Qed.

Lemma group_in n : forall caps g, group n caps = Some g -> In (n, g) caps.
Proof.
  induction caps as [|[m h] caps IH]; intros g; cbn; [discriminate|].
  destruct (Nat.eqb n m) eqn:Hnm.
  - intros H. injection H as <-. apply Nat.eqb_eq in Hnm. subst. left. reflexivity.
  - intros H. right. apply IH. exact H.
Qed.

(** What a template with at most one group expands to. *)
Lemma expand_one_group tpl caps :
  one_group_at_most tpl ->
  expand tpl caps = EmptyString
  \/ exists n g, In (n, g) caps /\ expand tpl caps = g.
Proof.
  intros [-> | [n ->]]; cbn [expand]; [left; reflexivity|].
  destruct (group n caps) as [g|] eqn:Hg; [|left; reflexivity].
  right. exists n, g. split; [apply group_in; exact Hg|].
  clear Hg. induction g as [|c g IH]; cbn; [reflexivity | rewrite IH; reflexivity].
Qed.

(** [re.sub] with such a template keeps a set of characters: what is in
    the result was in the subject. *)
Lemma sub_from_chars p r tpl :
  one_group_at_most tpl ->
  forall s skip prev,
    all_chars p s = true -> all_chars p (sub_from r tpl skip prev s) = true.
Proof.
  intros Htpl.
  assert (Hexp : forall s prev len caps,
             all_chars p s = true -> match_at r prev s = Some (len, caps) ->
             all_chars p (expand tpl caps) = true).
  { intros s prev len caps Hs Hm.
    destruct (match_at_inv (chars_within p) (chars_within_step p)
                (chars_within_group p) r prev s len caps) as (s' & [_ Hg] & _);
      [split; [exact Hs | intros n g []] | exact Hm |].
    destruct (expand_one_group tpl caps Htpl) as [-> | (n & g & Hin & ->)];
      [reflexivity | exact (Hg n g Hin)]. }
  induction s as [|c s IH]; intros skip prev Hs.
  - cbn. destruct skip; [|reflexivity].
    destruct (match_at r prev EmptyString) as [[len caps]|] eqn:Hm; [|reflexivity].
    exact (Hexp EmptyString prev len caps Hs Hm).
  - pose proof Hs as Hcs. cbn in Hcs. apply andb_prop in Hcs. destruct Hcs as [Hc Hs'].
    cbn [sub_from]. destruct skip as [|n]; [|apply IH; exact Hs'].
    destruct (match_at r prev (String c s)) as [[len caps]|] eqn:Hm.
    + rewrite all_chars_app, (Hexp _ prev len caps Hs Hm). cbn [andb].
      destruct len as [|n]; [cbn; rewrite Hc|]; apply IH; exact Hs'.
    + cbn. rewrite Hc. apply IH. exact Hs'.
Qed.

Lemma lstrip_chars p s : all_chars p s = true -> all_chars p (lstrip s) = true.
Proof.
  induction s as [|c s IH]; cbn; [reflexivity|].
  intros H. destruct (isspace c); [|exact H].
  apply andb_prop in H. apply IH. tauto.
Qed.

Lemma rstrip_chars p s : all_chars p s = true -> all_chars p (rstrip s) = true.
Proof.
  induction s as [|c s IH]; cbn; [reflexivity|].
  intros H. apply andb_prop in H. destruct H as [Hc Hs].
  specialize (IH Hs). destruct (rstrip s) as [|d t].
  - destruct (isspace c); cbn; [reflexivity | rewrite Hc; reflexivity].
  - cbn [all_chars] in *. rewrite Hc, IH. reflexivity.
Qed.

Lemma strip_chars p s : all_chars p s = true -> all_chars p (strip s) = true.
Proof. intros H. unfold strip. apply rstrip_chars, lstrip_chars, H. Qed.

Lemma length_append s t :
  String.length (s ++ t) = String.length s + String.length t.
Proof. induction s as [|c s IH]; cbn; [reflexivity | rewrite IH; reflexivity]. Qed.

(** [re.sub] with such a template never lengthens the subject. *)
Lemma sub_from_length r tpl :
  one_group_at_most tpl ->
  forall s skip prev,
    String.length (sub_from r tpl skip prev s) + Nat.min skip (String.length s)
    <= String.length s.
Proof.
  intros Htpl.
  assert (Hexp : forall s prev len caps,
             match_at r prev s = Some (len, caps) ->
             String.length (expand tpl caps) <= len /\ len <= String.length s).
  { intros s prev len caps Hm.
    destruct (match_at_inv (lengths_within (String.length s))
                (lengths_within_step (String.length s))
                (lengths_within_group (String.length s)) r prev s len caps)
      as (s' & [Hs' Hg] & ->);
      [split; [lia | intros n g []] | exact Hm |].
    split; [|lia].
    destruct (expand_one_group tpl caps Htpl) as [-> | (n & g & Hin & ->)];
      [cbn; lia | specialize (Hg n g Hin); cbv beta in Hg; lia]. }
  induction s as [|c s IH]; intros skip prev.
  - cbn. destruct skip; [|cbn; lia].
    destruct (match_at r prev EmptyString) as [[len caps]|] eqn:Hm; [|cbn; lia].
    destruct (Hexp EmptyString prev len caps Hm) as [H1 H2]. cbn in H2. lia.
  - cbn [sub_from String.length]. destruct skip as [|n].
    + destruct (match_at r prev (String c s)) as [[len caps]|] eqn:Hm.
      * destruct (Hexp _ prev len caps Hm) as [H1 H2]. cbn [String.length] in H2.
        rewrite length_append.
        destruct len as [|n].
        -- cbn [String.length]. specialize (IH 0 (Some c)). lia.
        -- specialize (IH n (Some c)). lia.
      * cbn [String.length]. specialize (IH 0 (Some c)). lia.
    + specialize (IH n (Some c)). lia.
Qed.

Lemma sub_length r tpl s :
  one_group_at_most tpl -> String.length (sub r tpl s) <= String.length s.
Proof.
  intros Htpl. pose proof (sub_from_length r tpl Htpl s 0 None) as H.
  unfold sub. lia.
Qed.

Lemma lstrip_length s : String.length (lstrip s) <= String.length s.
Proof.
  induction s as [|c s IH]; cbn; [lia|].
  destruct (isspace c); cbn; lia.
Qed.

Lemma rstrip_length s : String.length (rstrip s) <= String.length s.
Proof.
  induction s as [|c s IH]; cbn; [lia|].
  destruct (rstrip s) as [|d t]; [destruct (isspace c)|]; cbn in *; lia.
Qed.

Lemma strip_length s : String.length (strip s) <= String.length s.
Proof.
  unfold strip. pose proof (rstrip_length (lstrip s)). pose proof (lstrip_length s). lia.
Qed.

End MatchFacts.

(* ================================================================== *)
(** ** More on [markdown_to_text_regex] and [markdown_to_text] *)

Module NormalizerMore.
Import PyStr Re Normalizer Spec Notions Captured Examples NormalizerFacts MatchFacts.
Local Open Scope list_scope.

Lemma no_template : one_group_at_most [].
Proof. left. reflexivity. Qed.

Lemma group_template n : one_group_at_most [Group n].
Proof. right. exists n. reflexivity. Qed.

(** X13. The second stage only deletes: characters that are in its result
    were in its argument. *)
Theorem regex_stage_only_deletes (p : ascii -> bool) s :
  all_chars p s = true -> all_chars p (markdown_to_text_regex s) = true.
Proof.
  intros H. unfold markdown_to_text_regex, sub.
  apply strip_chars.
  repeat (apply sub_from_chars; [first [apply no_template | apply group_template]|]).
  exact H.
Qed.

Lemma regex_stage_only_deletes_witness :
  all_chars (fun c => negb (Ascii.eqb c "z")) (markdown_to_text_regex markup_sample)
  = true.
Proof.
  apply (regex_stage_only_deletes (fun c => negb (Ascii.eqb c "z")) markup_sample).
  vm_compute. reflexivity.
Defined.

(** X14. The second stage never makes a text longer. *)
Theorem regex_stage_never_lengthens s :
  String.length (markdown_to_text_regex s) <= String.length s.
Proof.
  unfold markdown_to_text_regex.
  eapply Nat.le_trans; [apply strip_length|].
  repeat (eapply Nat.le_trans;
          [apply sub_length; first [apply no_template | apply group_template]|]).
  apply Nat.le_refl.
Qed.

(** X15. A marker-free text goes through the second stage untouched but for
    the white space at its ends. *)
Theorem plain_prose_is_only_stripped s :
  marker_free s = true -> markdown_to_text_regex s = strip s.
Proof.
  intros H. apply regex_stage_without_token, marker_free_has_no_token, H.
Qed.

Lemma plain_prose_is_only_stripped_witness :
  markdown_to_text_regex "  2 + 2 = 4, a-b > c  " = "2 + 2 = 4, a-b > c"%string.
Proof.
  exact (plain_prose_is_only_stripped "  2 + 2 = 4, a-b > c  " eq_refl).
Defined.

(** A greedy repetition followed by something that always matches always
    matches. *)
Lemma rep_greedy_total {R} (p : ascii -> bool) (k : cont R) caps :
  (forall prev s, k prev s caps <> None) ->
  forall s prev, rep_greedy p 0 prev s caps k <> None.
Proof.
  intros Hk. induction s as [|c s IH]; intros prev; cbn; [apply Hk|].
  destruct (p c); [|apply Hk].
  destruct (rep_greedy p 0 (Some c) s caps k) eqn:Hrec; [discriminate|].
  exfalso. exact (IH (Some c) Hrec).
Qed.

(** At a [#] the heading pattern matches, over at least that character. *)
Lemma heading_at_hash prev s :
  exists n caps, match_at re_heading prev (String "#" s) = Some (S n, caps).
Proof.
  unfold match_at, re_heading. cbn [match_re].
  set (k0 := fun (_ : option ascii) (s' : string) (caps : captures) =>
               Some (String.length (String "#" s) - String.length s', caps)).
  set (k1 := fun prev' s' caps' => rep_greedy isspace 0 prev' s' caps' k0).
  cbn [rep_greedy is_char Ascii.eqb Bool.eqb andb pred].
  assert (Htotal : rep_greedy (is_char "#") 0 (Some "#"%char) s [] k1 <> None).
  { apply rep_greedy_total. intros prev' s'. unfold k1.
    apply rep_greedy_total. intros prev'' s''. unfold k0. discriminate. }
  destruct (rep_greedy (is_char "#") 0 (Some "#"%char) s [] k1) as [[len caps]|] eqn:Hm;
    [|contradiction].
  assert (Hstep : forall (c' : ascii) (t : string) (caps' : captures),
             (fun (t' : string) (_ : captures) => String.length t' <= String.length s)
               (String c' t) caps' ->
             (fun (t' : string) (_ : captures) => String.length t' <= String.length s)
               t caps').
  { intros c' t caps' H. cbv beta in *. cbn [String.length] in H. lia. }
  assert (Hlen : 1 <= fst (len, caps)).
  { apply (rep_greedy_inv _ Hstep (is_char "#") (fun x => 1 <= fst x) k1 [])
      with (s := s) (least := 0) (prev := Some "#"%char).
    - intros prev' s' Hs' x. unfold k1.
      apply (rep_greedy_inv _ Hstep isspace (fun x => 1 <= fst x) k0 []).
      + intros prev'' s'' Hs'' y Hy. unfold k0 in Hy. injection Hy as <-.
        cbv beta in Hs''. destruct (String.length s''); cbn; lia.
      + exact Hs'.
    - cbv beta. apply Nat.le_refl.
    - exact Hm. }
  cbn [fst] in Hlen.
  destruct len as [|n]; [lia|]. exists n, caps. reflexivity.
Qed.

Lemma heading_not_at_other prev c s :
  is_char "#" c = false -> match_at re_heading prev (String c s) = None.
Proof.
  intros Hc. unfold match_at, re_heading. cbn [match_re rep_greedy].
  rewrite Hc. reflexivity.
Qed.

Lemma heading_sub_has_no_hash : forall s skip prev,
  all_chars (not_char "#") (sub_from re_heading [] skip prev s) = true.
Proof.
  induction s as [|c s IH]; intros skip prev.
  - destruct skip; reflexivity.
  - cbn [sub_from]. destruct skip as [|n]; [|apply IH].
    destruct (is_char "#" c) eqn:Hc.
    + assert (c = "#"%char) by (symmetry; apply Ascii.eqb_eq; exact Hc). subst c.
      destruct (heading_at_hash prev s) as (n & caps & ->).
      cbn [expand append]. apply IH.
    + rewrite (heading_not_at_other prev c s Hc).
      cbn [all_chars]. unfold not_char at 1. unfold is_char in Hc. rewrite Hc.
      cbn [negb andb]. apply IH.
Qed.

Lemma contains_char_all c s :
  contains_char c s = negb (all_chars (not_char c) s).
Proof.
  induction s as [|d s IH]; cbn; [reflexivity|].
  rewrite IH. unfold not_char. destruct (Ascii.eqb c d); reflexivity.
Qed.

(** X16. No [#] survives the second stage, wherever it stood in a line. *)
Theorem regex_stage_removes_every_hash s :
  contains_char "#" (markdown_to_text_regex s) = false.
Proof.
  rewrite contains_char_all. apply negb_false_iff.
  unfold markdown_to_text_regex.
  apply strip_chars. unfold sub.
  do 7 (apply sub_from_chars; [first [apply no_template | apply group_template]|]).
  apply heading_sub_has_no_hash.
Qed.

End NormalizerMore.

Module LineFacts.
Import PyStr Re Normalizer Spec Notions Examples NormalizerFacts MatchFacts.
Local Open Scope list_scope.

Lemma split_lines_single l :
  all_chars dot l = true -> split_lines l = [l].
Proof.
  induction l as [|c l IH]; cbn; [reflexivity|].
  intros H. apply andb_prop in H. destruct H as [Hc Hl].
  unfold dot in Hc. apply negb_true_iff in Hc. rewrite Hc, (IH Hl). reflexivity.
Qed.

Lemma split_lines_app_nl l t :
  all_chars dot l = true -> split_lines (l ++ String LF t) = l :: split_lines t.
Proof.
  induction l as [|c l IH]; cbn.
  - intros _. reflexivity.
  - intros H. apply andb_prop in H. destruct H as [Hc Hl].
    unfold dot in Hc. apply negb_true_iff in Hc. rewrite Hc, (IH Hl). reflexivity.
Qed.

(** Joining lines and splitting again gives the lines back. *)
Lemma split_lines_join : forall ls l,
  Forall (fun x => all_chars dot x = true) (l :: ls) ->
  split_lines (join nl (l :: ls)) = l :: ls.
Proof.
  induction ls as [|l2 ls IH]; intros l H; inversion H as [|? ? Hl Hls]; subst.
  - cbn. apply split_lines_single. exact Hl.
  - change (join nl (l :: l2 :: ls)) with (l ++ String LF (join nl (l2 :: ls)))%string.
    rewrite (split_lines_app_nl l _ Hl), (IH l2 Hls). reflexivity.
Qed.

Lemma split_lines_have_no_nl s :
  Forall (fun x => all_chars dot x = true) (split_lines s).
Proof.
  induction s as [|c s IH]; cbn.
  - constructor; [reflexivity | constructor].
  - destruct (Ascii.eqb c LF) eqn:Hc.
    + constructor; [reflexivity | exact IH].
    + destruct (split_lines s) as [|l ls]; inversion IH; subst.
      * constructor; [cbn; unfold dot; rewrite Hc; reflexivity | constructor].
      * constructor; [cbn; unfold dot at 1; rewrite Hc; cbn; assumption | assumption].
Qed.

(** What the comprehension of [markdown_to_text] keeps: trimmed lines,
    none empty, none with a newline. *)
Lemma kept_lines text :
  Forall (fun x => all_chars dot x = true /\ strip x = x /\ truthy x = true)
         (map strip (filter (fun line => truthy (strip line)) (split_lines text))).
Proof.
  pose proof (split_lines_have_no_nl text) as H.
  induction (split_lines text) as [|l ls IH]; cbn; [constructor|].
  inversion H as [|? ? Hl Hls]; subst.
  destruct (truthy (strip l)) eqn:Ht; cbn; [|apply IH; exact Hls].
  constructor; [|apply IH; exact Hls].
  split; [apply strip_chars; exact Hl|]. split; [apply strip_idempotent | exact Ht].
Qed.

Lemma filter_map_kept ls :
  Forall (fun x => all_chars dot x = true /\ strip x = x /\ truthy x = true) ls ->
  map strip (filter (fun line => truthy (strip line)) ls) = ls.
Proof.
  induction 1 as [|l ls (Hnl & Hs & Ht) Hls IH]; cbn; [reflexivity|].
  rewrite Hs, Ht. cbn. rewrite Hs, IH. reflexivity.
Qed.

(** X17. The result of [markdown_to_text] is clean: running its line cleanup
    again changes nothing, and unless the result is empty each of its
    lines is non-empty and free of white space at both ends. *)
Theorem markdown_to_text_result_is_clean md gt s :
  let out := markdown_to_text md gt s in
  clean_lines out = out
  /\ (out = EmptyString
      \/ Forall (fun l => strip l = l /\ truthy l = true) (split_lines out)).
Proof.
  intros out. subst out. unfold markdown_to_text, clean_lines.
  set (text := gt (md s)).
  pose proof (kept_lines text) as Hk.
  destruct (map strip (filter (fun line => truthy (strip line)) (split_lines text)))
    as [|l ls] eqn:Hls.
  - split; [reflexivity | left; reflexivity].
  - assert (Hsplit : split_lines (join nl (l :: ls)) = l :: ls).
    { apply split_lines_join. eapply Forall_impl; [|exact Hk]. cbv beta. tauto. }
    rewrite Hsplit. split.
    + rewrite (filter_map_kept (l :: ls) Hk). reflexivity.
    + right. eapply Forall_impl; [|exact Hk]. cbv beta. tauto.
Qed.

End LineFacts.

(* ================================================================== *)
(** ** The life cycle and the logger *)

Module LifecycleFacts.
Import PyStr Py Crawler Spec Notions LoopFacts RunFacts Fetcher Examples CrawlFacts.
Import Lifecycle.
Local Open Scope list_scope.

(** X18. [crawl_urls] initialises the crawler exactly when [self.crawler] is
    not set, before anything else; all it does after that is to call the
    engine, at most twice. *)
Theorem initialize_first_then_engine
    md gt (w : world) self_crawler urls instruction :
  exists calls,
    fst (run w (crawl_urls md gt self_crawler urls instruction))
    = entry_trace self_crawler ++ map EvArunMany calls
    /\ List.length calls <= 2.
Proof.
  destruct (ready_or_not self_crawler w) as [Hready | (e & -> & Hinit)].
  - rewrite (run_crawl_urls md gt w self_crawler urls instruction Hready).
    rewrite fst_crawl_result.
    pose proof (fetch_runs w (entry_trace self_crawler) urls) as Hf.
    destruct Hf; cbn [fst].
    1-3: exists [urls]; split; [reflexivity | cbn; lia].
    all: exists [urls; rejected urls rs1]; split; [reflexivity | cbn; lia].
  - rewrite (run_crawl_urls_not_ready md gt w urls instruction e Hinit).
    exists []. split; [reflexivity | cbn; lia].
Qed.

(** X19. [shutdown_event] after [startup_event], whatever the system answers:
    the browser that [__aenter__] returned is closed, once, and nothing is
    closed when the start failed at the installation or at [__aenter__]. *)
Theorem shutdown_closes_what_startup_opened (sys : system) :
  let started := perform sys [] (startup_event None) in
  let stopped := perform sys (fst started) (shutdown_event (fst (snd started))) in
  fst stopped =
    match install_reply sys, aenter_reply sys 0 with
    | inl _, _ => [Installed]
    | inr _, inl _ => [Installed; Entered]
    | inr _, inr h => [Installed; Entered; Exited h]
    end
  /\ (snd (snd started) = inr tt <-> exits (fst stopped) <> []).
Proof.
  cbn. destruct (install_reply sys) as [e|[]]; cbn.
  - split; [reflexivity|]. split; [discriminate | intros H; contradiction].
  - destruct (aenter_reply sys 0) as [e|h]; cbn.
    + split; [reflexivity|]. split; [discriminate | intros H; contradiction].
    + split; [reflexivity|]. split; [discriminate | reflexivity].
Qed.

Lemma shutdown_closes_what_startup_opened_witness :
  exits (fst (perform healthy
                (fst (perform healthy [] (startup_event None)))
                (shutdown_event (fst (snd (perform healthy [] (startup_event None)))))))
  <> [].
Proof.
  exact (proj1 (proj2 (shutdown_closes_what_startup_opened healthy)) eq_refl).
Defined.

(** With [self.crawler] set, a run of [crawl_urls] is made of engine
    calls only. *)
Lemma engine_only_with_crawler md gt (w : world) urls instruction :
  exists calls,
    fst (run w (crawl_urls md gt true urls instruction)) = map EvArunMany calls.
Proof.
  rewrite (run_crawl_urls md gt w true urls instruction (or_introl eq_refl)).
  rewrite fst_crawl_result.
  pose proof (fetch_runs w (entry_trace true) urls) as Hf.
  destruct Hf; cbn [fst].
  1-3: exists [urls]; reflexivity.
  all: exists [urls; rejected urls rs1]; reflexivity.
Qed.

(** X20. [close] never clears [self.crawler]: a second [close] closes the same
    browser again, and a [crawl_urls] after it finds the field set and
    goes to the engine without initialising. *)
Theorem close_keeps_the_handle
    (sys : system) h md gt (w : world) urls instruction :
  let self := {| crawler := Some h |} in
  let once := perform sys [] (close self) in
  let twice := perform sys (fst once) (close (fst (snd once))) in
  fst (snd twice) = self
  /\ exits (fst twice) = [h; h]
  /\ exists calls,
       fst (run w (crawl_urls md gt (has_crawler (fst (snd twice))) urls instruction))
       = map EvArunMany calls.
Proof.
  cbv zeta. split; [reflexivity|]. split; [reflexivity|].
  match goal with
  | |- context [crawl_urls md gt ?b urls instruction] => change b with true
  end.
  apply engine_only_with_crawler.
Qed.

End LifecycleFacts.

Module LoggerFacts.
Import PyStr Py Logger.
Local Open Scope list_scope.

Section Handlers.

Variable level_for : string -> exn + Z.
Variable formatter_error : string -> option exn.

Lemma installed_handlers_stay level_name log_format logger :
  handlers logger <> [] ->
  handlers (fst (setup_logger level_for formatter_error level_name log_format logger))
  = handlers logger.
Proof.
  intros Hne. unfold setup_logger.
  destruct (level_for level_name) as [e|n]; [reflexivity|]. cbn [handlers].
  destruct (handlers logger) as [|h hs] eqn:Hh; [contradiction|].
  reflexivity.
Qed.

Lemma setup_all_keeps calls : forall logger,
  handlers logger <> [] ->
  handlers (setup_all level_for formatter_error calls logger) = handlers logger.
Proof.
  unfold setup_all.
  induction calls as [|[l f] calls IH]; intros logger Hne; cbn [fold_left fst snd];
    [reflexivity|].
  pose proof (installed_handlers_stay l f logger Hne) as Hk.
  rewrite IH by (rewrite Hk; exact Hne). exact Hk.
Qed.

(** X21. Once the import of [logger.py] has installed its handler, no call of
    [setup_logger] changes the handlers, whatever level and format it is
    given: there stays one handler, with the default format. *)
Theorem handlers_settle_at_import n calls :
  level_for "INFO" = inr n ->
  formatter_error DEFAULT_LOG_FORMAT = None ->
  handlers (setup_all level_for formatter_error calls
              (imported level_for formatter_error))
  = [ {| format := DEFAULT_LOG_FORMAT |} ].
Proof.
  intros Hlevel Hfmt.
  assert (Himp : handlers (imported level_for formatter_error)
                 = [ {| format := DEFAULT_LOG_FORMAT |} ]).
  { unfold imported, setup_logger. rewrite Hlevel. cbn. rewrite Hfmt. reflexivity. }
  rewrite setup_all_keeps; [exact Himp | rewrite Himp; discriminate].
Qed.

(** X22. Whatever the library answers, a logger never gets a second handler
    from [setup_logger]. *)
Theorem never_a_second_handler calls logger :
  List.length (handlers logger) <= 1 ->
  List.length (handlers (setup_all level_for formatter_error calls logger)) <= 1.
Proof.
  revert logger. unfold setup_all.
  induction calls as [|[l f] calls IH]; intros logger Hlen; cbn [fold_left fst snd];
    [exact Hlen|].
  apply IH. unfold setup_logger.
  destruct (level_for l) as [e|k]; [exact Hlen|]. cbn [handlers].
  destruct (handlers logger) as [|h hs] eqn:Hh; cbn; [|exact Hlen].
  destruct (formatter_error _); cbn; lia.
Qed.

End Handlers.

Lemma handlers_settle_at_import_witness :
  handlers (setup_all standard_level (fun _ => None)
              [("DEBUG", Some "%(message)s"); ("INFO", None)]
              (imported standard_level (fun _ => None)))
  = [ {| format := DEFAULT_LOG_FORMAT |} ].
Proof.
  exact (handlers_settle_at_import standard_level (fun _ => None) 20
           [("DEBUG"%string, Some "%(message)s"%string); ("INFO"%string, None)]
           eq_refl eq_refl).
Defined.

Lemma never_a_second_handler_witness :
  List.length (handlers (setup_all standard_level (fun _ => None)
                           [("DEBUG", Some "%(message)s"); ("INFO", None)]
                           new_logger)) <= 1.
Proof.
  apply (never_a_second_handler standard_level (fun _ => None)
           [("DEBUG"%string, Some "%(message)s"%string); ("INFO"%string, None)]
           new_logger).
  cbn. lia.
Defined.

End LoggerFacts.
